(** * Token-stream analyzers of the search engine: a shallow embedding

  The development follows three translation units of the text-analysis
  layer and one of its utilities:

  - [delimited_token_stream.cpp]: the delimiter-based splitter with its
    quote-aware scanner ([find_delimiter]), its quote unwrapping
    ([eval_term]) and the [reset]/[next] cursor;
  - [text_token_stream.cpp]: the linguistic analyzer, its stopword
    resolution ([build_stopwords]), its configuration codec
    ([make_json]/[make_json_config]), the process-wide cache of compiled
    options ([construct]) and the per-token pipeline ([process_term]);
  - [text_token_stemming_stream.cpp]: the stemming analyzer, which turns
    its whole input into one stemmed token;
  - [bitset.hpp]: the dynamic bitset of the utilities.

  Fixed-width integers are integers of [Z] with the wrap-around written
  out; byte buffers are lists of bytes; a [bytes_ref]/[string_ref] is an
  optional list, [None] being the null reference [NIL]. *)

From Stdlib Require Import ZArith List Bool Lia.
From Stdlib Require Import Strings.Byte Strings.Ascii Strings.String.
From Stdlib Require Import Sorting.Permutation.
From stdpp Require Import gmap strings list.

Local Open Scope Z_scope.

(* ===================================================================== *)
(** * Part I: definitions                                                 *)
(* ===================================================================== *)

(** ** Machine integers *)

Module Int.

(** [uint32_t] arithmetic: values are taken modulo [2^32]. *)
Definition wrap32 (z : Z) : Z := z mod 2 ^ 32.

(** [size_t] arithmetic on the 64-bit targets of the engine. *)
Definition wrap64 (z : Z) : Z := z mod 2 ^ 64.

(** [irs::integer_traits<uint32_t>::const_max] *)
Definition uint32_max : Z := 2 ^ 32 - 1.

(** [irs::integer_traits<int32_t>::const_max] *)
Definition int32_max : Z := 2 ^ 31 - 1.

(** The C cast [(int)x] of an unsigned value. *)
Definition to_int (z : Z) : Z :=
  let w := wrap32 z in if w <? 2 ^ 31 then w else w - 2 ^ 32.

End Int.

(** ** The delimiter-based splitter *)

Module Delimited.
Import Int.

Definition bytes := list byte.

(** [irs::bytes_ref]: a pointer and a size; [None] is [bytes_ref::NIL]
    (null pointer), [Some []] is an empty but non-null reference. *)
Definition bytes_ref := option bytes.

Definition null (r : bytes_ref) : bool :=
  match r with None => true | Some _ => false end.

Definition contents (r : bytes_ref) : bytes :=
  match r with None => [] | Some l => l end.

Definition size (r : bytes_ref) : nat := length (contents r).

(** The test of a byte against the double-quote character (0x22). *)
Definition is_quote (c : byte) : bool := Byte.eqb c x22.

(** [0 == memcmp(p, delim, delim.size())] where at least [delim.size()]
    bytes are readable at [p]: [delim] is a prefix of the bytes at [p]. *)
Fixpoint memcmp_eq (p delim : bytes) {struct delim} : bool :=
  match delim with
  | [] => true
  | d :: delim' =>
      match p with
      | [] => false
      | c :: p' => Byte.eqb c d && memcmp_eq p' delim'
      end
  end.

(** [&data[start], len]: the [len] bytes of [data] from index [start]. *)
Definition slice (data : bytes) (start len : nat) : bytes :=
  firstn len (skipn start data).

(** The [for] loop of [eval_term]: [rest] is [data] from index [i]; the
    loop state is [escaped], [start] and the buffer. The result is the
    final [start] and buffer (a [break] leaves the loop at once). *)
Fixpoint eval_term_loop (data : bytes) (i : nat) (rest : bytes)
    (escaped : bool) (start : nat) (buf : bytes) : nat * bytes :=
  match rest with
  | [] => (start, buf)
  | c :: rest' =>
      if is_quote c then
        if escaped && (start =? i)%nat then
          (* an escaped quote *)
          eval_term_loop data (S i) rest' false start buf
        else if escaped then
          (* mismatched quote *)
          (start, buf)
        else
          eval_term_loop data (S i) rest' true (S i)
            (buf ++ slice data start (i - start))
      else eval_term_loop data (S i) rest' escaped start buf
  end.

(** [eval_term(buf, data)]; the buffer is cleared on entry, so only the
    returned reference is modelled. *)
Definition eval_term (data : bytes) : bytes :=
  match data with
  | [] => data
  | c :: rest =>
      if negb (is_quote c) then data (* not a quoted term *)
      else
        let '(start, buf) := eval_term_loop data 1 rest false 1 [] in
        if negb (start =? 1)%nat && (start =? length data)%nat
        then buf
        else data (* identity for mismatched quotes *)
  end.

(** The [for] loop of [find_delimiter] over a non-null delimiter:
    [rest] is [data] from index [i]. [None] is the fall-through to
    [return data.size()] (loop exhausted or [break]). *)
Fixpoint find_delimiter_loop (delim : bytes) (i : nat) (quoted : bool)
    (rest : bytes) : option nat :=
  match rest with
  | [] => None
  | c :: rest' =>
      if quoted then
        find_delimiter_loop delim (S i) (negb (is_quote c)) rest'
      else if (length rest <? length delim)%nat then
        None (* no more delimiters in data *)
      else if memcmp_eq rest delim
              && (negb (i =? 0)%nat || negb (length delim =? 0)%nat) then
        Some i (* delimiter match takes precedence over a quote match *)
      else
        find_delimiter_loop delim (S i) (is_quote c) rest'
  end.

Definition find_delimiter (data delim : bytes_ref) : nat :=
  match delim with
  | None => size data
  | Some d =>
      match find_delimiter_loop d 0 false (contents data) with
      | Some i => i
      | None => size data
      end
  end.

(** [irs::offset] attribute: two [uint32_t]. *)
Record offset := mk_offset { start : Z; end_ : Z }.

(** The fields of [delimited_token_stream] that [reset] and [next]
    read or write. *)
Record delimited_token_stream := mk_stream {
  delim_ : bytes_ref;
  data_ : bytes_ref;
  offset_ : offset;
  payload_ : bytes_ref;
  term_ : bytes_ref;
}.

(** The constructor: attributes start out empty. *)
Definition make (delimiter : bytes_ref) : delimited_token_stream :=
  {| delim_ := delimiter; data_ := None; offset_ := mk_offset 0 0;
     payload_ := None; term_ := None |}.

(** [delimited_token_stream::reset] *)
Definition reset (s : delimited_token_stream) (data : bytes_ref)
    : bool * delimited_token_stream :=
  (true,
   {| delim_ := delim_ s;
      data_ := data;
      offset_ := mk_offset 0 (wrap32 (0 - wrap32 (Z.of_nat (size (delim_ s)))));
      payload_ := payload_ s;
      term_ := term_ s |}).

(** [delimited_token_stream::next] *)
Definition next (s : delimited_token_stream)
    : bool * delimited_token_stream :=
  match data_ s with
  | None => (false, s)
  | Some data =>
      let sz := find_delimiter (data_ s) (delim_ s) in
      let nxt :=
        Z.max 1 (wrap64 (Z.of_nat sz + Z.of_nat (size (delim_ s)))) in
      let start := wrap32 (end_ (offset_ s)
                           + wrap32 (Z.of_nat (size (delim_ s)))) in
      let end' := wrap64 (start + Z.of_nat sz) in
      if uint32_max <? end' then
        (false, s) (* cannot fit the next token into offset calculation *)
      else
        let payload := firstn sz data in
        (true,
         {| delim_ := delim_ s;
            data_ := if (length data <=? sz)%nat then None
                     else Some (skipn (Z.to_nat nxt) data);
            offset_ := mk_offset start (wrap32 end');
            payload_ := Some payload;
            term_ := if null (delim_ s) then Some payload
                     else Some (eval_term payload) |})
  end.

(** What a consumer reads after a successful [next]. *)
Record token := mk_token {
  tok_term : bytes;
  tok_payload : bytes;
  tok_start : Z;
  tok_end : Z;
}.

Definition current (s : delimited_token_stream) : token :=
  {| tok_term := contents (term_ s);
     tok_payload := contents (payload_ s);
     tok_start := start (offset_ s);
     tok_end := end_ (offset_ s) |}.

(** The consumer loop [while (stream.next()) { read attributes }], run
    for at most [fuel] calls of [next]. *)
Fixpoint tokens (fuel : nat) (s : delimited_token_stream) : list token :=
  match fuel with
  | O => []
  | S fuel' =>
      match next s with
      | (true, s') => current s' :: tokens fuel' s'
      | (false, _) => []
      end
  end.

(** [n] successive calls of [next], whatever they return. *)
Fixpoint next_n (n : nat) (s : delimited_token_stream)
    : delimited_token_stream :=
  match n with
  | O => s
  | S n' => next_n n' (snd (next s))
  end.

(** Terms re-joined with the delimiter between consecutive terms. *)
Fixpoint join (delim : bytes) (l : list bytes) : bytes :=
  match l with
  | [] => []
  | [t] => t
  | t :: l' => t ++ delim ++ join delim l'
  end.

End Delimited.

(** ** The delimited analyzer: what a consumer observes *)

Module DelimitedSpec.
Import Int Delimited.

(** The consumer-visible size of what is left to scan: [0] for the null
    reference, one more than the number of bytes otherwise (an empty
    non-null suffix still yields one, empty, token). *)
Definition remaining (s : delimited_token_stream) : nat :=
  match data_ s with None => 0 | Some d => S (length d) end.

(** All the tokens a consumer loop reads from [s]. *)
Definition all_tokens (s : delimited_token_stream) : list token :=
  tokens (remaining s) s.

(** A raw field that [eval_term] leaves alone: it does not open with a
    quote. *)
Definition unquoted (raw : bytes) : Prop :=
  match raw with [] => True | c :: _ => is_quote c = false end.

(** Consecutive tokens sit at [pos], [pos + len + dlen], ... *)
Fixpoint placed (dlen pos : Z) (l : list token) : Prop :=
  match l with
  | [] => True
  | t :: l' =>
      tok_start t = pos
      /\ tok_end t = pos + Z.of_nat (length (tok_payload t))
      /\ placed dlen (tok_end t + dlen) l'
  end.

(** The start offset that the next call of [next] computes. *)
Definition next_start (s : delimited_token_stream) : Z :=
  wrap32 (end_ (offset_ s) + wrap32 (Z.of_nat (size (delim_ s)))).

(** How the term of a token derives from its raw bytes. *)
Definition term_of (delim : bytes_ref) (raw : bytes) : bytes :=
  if null delim then raw else eval_term raw.

(** The bytes that a successful [next] moves the cursor by, as the source
    computes them: [std::max(size_t(1), size + delim_.size())]. *)
Definition advance (s : delimited_token_stream) : Z :=
  Z.max 1 (wrap64 (Z.of_nat (find_delimiter (data_ s) (delim_ s))
                   + Z.of_nat (size (delim_ s)))).

(** The two raw fields of the quoting examples: a quoted field holding a
    doubled quote, and a field whose quote is never closed. *)
Definition quoted_a_qq_b : bytes := [x22; x61; x22; x22; x62; x22].
Definition unterminated_abc : bytes := [x22; x61; x62; x63].

End DelimitedSpec.


(** ** The linguistic analyzer: options, stopwords, cache and codec *)

Module Text.
Import Int.

Local Open Scope string_scope.

(** *** Collaborators outside the translation unit

    The analyzer is written against the C++ standard library, rapidjson,
    the file system and locale utilities. Their observable behaviour is
    taken as parameters; laws are stated as hypotheses where a theorem
    needs them. *)

(** [std::unordered_set<std::string>] is modelled by the sequence its
    iteration visits. Where [emplace] puts a new element in that sequence
    (and whether a rehash reorders the others) is up to the library. *)
Class Container := {
  emplace : string -> list string -> list string;
}.

(** What the C++ standard promises of [emplace]: an element already there
    changes nothing; a new one is added, the elements being visited in some
    order afterwards. *)
Record container_laws `{Container} : Prop := {
  emplace_old : forall w l, In w l -> emplace w l = l;
  emplace_new : forall w l, ~ In w l -> Permutation (emplace w l) (w :: l);
}.

(** A rapidjson document: the value kinds that [make_json] tells apart. *)
#[local] Unset Elimination Schemes.
Inductive json :=
| JNull
| JBool (b : bool)
| JNumber (n : Z)
| JString (s : string)
| JArray (elements : list json)
| JObject (members : list (string * json)).
#[local] Set Elimination Schemes.

(** [Document::Parse] and [Writer] over a [StringBuffer]. *)
Class JsonCodec := {
  json_parse : string -> option json;
  json_write : json -> string;
}.

(** The file system as [get_stopwords] sees it. *)
Class FileSystem := {
  (** [locale_utils::language(locale_utils::locale(name))] *)
  language_of : string -> string;
  (** [irs::getenv(STOPWORD_PATH_ENV_VARIABLE)] *)
  getenv_stopword_path : option string;
  (** The regular files of [<root>/<language>], each as its lines, where
      [root] is the custom path made absolute, or the working directory
      for [None]; [None] when a directory is missing or a file cannot be
      read. *)
  read_directory : option string -> string -> option (list (list string));
}.

(** *** Options *)

Inductive case_convert_t := LOWER | NONE | UPPER.

Definition case_convert_eqb (a b : case_convert_t) : bool :=
  match a, b with
  | LOWER, LOWER | NONE, NONE | UPPER, UPPER => true
  | _, _ => false
  end.

Definition stopwords_t := list string.

Record options_t := mk_options {
  case_convert : case_convert_t;
  explicit_stopwords : stopwords_t;
  explicit_stopwords_set : bool;
  locale : string;
  stopwordsPath : string;
  no_accent : bool;
  no_stem : bool;
}.

(** The byte [0]. *)
Definition NUL : ascii := Ascii.zero.

(** Modelled from the spec: the member initialisers of [options_t], which
    is declared in [text_token_stream.hpp] (not among the sources). The
    spec gives the defaults of the structured configuration: case
    conversion "none", no accent stripping, stemming on, no explicit
    stopwords, no path. An unset path is a string whose first byte is [0],
    which is what the tests of [build_stopwords] and [make_json_config]
    take for unset. *)
Definition default_options : options_t :=
  {| case_convert := NONE;
     explicit_stopwords := [];
     explicit_stopwords_set := false;
     locale := "";
     stopwordsPath := String NUL "";
     no_accent := false;
     no_stem := false |}.

Definition set_locale (o : options_t) (v : string) : options_t :=
  mk_options (case_convert o) (explicit_stopwords o) (explicit_stopwords_set o)
    v (stopwordsPath o) (no_accent o) (no_stem o).

Definition set_case_convert (o : options_t) (v : case_convert_t) : options_t :=
  mk_options v (explicit_stopwords o) (explicit_stopwords_set o)
    (locale o) (stopwordsPath o) (no_accent o) (no_stem o).

Definition set_explicit_stopwords (o : options_t) (v : stopwords_t) : options_t :=
  mk_options (case_convert o) v (explicit_stopwords_set o)
    (locale o) (stopwordsPath o) (no_accent o) (no_stem o).

Definition set_explicit_stopwords_set (o : options_t) (v : bool) : options_t :=
  mk_options (case_convert o) (explicit_stopwords o) v
    (locale o) (stopwordsPath o) (no_accent o) (no_stem o).

Definition set_stopwordsPath (o : options_t) (v : string) : options_t :=
  mk_options (case_convert o) (explicit_stopwords o) (explicit_stopwords_set o)
    (locale o) v (no_accent o) (no_stem o).

Definition set_no_accent (o : options_t) (v : bool) : options_t :=
  mk_options (case_convert o) (explicit_stopwords o) (explicit_stopwords_set o)
    (locale o) (stopwordsPath o) v (no_stem o).

Definition set_no_stem (o : options_t) (v : bool) : options_t :=
  mk_options (case_convert o) (explicit_stopwords o) (explicit_stopwords_set o)
    (locale o) (stopwordsPath o) (no_accent o) v.

(** [options.stopwordsPath.empty() || options.stopwordsPath[0] != 0]: a
    custom path is set. *)
Definition path_is_set (p : string) : bool :=
  match p with
  | EmptyString => true
  | String c _ => negb (Ascii.eqb c NUL)
  end.

Definition empty (l : stopwords_t) : bool :=
  match l with [] => true | _ => false end.

(** [stopwords.find(w) != stopwords.end()] *)
Definition contains (l : stopwords_t) (w : string) : bool :=
  existsb (String.eqb w) l.

(** [buf.insert(first, last)] *)
Definition insert_range `{Container} (buf : stopwords_t) (range : list string)
    : stopwords_t :=
  fold_left (fun acc w => emplace w acc) range buf.

(** *** Stopword resolution *)

(** [std::isspace] in the C locale. *)
Definition isspace (c : ascii) : bool :=
  let n := nat_of_ascii c in
  ((9 <=? n) && (n <=? 13) || (n =? 32))%nat.

(** The inner loop over a line: the index of the first whitespace. *)
Fixpoint first_whitespace (line : string) : nat :=
  match line with
  | EmptyString => 0
  | String c rest => if isspace c then 0 else S (first_whitespace rest)
  end.

(** The word a line contributes; lines starting with whitespace are
    skipped. *)
Definition line_word (line : string) : option string :=
  let i := first_whitespace line in
  if (0 <? i)%nat then Some (substring 0 i line) else None.

Definition file_words (lines : list string) : list string :=
  omap line_word lines.

(** A directory load requested from the file system: path and locale. *)
Definition fs_request : Type := option string * string.

(** [get_stopwords(buf, locale, path)]; the result is the requests made,
    the return value and the buffer. *)
Definition get_stopwords `{Container} `{FileSystem}
    (buf : stopwords_t) (locale : string) (path : option string)
    : list fs_request * bool * stopwords_t :=
  let language := language_of locale in
  let custom_stopword_path :=
    match path with
    | Some p => Some p
    | None => getenv_stopword_path
    end in
  match read_directory custom_stopword_path language with
  | None => ([(path, locale)], false, buf)
  | Some files =>
      let stopwords := insert_range [] (concat (map file_words files)) in
      ([(path, locale)], true, insert_range buf stopwords)
  end.

(** [build_stopwords(options, buf)] *)
Definition build_stopwords `{Container} `{FileSystem}
    (options : options_t) (buf : stopwords_t)
    : list fs_request * bool * stopwords_t :=
  let buf :=
    if negb (empty (explicit_stopwords options))
    then insert_range buf (explicit_stopwords options) (* always go *)
    else buf in
  if path_is_set (stopwordsPath options) then
    get_stopwords buf (locale options) (Some (stopwordsPath options))
  else if negb (explicit_stopwords_set options)
          && empty (explicit_stopwords options) then
    get_stopwords buf (locale options) None
  else ([], true, buf).

(** *** The cache of compiled options *)

(** [cached_options_t]: the options it derives from, its key and the
    resolved stopwords. *)
Record cached_options_t := mk_cached {
  base : options_t;
  key_ : string;
  stopwords_ : stopwords_t;
}.

(** The two references handed to the constructor of [text_token_stream]. *)
Record analyzer := mk_analyzer {
  a_options : options_t;
  a_stopwords : stopwords_t;
}.

Definition analyzer_of (e : cached_options_t) : analyzer :=
  mk_analyzer (base e) (stopwords_ e).

(** Modelled from the spec: [map_utils::try_emplace_update_key] (declared
    in [utils/map_utils.hpp], not among the sources) inserts the value
    built from its arguments only if the key is not in the map, lets the
    generator point the stored key at [value.key_], and returns the entry
    under the key: for a given key the first build wins. *)
Definition try_emplace_update_key
    (cached_state_by_key : gmap string cached_options_t)
    (key : string) (options : options_t) (stopwords : stopwords_t)
    : gmap string cached_options_t * cached_options_t :=
  match cached_state_by_key !! key with
  | Some e => (cached_state_by_key, e)
  | None =>
      let e := mk_cached options key stopwords in
      (<[key := e]> cached_state_by_key, e)
  end.

(** [construct(cache_key, options, stopwords)] *)
Definition construct3
    (cached_state_by_key : gmap string cached_options_t)
    (cache_key : string) (options : options_t) (stopwords : stopwords_t)
    : gmap string cached_options_t * analyzer :=
  let '(cache, options_ptr) :=
    try_emplace_update_key cached_state_by_key cache_key options stopwords in
  (cache, analyzer_of options_ptr).

(** [construct(cache_key)] *)
Definition construct1 `{Container} `{FileSystem}
    (cached_state_by_key : gmap string cached_options_t)
    (cache_key : string)
    : list fs_request * gmap string cached_options_t * option analyzer :=
  match cached_state_by_key !! cache_key with
  | Some e => ([], cached_state_by_key, Some (analyzer_of e))
  | None =>
      (* interpret the cache_key as a locale name *)
      let options := set_locale default_options cache_key in
      let '(log, ok, stopwords) := build_stopwords options [] in
      if ok then
        let '(cache, a) :=
          construct3 cached_state_by_key cache_key options stopwords in
        (log, cache, Some a)
      else (log, cached_state_by_key, None)
  end.

(** *** The configuration codec *)

Definition localeParamName := "locale".
Definition caseConvertParamName := "caseConvert".
Definition stopwordsParamName := "stopwords".
Definition stopwordsPathParamName := "stopwordsPath".
Definition noAccentParamName := "noAccent".
Definition noStemParamName := "noStem".

Definition case_convert_map : list (string * case_convert_t) :=
  [("lower", LOWER); ("none", NONE); ("upper", UPPER)].

(** A [std::string] built from the C string that [GetString()] returns
    stops at the first byte [0]. *)
Fixpoint c_str (s : string) : string :=
  match s with
  | EmptyString => EmptyString
  | String c rest => if Ascii.eqb c NUL then EmptyString else String c (c_str rest)
  end.

(** [json[name]] with [json.HasMember(name)]: the first member of that
    name. *)
Definition member (name : string) (members : list (string * json))
    : option json :=
  snd <$> find (fun m => String.eqb (fst m) name) members.

Definition get_string (v : json) : option string :=
  match v with JString s => Some (c_str s) | _ => None end.

Definition get_bool (v : json) : option bool :=
  match v with JBool b => Some b | _ => None end.

(** [make_json_config]: the document that is written out, or [None]
    when the case conversion has no name. *)
Definition config_document (options : options_t) : option json :=
  match find (fun v => case_convert_eqb (snd v) (case_convert options))
             case_convert_map with
  | None => None
  | Some case_value =>
      Some (JObject
        ([(localeParamName, JString (locale options));
          (caseConvertParamName, JString (fst case_value))]
         ++ (if negb (empty (explicit_stopwords options))
                || explicit_stopwords_set options
             then [(stopwordsParamName,
                    JArray (map JString (explicit_stopwords options)))]
             else [])
         ++ [(noAccentParamName, JBool (no_accent options));
             (noStemParamName, JBool (no_stem options))]
         ++ (if path_is_set (stopwordsPath options)
             then [(stopwordsPathParamName, JString (stopwordsPath options))]
             else [])))
  end.

Definition make_json_config `{JsonCodec} (options : options_t)
    : option string :=
  json_write <$> config_document options.

(** [make_text_config] *)
Definition make_text_config (options : options_t) : option string :=
  Some (locale options).

Inductive text_format := format_json | format_text | format_other.

(** [text_token_stream::to_string(format, definition)] *)
Definition to_string `{JsonCodec} (format : text_format) (options : options_t)
    : option string :=
  match format with
  | format_json => make_json_config options
  | format_text => make_text_config options
  | format_other => None
  end.

(** The optional members read by [make_json], each check failing the
    construction; [options] already holds the locale. *)
Definition parse_case_convert (members : list (string * json))
    (options : options_t) : option options_t :=
  match member caseConvertParamName members with
  | None => Some options
  | Some case_convert =>
      name ← get_string case_convert;
      itr ← find (fun v => String.eqb (fst v) name) case_convert_map;
      Some (set_case_convert options (snd itr))
  end.

Definition parse_stopwords `{Container} (members : list (string * json))
    (options : options_t) : option options_t :=
  match member stopwordsParamName members with
  | None => Some options
  | Some (JArray stop_words) =>
      words ← mapM get_string stop_words;
      Some (set_explicit_stopwords
              (set_explicit_stopwords_set options true)
              (insert_range (explicit_stopwords options) words))
  | Some _ => None
  end.

Definition parse_stopwordsPath (members : list (string * json))
    (options : options_t) : option options_t :=
  match member stopwordsPathParamName members with
  | None => Some options
  | Some ignored_words_path =>
      set_stopwordsPath options <$> get_string ignored_words_path
  end.

Definition parse_no_accent (members : list (string * json))
    (options : options_t) : option options_t :=
  match member noAccentParamName members with
  | None => Some options
  | Some no_accent => set_no_accent options <$> get_bool no_accent
  end.

Definition parse_no_stem (members : list (string * json))
    (options : options_t) : option options_t :=
  match member noStemParamName members with
  | None => Some options
  | Some no_stem => set_no_stem options <$> get_bool no_stem
  end.

Definition parse_options `{Container} (members : list (string * json))
    : option options_t :=
  locale_value ← member localeParamName members;
  locale ← get_string locale_value;
  options ← parse_case_convert members (set_locale default_options locale);
  options ← parse_stopwords members options;
  options ← parse_stopwordsPath members options;
  options ← parse_no_accent members options;
  parse_no_stem members options.

(** [make_json(args)] over the cache: the file-system requests made, the
    cache afterwards and the analyzer, [None] for [nullptr]. *)
Definition make_json `{Container} `{FileSystem} `{JsonCodec}
    (cached_state_by_key : gmap string cached_options_t) (args : string)
    : list fs_request * gmap string cached_options_t * option analyzer :=
  match json_parse args with
  | None => ([], cached_state_by_key, None)
  | Some (JString _) => construct1 cached_state_by_key args
  | Some (JObject members) =>
      match parse_options members with
      | None => ([], cached_state_by_key, None)
      | Some options =>
          let '(log, ok, stopwords) := build_stopwords options [] in
          if ok then
            let '(cache, a) :=
              construct3 cached_state_by_key args options stopwords in
            (log, cache, Some a)
          else (log, cached_state_by_key, None)
      end
  | Some _ => ([], cached_state_by_key, None)
  end.

(** [make_text(args)] *)
Definition make_text `{Container} `{FileSystem}
    (cached_state_by_key : gmap string cached_options_t) (args : string)
    : list fs_request * gmap string cached_options_t * option analyzer :=
  construct1 cached_state_by_key args.

End Text.

(** ** The linguistic analyzer: requests, validity and the cache invariant *)

Module TextSpec.
Import Int Text.

Local Open Scope string_scope.



Section Requests.
Context `{Container} `{FileSystem} `{JsonCodec}.




End Requests.

(** The stopwords member is written. *)
Definition has_stopwords (o : options_t) : bool :=
  negb (empty (explicit_stopwords o)) || explicit_stopwords_set o.

(** A configuration as the structured constructor can produce it: its
    strings were built from C strings, so they hold no byte [0] (the
    unset path apart). *)
Record valid_options (o : options_t) : Prop := {
  valid_locale : c_str (locale o) = locale o;
  valid_stopwords : Forall (fun w => c_str w = w) (explicit_stopwords o);
  valid_path :
    path_is_set (stopwordsPath o) = true ->
    c_str (stopwordsPath o) = stopwordsPath o;
}.

(** Every entry under a key that parses as an object was compiled from
    that key by the structured constructor. *)
Definition structured_cache `{Container} `{JsonCodec}
    (c : gmap string cached_options_t) : Prop :=
  forall key e members,
    c !! key = Some e ->
    json_parse key = Some (JObject members) ->
    parse_options members = Some (base e).

Section Reparsed.
Context `{Container}.

(** The options that [make_json] reads back from the document written
    for [o]. *)
Definition reparsed (o : options_t) : options_t :=
  {| case_convert := case_convert o;
     explicit_stopwords :=
       if has_stopwords o
       then insert_range [] (map c_str (explicit_stopwords o))
       else [];
     explicit_stopwords_set := has_stopwords o;
     locale := c_str (locale o);
     stopwordsPath :=
       if path_is_set (stopwordsPath o) then c_str (stopwordsPath o)
       else stopwordsPath default_options;
     no_accent := no_accent o;
     no_stem := no_stem o |}.

End Reparsed.

End TextSpec.


(** ** The linguistic analyzer: the token stream *)

Module TextStream.
Import Int Text.

(** ICU, Snowball and the locale utilities, as [reset], [next] and
    [process_term] use them. A creation function returns [None] where the
    source sees an error code or a null pointer. *)
Class Linguistic := {
  UnicodeString : Type;
  std_locale : Type;
  icu_Locale : Type;
  Normalizer2 : Type;
  Transliterator : Type;
  sb_stemmer : Type;
  (** the default-constructed [std::locale] *)
  classic_locale : std_locale;
  (** [locale_utils::locale(name, NIL, true)] *)
  locale_of_name : string -> std_locale;
  language : std_locale -> string;
  country : std_locale -> string;
  (** the locale after [setToBogus()] *)
  bogus_locale : icu_Locale;
  isBogus : icu_Locale -> bool;
  (** [icu::Locale(language, country)] *)
  make_icu_locale : string -> string -> icu_Locale;
  getNFCInstance : option Normalizer2;
  (** [Transliterator::createInstance] on the accent-removal rule *)
  createTransliterator : option Transliterator;
  (** [BreakIterator::createWordInstance(locale)] succeeds *)
  createWordInstance : icu_Locale -> bool;
  (** the boundaries that successive [next()] calls of the word iterator
      return on a text, each with its rule status, before [DONE] *)
  word_boundaries : icu_Locale -> UnicodeString -> list (Z * Z);
  (** [sb_stemmer_new(language, nullptr)]; [None] is the null pointer *)
  sb_stemmer_new : string -> option sb_stemmer;
  (** [sb_stemmer_stem(stemmer, word, size)]; [None] is the null pointer *)
  sb_stemmer_stem : sb_stemmer -> string -> Z -> option string;
  (** [locale_utils::append_internal]: the conversion to UTF-8 *)
  append_internal : std_locale -> string -> option string;
  fromUTF8 : string -> UnicodeString;
  toUTF8String : UnicodeString -> string;
  tempSubString : UnicodeString -> Z -> Z -> UnicodeString;
  (** [Normalizer2::normalize]; [None] when the error code is a failure *)
  normalize : Normalizer2 -> UnicodeString -> option UnicodeString;
  toLower : icu_Locale -> UnicodeString -> UnicodeString;
  toUpper : icu_Locale -> UnicodeString -> UnicodeString;
  transliterate : Transliterator -> UnicodeString -> UnicodeString;
}.

(** [UWordBreak::UBRK_WORD_NONE] *)
Definition UBRK_WORD_NONE : Z := 0.

Section Stream.
Context `{Linguistic}.

(** The word iterator: the current position and the boundaries, each with
    its rule status, that [next()] still returns before [DONE]. *)
Record break_iterator_t := mk_break_iterator {
  current : Z;
  upcoming : list (Z * Z);
}.

(** [text_token_stream::state_t] and the attributes of the stream. *)
Record state_t := mk_state {
  break_iterator : option break_iterator_t;
  data : UnicodeString;
  icu_locale : icu_Locale;
  locale_ : std_locale;
  normalizer : option Normalizer2;
  options : options_t;
  stopwords : stopwords_t;
  stemmer : option sb_stemmer;
  transliterator : option Transliterator;
  term_ : option string;
  offs_start : Z;
  offs_end : Z;
}.

(** The constructor: nothing is built yet, the ICU locale is bogus. *)
Definition text_token_stream (a : analyzer) : state_t :=
  {| break_iterator := None; data := fromUTF8 EmptyString;
     icu_locale := bogus_locale;
     locale_ := classic_locale; normalizer := None;
     options := a_options a; stopwords := a_stopwords a;
     stemmer := None; transliterator := None;
     term_ := None; offs_start := 0; offs_end := 0 |}.

Definition set_locale_ (st : state_t) (l : std_locale) :=
  mk_state (break_iterator st) (data st) (icu_locale st) l (normalizer st)
    (options st) (stopwords st) (stemmer st) (transliterator st) (term_ st)
    (offs_start st) (offs_end st).

Definition set_icu_locale (st : state_t) (i : icu_Locale) :=
  mk_state (break_iterator st) (data st) i (locale_ st) (normalizer st)
    (options st) (stopwords st) (stemmer st) (transliterator st) (term_ st)
    (offs_start st) (offs_end st).

Definition set_normalizer (st : state_t) (n : option Normalizer2) :=
  mk_state (break_iterator st) (data st) (icu_locale st) (locale_ st) n
    (options st) (stopwords st) (stemmer st) (transliterator st) (term_ st)
    (offs_start st) (offs_end st).

Definition set_transliterator (st : state_t) (t : option Transliterator) :=
  mk_state (break_iterator st) (data st) (icu_locale st) (locale_ st)
    (normalizer st) (options st) (stopwords st) (stemmer st) t (term_ st)
    (offs_start st) (offs_end st).

Definition set_break_iterator (st : state_t) (b : option break_iterator_t) :=
  mk_state b (data st) (icu_locale st) (locale_ st)
    (normalizer st) (options st) (stopwords st) (stemmer st)
    (transliterator st) (term_ st) (offs_start st) (offs_end st).

Definition set_stemmer (st : state_t) (s : option sb_stemmer) :=
  mk_state (break_iterator st) (data st) (icu_locale st) (locale_ st)
    (normalizer st) (options st) (stopwords st) s
    (transliterator st) (term_ st) (offs_start st) (offs_end st).

Definition set_data (st : state_t) (d : UnicodeString) :=
  mk_state (break_iterator st) d (icu_locale st) (locale_ st)
    (normalizer st) (options st) (stopwords st) (stemmer st)
    (transliterator st) (term_ st) (offs_start st) (offs_end st).

Definition set_term (st : state_t) (t : string) :=
  mk_state (break_iterator st) (data st) (icu_locale st) (locale_ st)
    (normalizer st) (options st) (stopwords st) (stemmer st)
    (transliterator st) (Some t) (offs_start st) (offs_end st).

Definition set_offs (st : state_t) (s e : Z) :=
  mk_state (break_iterator st) (data st) (icu_locale st) (locale_ st)
    (normalizer st) (options st) (stopwords st) (stemmer st)
    (transliterator st) (term_ st) s e.

(** The steps of [reset] that build what is missing. The first derives
    the locales while the ICU locale is bogus. *)
Definition ensure_locale (st : state_t) : state_t :=
  if isBogus (icu_locale st) then
    let l := locale_of_name (locale (options st)) in
    set_icu_locale (set_locale_ st l)
      (make_icu_locale (language l) (country l))
  else st.

(** The next three return [false] where [reset] returns [false]. *)
Definition ensure_normalizer (st : state_t) : state_t * bool :=
  match normalizer st with
  | Some _ => (st, true)
  | None =>
      match getNFCInstance with
      | Some n => (set_normalizer st (Some n), true)
      | None => (set_normalizer st None, false)
      end
  end.

Definition ensure_transliterator (st : state_t) : state_t * bool :=
  match no_accent (options st), transliterator st with
  | true, None =>
      match createTransliterator with
      | Some t => (set_transliterator st (Some t), true)
      | None => (set_transliterator st None, false)
      end
  | _, _ => (st, true)
  end.

Definition ensure_break_iterator (st : state_t) : state_t * bool :=
  match break_iterator st with
  | Some _ => (st, true)
  | None =>
      if createWordInstance (icu_locale st)
      then (set_break_iterator st (Some (mk_break_iterator 0 [])), true)
      else (set_break_iterator st None, false)
  end.

(** optional since not available for all locales *)
Definition ensure_stemmer (st : state_t) : state_t :=
  match no_stem (options st), stemmer st with
  | false, None => set_stemmer st (sb_stemmer_new (language (locale_ st)))
  | _, _ => st
  end.

(** [break_iterator->setText(data)] *)
Definition setText (st : state_t) : state_t :=
  set_break_iterator st
    (Some (mk_break_iterator 0 (word_boundaries (icu_locale st) (data st)))).

(** [text_token_stream::reset] *)
Definition reset (st : state_t) (input : string) : bool * state_t :=
  let st := ensure_locale st in
  if isBogus (icu_locale st) then (false, st) else
  let '(st, ok) := ensure_normalizer st in
  if negb ok then (false, st) else
  let '(st, ok) := ensure_transliterator st in
  if negb ok then (false, st) else
  let '(st, ok) := ensure_break_iterator st in
  if negb ok then (false, st) else
  let st := ensure_stemmer st in
  match append_internal (locale_ st) input with
  | None => (false, st) (* UTF8 conversion failure *)
  | Some data_utf8 =>
      if int32_max <? Z.of_nat (String.length data_utf8) then (false, st)
      else (true, setText (set_data st (fromUTF8 data_utf8)))
  end.

(** The transformations of [process_term] up to the UTF-8 word. *)
Definition normalize_word (n : Normalizer2) (text : UnicodeString)
    : UnicodeString :=
  match normalize n text with
  | Some word => word
  | None => text (* use non-normalized value if normalization failure *)
  end.

Definition case_convert_word (st : state_t) (word : UnicodeString)
    : UnicodeString :=
  match case_convert (options st) with
  | LOWER => toLower (icu_locale st) word
  | UPPER => toUpper (icu_locale st) word
  | NONE => word
  end.

Definition transliterate_word (st : state_t) (word : UnicodeString)
    : UnicodeString :=
  match transliterator st with
  | Some t => transliterate t word
  | None => word
  end.

(** [process_term(term, state, data)]: [None] where the source would
    dereference a null normalizer; otherwise the return value and the
    state, whose term is set on success. *)
Definition process_term (st : state_t) (text : UnicodeString)
    : option (bool * state_t) :=
  match normalizer st with
  | None => None
  | Some n =>
      let word := normalize_word n text in
      let word := case_convert_word st word in
      let word := transliterate_word st word in
      let word_utf8 := toUTF8String word in
      if contains (stopwords st) word_utf8 then Some (false, st)
      else
        match stemmer st with
        | Some s =>
            match sb_stemmer_stem s word_utf8
                    (to_int (Z.of_nat (String.length word_utf8))) with
            | Some value => Some (true, set_term st value)
            | None => Some (true, set_term st word_utf8)
            end
        | None => Some (true, set_term st word_utf8)
        end
  end.

(** The loop of [next] over the boundaries still to come, [start] being
    the previous boundary; each round first advances the iterator. *)
Fixpoint next_loop (st : state_t) (start : Z) (boundaries : list (Z * Z))
    : option (bool * state_t) :=
  match boundaries with
  | [] => Some (false, st)
  | (end', status) :: rest =>
      let st := set_break_iterator st (Some (mk_break_iterator end' rest)) in
      if status =? UBRK_WORD_NONE then next_loop st end' rest
      else
        match process_term st (tempSubString (data st) start (end' - start)) with
        | None => None
        | Some (false, st) => next_loop st end' rest
        | Some (true, st) => Some (true, set_offs st start end')
        end
  end.

(** [text_token_stream::next]; [None] where the source would dereference
    a null break iterator (a call before any [reset] has created it). *)
Definition next (st : state_t) : option (bool * state_t) :=
  match break_iterator st with
  | Some b => next_loop st (current b) (upcoming b)
  | None => None
  end.

End Stream.

End TextStream.

(** ** The linguistic analyzer: the pipeline as the specification words it *)

Module StreamSpec.
Import Int Text TextStream.

Section Pipeline.
Context `{Linguistic}.

(** *** The pipeline

    normalize, case-convert, strip accents if configured, drop stopwords,
    stem if a stemmer is available and not disabled; everything is
    determined by the configuration. *)

Definition configured_locale (o : options_t) : std_locale :=
  locale_of_name (locale o).

Definition configured_icu_locale (o : options_t) : icu_Locale :=
  make_icu_locale (language (configured_locale o))
                  (country (configured_locale o)).

(** Unicode normalization by the normalizer of the platform (canonical
    composition); a span that the normalizer reports a failure for is
    kept as it is. *)
Definition spec_normalize (text : UnicodeString) : UnicodeString :=
  match getNFCInstance with
  | Some n =>
      match normalize n text with
      | Some normalized => normalized
      | None => text
      end
  | None => text
  end.

Definition spec_case_convert (o : options_t) (w : UnicodeString)
    : UnicodeString :=
  match case_convert o with
  | LOWER => toLower (configured_icu_locale o) w
  | UPPER => toUpper (configured_icu_locale o) w
  | NONE => w
  end.

Definition spec_strip_accents (o : options_t) (w : UnicodeString)
    : UnicodeString :=
  if no_accent o then
    match createTransliterator with
    | Some t => transliterate t w
    | None => w
    end
  else w.

(** The fully transformed string, as tested against the stopwords. *)
Definition spec_transform (o : options_t) (text : UnicodeString) : string :=
  toUTF8String (spec_strip_accents o (spec_case_convert o (spec_normalize text))).

(** Stemming, falling back to the transformed word. *)
Definition spec_stem (o : options_t) (w : string) : string :=
  if no_stem o then w
  else
    match sb_stemmer_new (language (configured_locale o)) with
    | Some s =>
        match sb_stemmer_stem s w (to_int (Z.of_nat (String.length w))) with
        | Some stem => stem
        | None => w
        end
    | None => w
    end.

(** The term of a span, or [None] when the span is discarded. *)
Definition spec_term (a : analyzer) (text : UnicodeString) : option string :=
  let w := spec_transform (a_options a) text in
  if contains (a_stopwords a) w then None
  else Some (spec_stem (a_options a) w).

Inductive scan_result :=
| Emitted (term : string) (start end' : Z)
| Exhausted.

(** Scanning: spans without linguistic content and discarded spans are
    skipped; the first span left is the token. *)
Fixpoint spec_next (a : analyzer) (text : UnicodeString) (start : Z)
    (boundaries : list (Z * Z)) : scan_result :=
  match boundaries with
  | [] => Exhausted
  | (end', status) :: rest =>
      if status =? UBRK_WORD_NONE then spec_next a text end' rest
      else
        match spec_term a (tempSubString text start (end' - start)) with
        | None => spec_next a text end' rest
        | Some term => Emitted term start end'
        end
  end.

(** What the caller of [next] sees. *)
Definition observe (r : option (bool * state_t)) : option scan_result :=
  match r with
  | Some (true, st) =>
      match term_ st with
      | Some t => Some (Emitted t (offs_start st) (offs_end st))
      | None => None
      end
  | Some (false, _) => Some Exhausted
  | None => None
  end.

(** The word [process_term] tests against the stopwords. *)
Definition transformed (st : state_t) (n : Normalizer2) (text : UnicodeString)
    : string :=
  toUTF8String
    (transliterate_word st (case_convert_word st (normalize_word n text))).

(** *** The life of a stream *)

(** The states a stream goes through: construction, then any calls of
    [reset] and [next]. *)
Inductive reachable (a : analyzer) : state_t -> Prop :=
| reach_new : reachable a (text_token_stream a)
| reach_reset st input :
    reachable a st -> reachable a (snd (reset st input))
| reach_next st b st' :
    reachable a st -> next st = Some (b, st') -> reachable a st'.

(** What the state holds was built from the configuration. *)
Record core (a : analyzer) (st : state_t) : Prop := {
  core_options : options st = a_options a;
  core_stopwords : stopwords st = a_stopwords a;
  core_locale :
    isBogus (icu_locale st) = false ->
    locale_ st = configured_locale (a_options a)
    /\ icu_locale st = configured_icu_locale (a_options a);
  core_normalizer :
    forall n, normalizer st = Some n -> getNFCInstance = Some n;
  core_transliterator :
    forall t, transliterator st = Some t ->
              no_accent (a_options a) = true /\ createTransliterator = Some t;
  core_stemmer :
    forall s, stemmer st = Some s ->
              no_stem (a_options a) = false
              /\ sb_stemmer_new (language (configured_locale (a_options a)))
                 = Some s;
}.

(** Everything [process_term] needs is there. *)
Record ready (a : analyzer) (st : state_t) : Prop := {
  ready_locale : isBogus (icu_locale st) = false;
  ready_normalizer : normalizer st <> None;
  ready_transliterator :
    no_accent (a_options a) = true -> transliterator st <> None;
  ready_stemmer :
    no_stem (a_options a) = false ->
    stemmer st = sb_stemmer_new (language (configured_locale (a_options a)));
}.

Definition wf (a : analyzer) (st : state_t) : Prop :=
  core a st /\ (break_iterator st <> None -> ready a st).

(** Until the stemmer is ensured, [reset] has these in hand. *)
Record prepared (a : analyzer) (st : state_t) : Prop := {
  prepared_locale : isBogus (icu_locale st) = false;
  prepared_normalizer : normalizer st <> None;
  prepared_transliterator :
    no_accent (a_options a) = true -> transliterator st <> None;
}.

(** The end of [reset], from the creation of the word iterator on. *)
Definition reset_tail (st : state_t) (input : string) : bool * state_t :=
  let '(st, ok) := ensure_break_iterator st in
  if negb ok then (false, st) else
  let st := ensure_stemmer st in
  match append_internal (locale_ st) input with
  | None => (false, st)
  | Some data_utf8 =>
      if int32_max <? Z.of_nat (String.length data_utf8) then (false, st)
      else (true, setText (set_data st (fromUTF8 data_utf8)))
  end.

(** The middle of [reset]: the transliterator, then the end. *)
Definition reset_mid (st : state_t) (input : string) : bool * state_t :=
  let '(st, ok) := ensure_transliterator st in
  if negb ok then (false, st) else reset_tail st input.

(** The normalizer, then the middle. *)
Definition reset_norm (st : state_t) (input : string) : bool * state_t :=
  let '(st, ok) := ensure_normalizer st in
  if negb ok then (false, st) else reset_mid st input.

End Pipeline.

End StreamSpec.


(** ** Example platforms

    Concrete collaborators used to run the definitions: a container that
    appends new elements, a compact JSON writer with its reader, a file
    system in which every language directory exists and holds one file,
    and an ASCII-only stand-in for the linguistic libraries. *)

Module Examples.
Import Int Text TextStream.

Local Open Scope string_scope.

(** A container whose iteration visits the elements in insertion order. *)
Definition emplace_back (w : string) (l : list string) : list string :=
  if contains l w then l else l ++ [w].

(** A container that links a new element in at the head of its list. *)
Definition emplace_front (w : string) (l : list string) : list string :=
  if contains l w then l else w :: l.

Definition back_container : Container := {| emplace := emplace_back |}.
Definition front_container : Container := {| emplace := emplace_front |}.

(** *** A compact JSON writer *)

Definition dquote : ascii := "034"%char.
Definition backslash : ascii := "092"%char.

Definition hex_digit (n : nat) : ascii :=
  ascii_of_nat (if (n <? 10)%nat then 48 + n else 87 + n).

(** A quote, a backslash or a control character is escaped. *)
Fixpoint escape (s : string) : string :=
  match s with
  | EmptyString => EmptyString
  | String c rest =>
      let n := nat_of_ascii c in
      if Ascii.eqb c dquote then String backslash (String dquote (escape rest))
      else if Ascii.eqb c backslash
      then String backslash (String backslash (escape rest))
      else if (n <? 32)%nat
      then String backslash
             (String "u" (String "0" (String "0"
                (String (hex_digit (n / 16)) (String (hex_digit (n mod 16))
                   (escape rest))))))
      else String c (escape rest)
  end.

Definition write_string (s : string) : string :=
  String dquote (escape s ++ String dquote EmptyString).

Fixpoint write_digits (fuel : nat) (n : N) (acc : string) : string :=
  match fuel with
  | O => acc
  | S fuel' =>
      let acc' := String (ascii_of_N (48 + n mod 10)%N) acc in
      if (n <? 10)%N then acc' else write_digits fuel' (n / 10)%N acc'
  end.

Definition write_number (z : Z) : string :=
  let digits := write_digits (S (N.to_nat (N.log2 (Z.abs_N z)))) (Z.abs_N z) "" in
  if (z <? 0)%Z then String "-" digits else digits.

Fixpoint write_separated (items : list string) : string :=
  match items with
  | [] => ""
  | [x] => x
  | x :: rest => x ++ "," ++ write_separated rest
  end.

Fixpoint write (v : json) : string :=
  match v with
  | JNull => "null"
  | JBool true => "true"
  | JBool false => "false"
  | JNumber n => write_number n
  | JString s => write_string s
  | JArray elements => "[" ++ write_separated (map write elements) ++ "]"
  | JObject members =>
      "{" ++ write_separated
               (map (fun m => write_string (fst m) ++ ":" ++ write (snd m))
                    members)
          ++ "}"
  end.

(** *** The matching reader *)

Definition hex_value (c : ascii) : option nat :=
  let n := nat_of_ascii c in
  if ((48 <=? n) && (n <=? 57))%nat then Some (n - 48)%nat
  else if ((97 <=? n) && (n <=? 102))%nat then Some (n - 87)%nat
  else if ((65 <=? n) && (n <=? 70))%nat then Some (n - 55)%nat
  else None.

(** The characters of a string up to its closing quote. *)
Fixpoint read_string_body (s : string) : option (string * string) :=
  match s with
  | EmptyString => None
  | String c rest =>
      if Ascii.eqb c dquote then Some (EmptyString, rest)
      else if Ascii.eqb c backslash then
        match rest with
        | String "u" (String "0" (String "0" (String h (String l rest')))) =>
            match hex_value h, hex_value l, read_string_body rest' with
            | Some a, Some b, Some (body, tail) =>
                Some (String (ascii_of_nat (16 * a + b)) body, tail)
            | _, _, _ => None
            end
        | String e rest' =>
            if Ascii.eqb e dquote || Ascii.eqb e backslash then
              match read_string_body rest' with
              | Some (body, tail) => Some (String e body, tail)
              | None => None
              end
            else None
        | EmptyString => None
        end
      else
        match read_string_body rest with
        | Some (body, tail) => Some (String c body, tail)
        | None => None
        end
  end.

Fixpoint read_digits (s : string) (acc : N) : N * string :=
  match s with
  | String c rest =>
      let n := N_of_ascii c in
      if ((48 <=? n) && (n <=? 57))%N
      then read_digits rest (10 * acc + (n - 48))%N
      else (acc, s)
  | EmptyString => (acc, s)
  end.

Definition strip (prefix s : string) : option string :=
  if String.prefix prefix s
  then Some (substring (String.length prefix)
                       (String.length s - String.length prefix) s)
  else None.

(** The elements of an array behind its opening bracket. *)
Fixpoint read_elements (read_value : string -> option (json * string))
    (fuel : nat) (s : string) : option (list json * string) :=
  match fuel with
  | O => None
  | S fuel' =>
      match read_value s with
      | Some (v, String "," rest) =>
          match read_elements read_value fuel' rest with
          | Some (vs, tail) => Some (v :: vs, tail)
          | None => None
          end
      | Some (v, String "]" rest) => Some ([v], rest)
      | _ => None
      end
  end.

(** The members of an object behind its opening brace. *)
Fixpoint read_members (read_value : string -> option (json * string))
    (fuel : nat) (s : string) : option (list (string * json) * string) :=
  match fuel with
  | O => None
  | S fuel' =>
      match s with
      | String q rest =>
          if Ascii.eqb q dquote then
            match read_string_body rest with
            | Some (name, String ":" rest') =>
                match read_value rest' with
                | Some (v, String "," tail) =>
                    match read_members read_value fuel' tail with
                    | Some (ms, tail') => Some ((name, v) :: ms, tail')
                    | None => None
                    end
                | Some (v, String "}" tail) => Some ([(name, v)], tail)
                | _ => None
                end
            | _ => None
            end
          else None
      | EmptyString => None
      end
  end.

Fixpoint read_value (fuel : nat) (s : string) : option (json * string) :=
  match fuel with
  | O => None
  | S fuel' =>
      match s with
      | String "n" _ => pair JNull <$> strip "null" s
      | String "t" _ => pair (JBool true) <$> strip "true" s
      | String "f" _ => pair (JBool false) <$> strip "false" s
      | String "[" (String "]" rest) => Some (JArray [], rest)
      | String "[" rest =>
          match read_elements (read_value fuel') (String.length s) rest with
          | Some (vs, tail) => Some (JArray vs, tail)
          | None => None
          end
      | String "{" (String "}" rest) => Some (JObject [], rest)
      | String "{" rest =>
          match read_members (read_value fuel') (String.length s) rest with
          | Some (ms, tail) => Some (JObject ms, tail)
          | None => None
          end
      | String "-" rest =>
          let '(n, tail) := read_digits rest 0 in
          if (String.length tail <? String.length rest)%nat
          then Some (JNumber (- Z.of_N n)%Z, tail) else None
      | String c rest =>
          if Ascii.eqb c dquote then
            match read_string_body rest with
            | Some (body, tail) => Some (JString body, tail)
            | None => None
            end
          else
            let '(n, tail) := read_digits s 0 in
            if (String.length tail <? String.length s)%nat
            then Some (JNumber (Z.of_N n), tail) else None
      | EmptyString => None
      end
  end.

Definition read (s : string) : option json :=
  match read_value (S (String.length s)) s with
  | Some (v, EmptyString) => Some v
  | _ => None
  end.

Definition compact_json : JsonCodec :=
  {| json_parse := read; json_write := write |}.

(** *** A file system and a linguistic platform *)

(** Every language directory exists; each holds one file listing the
    word [the]. *)
Definition one_file_system : FileSystem :=
  {| language_of := fun name => name;
     getenv_stopword_path := None;
     read_directory := fun _ _ => Some [["the"; " skipped"; "a word"]] |}.

Definition lower_ascii (c : ascii) : ascii :=
  let n := nat_of_ascii c in
  if ((65 <=? n) && (n <=? 90))%nat then ascii_of_nat (n + 32) else c.

Definition upper_ascii (c : ascii) : ascii :=
  let n := nat_of_ascii c in
  if ((97 <=? n) && (n <=? 122))%nat then ascii_of_nat (n - 32) else c.

Fixpoint map_string (f : ascii -> ascii) (s : string) : string :=
  match s with
  | EmptyString => EmptyString
  | String c rest => String (f c) (map_string f rest)
  end.

(** Word boundaries of an ASCII text: runs of letters are words (status
    200), anything else is a span of its own with no content. *)
Definition is_letter (c : ascii) : bool :=
  let n := nat_of_ascii (lower_ascii c) in ((97 <=? n) && (n <=? 122))%nat.

Fixpoint ascii_boundaries (s : string) (pos : Z) : list (Z * Z) :=
  match s with
  | EmptyString => []
  | String c rest =>
      if is_letter c then
        match rest with
        | String d _ =>
            if is_letter d then ascii_boundaries rest (pos + 1)
            else (pos + 1, 200) :: ascii_boundaries rest (pos + 1)
        | EmptyString => [(pos + 1, 200)]
        end
      else (pos + 1, 0) :: ascii_boundaries rest (pos + 1)
  end.

(** A stemmer that drops one final s. *)
Fixpoint drop_final_s (s : string) : string :=
  match s with
  | EmptyString => EmptyString
  | String c EmptyString => if Ascii.eqb c "s" then EmptyString else s
  | String c rest => String c (drop_final_s rest)
  end.

Definition ascii_platform : Linguistic :=
  {| UnicodeString := string;
     std_locale := string;
     icu_Locale := string;
     Normalizer2 := unit;
     Transliterator := unit;
     sb_stemmer := unit;
     classic_locale := "C";
     locale_of_name := fun name => name;
     language := fun l => l;
     country := fun _ => "";
     bogus_locale := "";
     isBogus := fun l => String.eqb l "";
     make_icu_locale := fun l _ => l;
     getNFCInstance := Some tt;
     createTransliterator := Some tt;
     createWordInstance := fun _ => true;
     word_boundaries := fun _ text => ascii_boundaries text 0;
     sb_stemmer_new := fun l => if String.eqb l "en" then Some tt else None;
     sb_stemmer_stem := fun _ w _ => Some (drop_final_s w);
     append_internal := fun _ s => Some s;
     fromUTF8 := fun s => s;
     toUTF8String := fun s => s;
     tempSubString := fun s start len => substring (Z.to_nat start) (Z.to_nat len) s;
     normalize := fun _ s => Some s;
     toLower := fun _ s => map_string lower_ascii s;
     toUpper := fun _ s => map_string upper_ascii s;
     transliterate := fun _ s => s |}.

(** A platform whose stages each leave a mark on the word, so that the
    term of a span spells out the stages it went through, in their
    order: the normalizer appends the letter n, the case conversions l or
    u, the transliterator t and the stemmer s. *)
Definition tracing_platform : Linguistic :=
  {| UnicodeString := string;
     std_locale := string;
     icu_Locale := string;
     Normalizer2 := unit;
     Transliterator := unit;
     sb_stemmer := unit;
     classic_locale := "C";
     locale_of_name := fun name => name;
     language := fun l => l;
     country := fun _ => "";
     bogus_locale := "";
     isBogus := fun l => String.eqb l "";
     make_icu_locale := fun l _ => l;
     getNFCInstance := Some tt;
     createTransliterator := Some tt;
     createWordInstance := fun _ => true;
     word_boundaries := fun _ text => ascii_boundaries text 0;
     sb_stemmer_new := fun l => if String.eqb l "en" then Some tt else None;
     sb_stemmer_stem := fun _ w _ => Some (w ++ "s");
     append_internal := fun _ s => Some s;
     fromUTF8 := fun s => s;
     toUTF8String := fun s => s;
     tempSubString := fun s start len => substring (Z.to_nat start) (Z.to_nat len) s;
     normalize := fun _ s => Some (s ++ "n");
     toLower := fun _ s => map_string lower_ascii s ++ "l";
     toUpper := fun _ s => map_string upper_ascii s ++ "u";
     transliterate := fun _ s => s ++ "t" |}.

(** A platform whose conversion to UTF-8 accepts seven-bit text only. *)
Definition seven_bit (s : string) : bool :=
  forallb (fun c => Nat.ltb (nat_of_ascii c) 128) (list_ascii_of_string s).

Definition strict_platform : Linguistic :=
  {| UnicodeString := string;
     std_locale := string;
     icu_Locale := string;
     Normalizer2 := unit;
     Transliterator := unit;
     sb_stemmer := unit;
     classic_locale := "C";
     locale_of_name := fun name => name;
     language := fun l => l;
     country := fun _ => "";
     bogus_locale := "";
     isBogus := fun l => String.eqb l "";
     make_icu_locale := fun l _ => l;
     getNFCInstance := Some tt;
     createTransliterator := Some tt;
     createWordInstance := fun _ => true;
     word_boundaries := fun _ text => ascii_boundaries text 0;
     sb_stemmer_new := fun l => if String.eqb l "en" then Some tt else None;
     sb_stemmer_stem := fun _ w _ => Some (drop_final_s w);
     append_internal := fun _ s => if seven_bit s then Some s else None;
     fromUTF8 := fun s => s;
     toUTF8String := fun s => s;
     tempSubString := fun s start len => substring (Z.to_nat start) (Z.to_nat len) s;
     normalize := fun _ s => Some s;
     toLower := fun _ s => map_string lower_ascii s;
     toUpper := fun _ s => map_string upper_ascii s;
     transliterate := fun _ s => s |}.

(** One byte that no UTF-8 text holds. *)
Definition invalid_input : string := String (ascii_of_nat 255) EmptyString.

End Examples.

(** ** Example configurations *)

Module ExampleData.
Import Int Text TextStream Examples.

Local Open Scope string_scope.

(** A structured configuration with one explicit stopword. *)
Definition en_config : string :=
  @json_write compact_json
    (JObject [("locale", JString "en"); ("stopwords", JArray [JString "of"])]).

(** A configuration with two explicit stopwords and a custom path. *)
Definition two_stopwords : options_t :=
  {| case_convert := UPPER;
     explicit_stopwords := ["of"; "the"];
     explicit_stopwords_set := false;
     locale := "en";
     stopwordsPath := "";
     no_accent := true;
     no_stem := false |}.

(** The document written for [two_stopwords]. *)
Definition two_stopwords_document : json :=
  JObject [("locale", JString "en"); ("caseConvert", JString "upper");
           ("stopwords", JArray [JString "of"; JString "the"]);
           ("noAccent", JBool true); ("noStem", JBool false);
           ("stopwordsPath", JString "")].

(** A cache that the structured constructor has already filled. *)
Definition cache_after_json : gmap string cached_options_t :=
  (@make_json back_container one_file_system compact_json ∅ en_config).1.2.

(** The structured output of the default configuration for the locale
    [en]. *)
Definition en_definition : string :=
  @json_write compact_json
    (JObject [("locale", JString "en"); ("caseConvert", JString "none");
              ("noAccent", JBool false); ("noStem", JBool false)]).

(** The cache after the text-format constructor was given that very
    string (as a locale name). *)
Definition cache_after_text : gmap string cached_options_t :=
  (@make_text back_container one_file_system ∅ en_definition).1.2.


(** A configuration with one explicit stopword and a custom path. *)
Definition one_stopword : options_t :=
  {| case_convert := UPPER;
     explicit_stopwords := ["of"];
     explicit_stopwords_set := false;
     locale := "en";
     stopwordsPath := "";
     no_accent := true;
     no_stem := false |}.

(** The document written for [one_stopword]. *)
Definition one_stopword_document : json :=
  JObject [("locale", JString "en"); ("caseConvert", JString "upper");
           ("stopwords", JArray [JString "of"]);
           ("noAccent", JBool true); ("noStem", JBool false);
           ("stopwordsPath", JString "")].

(** The cache after the structured constructor was given that document:
    it holds the entry compiled from it. *)
Definition cache_after_one_stopword : gmap string cached_options_t :=
  (@make_json back_container one_file_system compact_json ∅
     (@json_write compact_json one_stopword_document)).1.2.

(** An analyzer for English that lower-cases and drops the word the. *)
Definition english : analyzer :=
  mk_analyzer (set_case_convert (set_locale default_options "en") LOWER)
              ["the"].

(** [two_stopwords] without its custom path. *)
Definition two_stopwords_only : options_t :=
  set_stopwordsPath two_stopwords (stopwordsPath default_options).

(** An analyzer for English that lower-cases and strips accents; its one
    stopword is the word the as the tracing platform transforms it:
    normalized, lower-cased and transliterated. *)
Definition traced_english : analyzer :=
  mk_analyzer
    (set_no_accent (set_case_convert (set_locale default_options "en") LOWER)
                   true)
    ["thenlt"].

End ExampleData.

(** ** The delimited analyzer: its configuration codec *)

Module DelimitedCodec.
Import Int Delimited Text.

Local Open Scope string_scope.

Definition delimiterParamName := "delimiter".

(** [irs::ref_cast]: the same buffer read as bytes or as characters. *)
Definition ref_cast_byte (s : string) : bytes := list_byte_of_string s.
Definition ref_cast_char (b : bytes) : string := string_of_list_byte b.

(** [delim_buf_]: the copy that the constructor keeps of a non-null
    delimiter; it stays empty for the null one. *)
Definition delim_buf_ (s : delimited_token_stream) : bytes :=
  contents (delim_ s).

(** [make_text(args)]: the constructor on the argument read as bytes;
    [delimited_token_stream::make] is the same function. *)
Definition make_text (args : option string) : delimited_token_stream :=
  make (ref_cast_byte <$> args).

(** [make_json(args)]; [None] is [nullptr]. The string handed to [make]
    is the C string of [GetString()]. *)
Definition make_json `{JsonCodec} (args : string)
    : option delimited_token_stream :=
  match json_parse args with
  | None => None
  | Some (JString s) => Some (make_text (Some (c_str s)))
  | Some (JObject members) =>
      match member delimiterParamName members with
      | Some (JString s) => Some (make_text (Some (c_str s)))
      | _ => None (* fall through *)
      end
  | Some _ => None
  end.

(** [make_json_config]: the document that is written out. *)
Definition config_document (delimiter : bytes) : json :=
  JObject [(delimiterParamName, JString (ref_cast_char delimiter))].

Definition make_json_config `{JsonCodec} (delimiter : bytes) : string :=
  json_write (config_document delimiter).

Definition make_text_config (delimiter : bytes) : string :=
  ref_cast_char delimiter.

(** [delimited_token_stream::to_string(format, definition)] *)
Definition to_string `{JsonCodec} (format : text_format)
    (s : delimited_token_stream) : option string :=
  match format with
  | format_json => Some (make_json_config (delim_buf_ s))
  | format_text => Some (make_text_config (delim_buf_ s))
  | format_other => None
  end.

End DelimitedCodec.

(** ** The delimited analyzer: fields written in quoted form *)

Module DelimitedQuoting.
Import Int Delimited.

(** Every quote of a field doubled. *)
Definition escape (field : bytes) : bytes :=
  flat_map (fun c => if is_quote c then [x22; x22] else [c]) field.

(** A field in quoted form: its quotes doubled, the whole between two
    quotes. *)
Definition quote_field (field : bytes) : bytes :=
  x22 :: escape field ++ [x22].

(** The field whose quoted form ends with [body], read off [body]: its
    bytes up to a final quote, every quote before that one being doubled;
    [None] when [body] is not of that form. *)
Fixpoint unescape (body : bytes) : option bytes :=
  match body with
  | [] => None
  | c :: rest =>
      if is_quote c then
        match rest with
        | [] => Some []
        | c2 :: rest2 =>
            if is_quote c2 then cons c2 <$> unescape rest2 else None
        end
      else cons c <$> unescape rest
  end.

(** A delimiter that a quote cannot be taken for: it is not empty and
    does not open with a quote. *)
Definition plain_delimiter (d : bytes) : Prop :=
  match d with [] => False | c :: _ => is_quote c = false end.

(** The delimiter occurs in [l] at index [j]. *)
Definition occurs_at (d : bytes) (j : nat) (l : bytes) : Prop :=
  (j + length d <= length l)%nat /\ firstn (length d) (skipn j l) = d.

(** The offsets of [t] are the byte span of its raw field in [input]. *)
Definition located (input : bytes) (t : token) : Prop :=
  0 <= tok_start t
  /\ tok_end t = tok_start t + Z.of_nat (length (tok_payload t))
  /\ slice input (Z.to_nat (tok_start t)) (length (tok_payload t))
     = tok_payload t.

(** The tokens of an input of single bytes split on nothing. *)
Fixpoint single_bytes (pos : Z) (input : bytes) : list token :=
  match input with
  | [] => []
  | c :: rest => mk_token [c] [c] pos (pos + 1) :: single_bytes (pos + 1) rest
  end.

End DelimitedQuoting.

(** ** The delimited analyzer: what a rebuilt analyzer keeps *)

Module DelimitedCodecSpec.
Import Int Delimited DelimitedSpec.

(** A delimiter as a C string reads it: up to its first byte [0]. *)
Fixpoint cut_at_zero (d : bytes) : bytes :=
  match d with
  | [] => []
  | b :: d' => if Byte.eqb b x00 then [] else b :: cut_at_zero d'
  end.

(** Two analyzers that read the same tokens from every input. *)
Definition same_tokens (s1 s2 : delimited_token_stream) : Prop :=
  forall input : bytes_ref,
    all_tokens (snd (reset s1 input)) = all_tokens (snd (reset s2 input)).

End DelimitedCodecSpec.

(** ** The linguistic analyzer: where its stopwords come from *)

Module StopwordSpec.
Import Int Text.

(** The directory that [build_stopwords] loads, if it loads one: the
    custom path when one is set, the default location ([None]) when
    there is neither a path nor an explicit list. *)
Definition stopword_source (o : options_t) : option (option string) :=
  if path_is_set (stopwordsPath o) then Some (Some (stopwordsPath o))
  else if negb (explicit_stopwords_set o) && empty (explicit_stopwords o)
       then Some None
       else None.

(** The words listed by the files of a language directory, [None] when
    the directory cannot be read. *)
Definition directory_words `{FileSystem} (path : option string)
    (locale : string) : option (list string) :=
  let root := match path with
              | Some p => Some p
              | None => getenv_stopword_path
              end in
  (fun files => concat (map file_words files))
    <$> read_directory root (language_of locale).

(** No character of [w] is a whitespace. *)
Fixpoint no_whitespace (w : string) : bool :=
  match w with
  | EmptyString => true
  | String c rest => negb (isspace c) && no_whitespace rest
  end.

(** The line is empty or opens with a whitespace. *)
Definition blank_start (line : string) : bool :=
  match line with
  | EmptyString => true
  | String c _ => isspace c
  end.

End StopwordSpec.

(** ** The linguistic analyzer: a stream read to its end *)

Module StreamRun.
Import Int Text TextStream StreamSpec.

Section Run.
Context `{Linguistic}.

(** What a consumer reads after a successful [next]: the term and the
    offsets. *)
Definition token : Type := option string * Z * Z.

(** The consumer loop [while (stream.next()) { read attributes }], run
    for at most [fuel] calls of [next]; [None] where a call is
    undefined. *)
Fixpoint tokens (fuel : nat) (st : state_t) : option (list token) :=
  match fuel with
  | O => Some []
  | S fuel' =>
      match next st with
      | None => None
      | Some (false, _) => Some []
      | Some (true, st') =>
          cons (term_ st', offs_start st', offs_end st') <$> tokens fuel' st'
      end
  end.

(** The tokens of a text as the pipeline determines them: one for each
    span with linguistic content that is not discarded, in the order of
    the boundaries. *)
Fixpoint spec_tokens (a : analyzer) (text : UnicodeString) (start : Z)
    (boundaries : list (Z * Z)) : list token :=
  match boundaries with
  | [] => []
  | (end', status) :: rest =>
      if status =? UBRK_WORD_NONE then spec_tokens a text end' rest
      else
        match spec_term a (tempSubString text start (end' - start)) with
        | None => spec_tokens a text end' rest
        | Some term => (Some term, start, end') :: spec_tokens a text end' rest
        end
  end.

End Run.

End StreamRun.

(** ** The stemming analyzer *)

Module Stemming.
Import Int Text TextStream.

Section Stream.
Context `{Linguistic}.

(** The fields of [text_token_stemming_stream] that [reset] and [next]
    read or write. The buffer [term_buf_] is cleared by every [reset] and
    read by nothing else, so only the term that points into it is kept. *)
Record text_token_stemming_stream := mk_stemming {
  locale_ : std_locale;
  stemmer_ : option sb_stemmer;
  term_ : option string;
  term_eof_ : bool;
  offset_start : Z;
  offset_end : Z;
  payload_ : option string;
}.

(** The constructor. *)
Definition make (locale : string) : text_token_stemming_stream :=
  {| locale_ := locale_of_name locale; stemmer_ := None; term_ := None;
     term_eof_ := true; offset_start := 0; offset_end := 0;
     payload_ := None |}.

(** [text_token_stemming_stream::next] *)
Definition next (s : text_token_stemming_stream)
    : bool * text_token_stemming_stream :=
  if term_eof_ s then (false, s)
  else (true,
        {| locale_ := locale_ s; stemmer_ := stemmer_ s; term_ := term_ s;
           term_eof_ := true; offset_start := offset_start s;
           offset_end := offset_end s; payload_ := payload_ s |}).

(** The buffer handed to the stemmer: cut to [INT_MAX] bytes. *)
Definition truncate (term_buf : string) : string :=
  if int32_max <? Z.of_nat (String.length term_buf)
  then substring 0 (Z.to_nat int32_max) term_buf
  else term_buf.

(** [text_token_stemming_stream::reset] *)
Definition reset (s : text_token_stemming_stream) (data : string)
    : bool * text_token_stemming_stream :=
  let stemmer :=
    match stemmer_ s with
    | Some st => Some st
    | None => sb_stemmer_new (language (locale_ s))
    end in
  match append_internal (locale_ s) data with
  | None =>
      (false,
       {| locale_ := locale_ s; stemmer_ := stemmer; term_ := None;
          term_eof_ := true; offset_start := offset_start s;
          offset_end := offset_end s; payload_ := payload_ s |})
  | Some term_buf =>
      let emit term :=
        (true,
         {| locale_ := locale_ s; stemmer_ := stemmer; term_ := Some term;
            term_eof_ := false; offset_start := 0;
            offset_end := wrap32 (Z.of_nat (String.length data));
            payload_ := Some data |}) in
      match stemmer with
      | Some st =>
          let term_buf := truncate term_buf in
          match sb_stemmer_stem st term_buf
                  (to_int (Z.of_nat (String.length term_buf))) with
          | Some value => emit value
          | None => emit term_buf (* the value of the unstemmed token *)
          end
      | None => emit term_buf
      end
  end.

(** [n] successive calls of [next]. *)
Fixpoint next_n (n : nat) (s : text_token_stemming_stream)
    : text_token_stemming_stream :=
  match n with
  | O => s
  | S n' => next_n n' (snd (next s))
  end.

End Stream.

End Stemming.

(** ** The stemming analyzer: the life of a stream *)

Module StemmingSpec.
Import Int Text TextStream Stemming.

Section Life.
Context `{Linguistic}.

(** The states a stream built for [locale] goes through. *)
Inductive reachable (locale : string) : text_token_stemming_stream -> Prop :=
| reach_make : reachable locale (make locale)
| reach_reset s data :
    reachable locale s -> reachable locale (snd (reset s data))
| reach_next s :
    reachable locale s -> reachable locale (snd (next s)).

End Life.

End StemmingSpec.

(** ** The dynamic bitset *)

Module Bitset.
Import Int.

(** [bit_utils.hpp] and [math_utils.hpp] are not among the sources: the
    helpers [set_bit], [unset_bit] and [check_bit] on a word are taken as
    parameters, their contract as a hypothesis where a theorem needs
    it. *)
Class BitUtils := {
  (** [set_bit(word, bit)]: the word afterwards *)
  set_bit : Z -> Z -> Z;
  (** [unset_bit(word, bit)]: the word afterwards *)
  unset_bit : Z -> Z -> Z;
  check_bit : Z -> Z -> bool;
}.

(** [bits_required<word_t>()], [word_t] being the 64-bit [size_t]. *)
Definition bits_required : Z := 64.

(** The bit index within a word for the offset [i] in bits. *)
Definition bit (i : Z) : Z := i mod bits_required.

(** The word index for the offset [i] in bits. *)
Definition word (i : Z) : Z := i / bits_required.

(** The offset in bits of the word of index [i]. *)
Definition bit_offset (i : Z) : Z := wrap64 (i * bits_required).

(** The table [EXTRA] of [bit_to_words], indexed by a comparison. *)
Definition EXTRA (index : bool) : Z := if index then 0 else 1.

Definition bit_to_words (bits : Z) : Z :=
  wrap64 (bits / bits_required + EXTRA (0 =? bits mod bits_required)).

(** [dynamic_bitset]: the words array is the whole allocation, [None]
    being the null pointer. *)
Record dynamic_bitset := mk_bitset {
  bits_ : Z;
  words_ : Z;
  data_ : option (list Z);
}.

(** The default constructor. *)
Definition empty_bitset : dynamic_bitset :=
  {| bits_ := 0; words_ := 0; data_ := None |}.

Definition size (b : dynamic_bitset) : Z := bits_ b.

Definition capacity (b : dynamic_bitset) : Z :=
  wrap64 (bits_required * words_ b).

Definition words (b : dynamic_bitset) : Z := words_ b.

(** The words from [begin()] to [end()]; [None] where that range leaves
    the allocation. *)
Definition range (b : dynamic_bitset) : option (list Z) :=
  match data_ b with
  | None => if words_ b =? 0 then Some [] else None
  | Some d =>
      if Z.of_nat (length d) <? words_ b then None
      else Some (firstn (Z.to_nat (words_ b)) d)
  end.

(** [clear]: the words in use are zeroed; [None] where [memset] would
    write past the allocation. *)
Definition clear (b : dynamic_bitset) : option dynamic_bitset :=
  match data_ b with
  | None => Some b
  | Some d =>
      if Z.of_nat (length d) <? words_ b then None
      else Some {| bits_ := bits_ b; words_ := words_ b;
                   data_ := Some (replicate (Z.to_nat (words_ b)) 0
                                  ++ skipn (Z.to_nat (words_ b)) d) |}
  end.

(** [allocate_unique<word_t[]>(alloc, words, allocate_only)]: [words]
    words that are not initialised; [fresh] is what they happen to
    hold. *)
Definition allocate (words : Z) (fresh : list Z) : list Z :=
  firstn (Z.to_nat words) (fresh ++ replicate (Z.to_nat words) 0).

(** [reset(bits)] *)
Definition reset (b : dynamic_bitset) (bits : Z) (fresh : list Z)
    : option dynamic_bitset :=
  let words := bit_to_words bits in
  clear {| bits_ := bits; words_ := words;
           data_ := if words_ b <? words then Some (allocate words fresh)
                    else data_ b |}.

(** [data_[word(i)]]; [None] for an access outside the allocation. *)
Definition at_word (b : dynamic_bitset) (i : Z) : option Z :=
  d ← data_ b; d !! Z.to_nat (word i).

Definition update_word (b : dynamic_bitset) (i : Z) (f : Z -> Z)
    : option dynamic_bitset :=
  d ← data_ b;
  w ← d !! Z.to_nat (word i);
  Some {| bits_ := bits_ b; words_ := words_ b;
          data_ := Some (<[Z.to_nat (word i) := f w]> d) |}.

Definition set `{BitUtils} (b : dynamic_bitset) (i : Z)
    : option dynamic_bitset :=
  update_word b i (fun w => set_bit w (bit i)).

Definition unset `{BitUtils} (b : dynamic_bitset) (i : Z)
    : option dynamic_bitset :=
  update_word b i (fun w => unset_bit w (bit i)).

Definition test `{BitUtils} (b : dynamic_bitset) (i : Z) : option bool :=
  w ← at_word b i; Some (check_bit w (bit i)).

Definition any (b : dynamic_bitset) : option bool :=
  existsb (fun w => negb (w =? 0)) <$> range b.

Definition none (b : dynamic_bitset) : option bool := negb <$> any b.

(** The complement of a word. *)
Definition lnot64 (w : Z) : Z := wrap64 (Z.lnot w).

(** [sanitize]: the bits of the last word beyond [bits_] are cleared. *)
Definition sanitize (b : dynamic_bitset) : option dynamic_bitset :=
  let last_word_bits := bits_ b mod bits_required in
  if last_word_bits =? 0 then Some b (* no words or last word has all bits set *)
  else
    let mask :=
      lnot64 (wrap64 (Z.shiftl (lnot64 0) (bits_ b mod bits_required))) in
    d ← data_ b;
    w ← d !! Z.to_nat (wrap64 (words_ b - 1));
    Some {| bits_ := bits_ b; words_ := words_ b;
            data_ := Some (<[Z.to_nat (wrap64 (words_ b - 1))
                             := Z.land w mask]> d) |}.

(** [dynamic_bitset(bits)] *)
Definition make (bits : Z) (fresh : list Z) : option dynamic_bitset :=
  reset empty_bitset bits fresh.

(** [sizeof(word_t)] *)
Definition sizeof_word : Z := 8.

(** The bytes of a word in memory, on the little-endian targets of the
    engine. *)
Definition word_bytes (w : Z) : list Z :=
  map (fun k => (w / 2 ^ (8 * Z.of_nat k)) mod 256) (seq 0 8).

(** The [n] bytes that [memcmp] reads at a words array; [None] where it
    reads past the allocation. *)
Definition read_bytes (d : list Z) (n : Z) : option (list Z) :=
  if sizeof_word * Z.of_nat (length d) <? n then None
  else Some (firstn (Z.to_nat n) (flat_map word_bytes d)).

(** [operator==]: the sizes are compared, then [size()] bytes of the two
    arrays; passing [nullptr] to [memcmp] is undefined behaviour. *)
Definition equal (a b : dynamic_bitset) : option bool :=
  if negb (size a =? size b) then Some false
  else
    da ← data_ a;
    db ← data_ b;
    ba ← read_bytes da (size a);
    bb ← read_bytes db (size a);
    Some (bool_decide (ba = bb)).

End Bitset.

(** ** The dynamic bitset: its invariant *)

Module BitsetSpec.
Import Int Bitset.

(** The contract of the bit helpers on the bits of a word. *)
Record bit_utils_laws `{BitUtils} : Prop := {
  check_set : forall w i j,
    0 <= i < bits_required -> 0 <= j < bits_required ->
    check_bit (set_bit w i) j = (i =? j) || check_bit w j;
  check_unset : forall w i j,
    0 <= i < bits_required -> 0 <= j < bits_required ->
    check_bit (unset_bit w i) j = negb (i =? j) && check_bit w j;
}.

(** The words in use lie within the allocation; without an allocation
    there is none. *)
Definition allocated (b : dynamic_bitset) : Prop :=
  0 <= words_ b
  /\ match data_ b with
     | Some d => words_ b <= Z.of_nat (length d)
     | None => words_ b = 0
     end.

(** The words in use are the fewest that hold [bits_] bits. *)
Definition fitted (b : dynamic_bitset) : Prop :=
  0 <= bits_ b
  /\ bits_required * (words_ b - 1) < bits_ b <= bits_required * words_ b.

(** The bit of index [i] as the words array stores it. *)
Definition stored_bit (b : dynamic_bitset) (i : Z) : option bool :=
  (fun w => Z.testbit w (bit i)) <$> at_word b i.

(** The bit helpers as the bit operations of the integers. *)
Definition z_bit_utils : BitUtils :=
  {| set_bit := Z.setbit; unset_bit := Z.clearbit; check_bit := Z.testbit |}.

End BitsetSpec.


(** ** The linguistic analyzer: when the word iterator exists *)

Module StreamLifeSpec.
Import Int Text TextStream StreamSpec.

Section Life.
Context `{Linguistic}.

(** What [reset] needs before it creates the word iterator: a locale
    that is not bogus, the normalizer, the transliterator where accents
    are to be stripped, and the word instance of the locale. The input
    plays no part in it. *)
Definition can_iterate (a : analyzer) : bool :=
  negb (isBogus (configured_icu_locale (a_options a)))
  && match getNFCInstance with Some _ => true | None => false end
  && (negb (no_accent (a_options a))
      || match createTransliterator with Some _ => true | None => false end)
  && createWordInstance (configured_icu_locale (a_options a)).

End Life.

End StreamLifeSpec.


(* ===================================================================== *)
(** * Part II: properties                                                 *)
(* ===================================================================== *)

(** ** Wrap-around arithmetic *)

Module IntFacts.
Import Int.

Lemma wrap32_small z : 0 <= z <= uint32_max -> wrap32 z = z.
Proof. unfold wrap32, uint32_max. intros H. apply Z.mod_small. lia. Qed.

Lemma wrap64_small z : 0 <= z < 2 ^ 64 -> wrap64 z = z.
Proof. unfold wrap64. intros H. now apply Z.mod_small. Qed.

Lemma wrap32_range z : 0 <= wrap32 z <= uint32_max.
Proof.
  unfold wrap32, uint32_max.
  pose proof (Z.mod_pos_bound z (2 ^ 32) ltac:(lia)). lia.
Qed.

Lemma wrap64_le z : 0 <= z -> 0 <= wrap64 z <= z.
Proof.
  unfold wrap64. intros H. split.
  - apply Z.mod_pos_bound. lia.
  - apply Z.mod_le; lia.
Qed.

(** The counterpart computations of [reset] and [next]: whatever the
    delimiter length, the negated length plus the length is zero. *)
Lemma wrap32_neg_cancel a : wrap32 (wrap32 (0 - wrap32 a) + wrap32 a) = 0.
Proof.
  unfold wrap32.
  rewrite Zplus_mod_idemp_l.
  replace (0 - a mod 2 ^ 32 + a mod 2 ^ 32) with 0 by lia.
  reflexivity.
Qed.

End IntFacts.

(** ** The scanner and the cursor of the delimited analyzer *)

Module DelimitedFacts.
Import Int IntFacts Delimited DelimitedSpec.

Lemma memcmp_eq_prefix d : forall p,
  memcmp_eq p d = true -> firstn (length d) p = d.
Proof.
  induction d as [|c d IH]; intros [|b p]; cbn; try easy.
  intros [Hb Hp]%andb_true_iff.
  apply byte_dec_bl in Hb. subst b. f_equal. now apply IH.
Qed.

Lemma memcmp_eq_app d : forall rest, memcmp_eq (d ++ rest) d = true.
Proof.
  induction d as [|c d IH]; intros rest; cbn; [reflexivity|].
  rewrite IH, (byte_dec_lb (eq_refl c)). reflexivity.
Qed.

(** A position returned by the scanning loop is a real delimiter match
    inside the data, and never the empty match at the very start. *)
Lemma find_delimiter_loop_Some d : forall rest i q k,
  find_delimiter_loop d i q rest = Some k ->
  exists j : nat,
    k = (i + j)%nat /\ (j < length rest)%nat
    /\ (j + length d <= length rest)%nat
    /\ firstn (length d) (skipn j rest) = d
    /\ (1 <= k + length d)%nat.
Proof.
  induction rest as [|c rest IH]; intros i q k; cbn [find_delimiter_loop].
  - discriminate.
  - destruct q.
    + intros (j & -> & Hj & Hd & Hm & Hz)%IH.
      exists (S j). cbn [length skipn]. repeat split; try lia. exact Hm.
    + destruct (length (c :: rest) <? length d)%nat eqn:Hlen; [discriminate|].
      apply Nat.ltb_ge in Hlen.
      destruct (memcmp_eq (c :: rest) d
                && (negb (i =? 0)%nat || negb (length d =? 0)%nat)) eqn:Hm.
      * intros [= <-]. apply andb_true_iff in Hm as [Hm Hz].
        exists 0%nat. cbn [skipn]. repeat split; try lia.
        -- cbn [length]. lia.
        -- now apply memcmp_eq_prefix.
        -- apply orb_true_iff in Hz as [Hz|Hz];
             apply negb_true_iff, Nat.eqb_neq in Hz; lia.
      * intros (j & -> & Hj & Hd & Hm' & Hz)%IH.
        exists (S j). cbn [length skipn]. repeat split; try lia. exact Hm'.
Qed.

(** [find_delimiter] returns either the size of the data (no match) or
    the position of a delimiter match that lies within the data. *)
Lemma find_delimiter_cases data delim :
  find_delimiter (Some data) delim = length data
  \/ exists d, delim = Some d
       /\ (find_delimiter (Some data) delim < length data)%nat
       /\ (find_delimiter (Some data) delim + length d <= length data)%nat
       /\ firstn (length d) (skipn (find_delimiter (Some data) delim) data) = d
       /\ (1 <= find_delimiter (Some data) delim + length d)%nat.
Proof.
  unfold find_delimiter, size, contents.
  destruct delim as [d|]; [|now left].
  destruct (find_delimiter_loop d 0 false data) as [k|] eqn:Hk; [|now left].
  right. exists d.
  apply find_delimiter_loop_Some in Hk as (j & -> & Hj & Hd & Hm & Hz).
  cbn [Nat.add]. repeat split; assumption.
Qed.

Lemma find_delimiter_le data delim :
  (find_delimiter (Some data) delim <= length data)%nat.
Proof.
  destruct (find_delimiter_cases data delim) as [->|(d & _ & H & _)]; lia.
Qed.

(** *** One step of [next] *)

Lemma next_null s : data_ s = None -> next s = (false, s).
Proof. unfold next. now intros ->. Qed.

(** The guard of [next]: the token is dropped when its end does not fit. *)
Lemma next_overflow s data :
  data_ s = Some data ->
  uint32_max < next_start s + Z.of_nat (find_delimiter (Some data) (delim_ s)) < 2 ^ 64 ->
  next s = (false, s).
Proof.
  unfold next, next_start. intros Hd H. rewrite Hd.
  rewrite wrap64_small by (pose proof (wrap32_range (end_ (offset_ s) + wrap32 (Z.of_nat (size (delim_ s))))); lia).
  destruct (Z.ltb_spec uint32_max
    (wrap32 (end_ (offset_ s) + wrap32 (Z.of_nat (size (delim_ s))))
     + Z.of_nat (find_delimiter (Some data) (delim_ s)))); [reflexivity|lia].
Qed.

(** A token whose end fits is emitted; this is the state it leaves. *)
Lemma next_fits s data :
  data_ s = Some data ->
  next_start s + Z.of_nat (find_delimiter (Some data) (delim_ s)) <= uint32_max ->
  let sz := find_delimiter (Some data) (delim_ s) in
  next s =
    (true,
     {| delim_ := delim_ s;
        data_ := if (length data <=? sz)%nat then None
                 else Some (skipn (Z.to_nat (Z.max 1 (wrap64 (Z.of_nat sz + Z.of_nat (size (delim_ s)))))) data);
        offset_ := mk_offset (next_start s) (next_start s + Z.of_nat sz);
        payload_ := Some (firstn sz data);
        term_ := if null (delim_ s) then Some (firstn sz data)
                 else Some (eval_term (firstn sz data)) |}).
Proof.
  intros Hd H. cbv zeta. unfold next_start in *.
  set (sz := find_delimiter (Some data) (delim_ s)) in *.
  pose proof (wrap32_range (end_ (offset_ s) + wrap32 (Z.of_nat (size (delim_ s))))) as Hr.
  set (p := wrap32 (end_ (offset_ s) + wrap32 (Z.of_nat (size (delim_ s))))) in *.
  unfold next. rewrite Hd. fold sz. fold p.
  unfold uint32_max in *.
  rewrite wrap64_small by lia.
  destruct (Z.ltb_spec (2 ^ 32 - 1) (p + Z.of_nat sz)) as [Hlt|Hge]; [lia|].
  rewrite (wrap32_small (p + Z.of_nat sz)) by (unfold uint32_max; lia).
  reflexivity.
Qed.

Lemma next_false_stable s s' : next s = (false, s') -> s' = s.
Proof.
  unfold next. destruct (data_ s); [|now intros [= <-]].
  destruct (uint32_max <? _); [now intros [= <-]|discriminate].
Qed.

(** Every successful call strictly shrinks what is left to scan. *)
Lemma next_remaining s s' :
  next s = (true, s') -> (remaining s' < remaining s)%nat.
Proof.
  unfold next. destruct (data_ s) as [data|] eqn:Hd; [|discriminate].
  destruct (uint32_max <? _); [discriminate|].
  intros [= <-]. unfold remaining. cbn [data_]. rewrite Hd.
  destruct (length data <=? _)%nat eqn:Hle; [lia|].
  apply Nat.leb_gt in Hle. rewrite length_skipn. lia.
Qed.

Lemma tokens_null s fuel : data_ s = None -> tokens fuel s = [].
Proof.
  intros H. destruct fuel; [reflexivity|].
  cbn [tokens]. now rewrite (next_null s H).
Qed.

Lemma tokens_dropped s fuel : fst (next s) = false -> tokens fuel s = [].
Proof.
  intros H. destruct fuel; [reflexivity|].
  cbn [tokens]. destruct (next s) as [[] ?]; [discriminate|reflexivity].
Qed.

(** [remaining s] calls of [next] are enough fuel: more calls read no
    further token. *)
Lemma tokens_fuel : forall fuel s k,
  (remaining s <= fuel)%nat -> tokens (fuel + k) s = tokens fuel s.
Proof.
  induction fuel as [|fuel IH]; intros s k Hrem.
  - unfold remaining in Hrem. destruct (data_ s) eqn:Hd; [lia|].
    now rewrite !tokens_null.
  - cbn [Nat.add tokens].
    destruct (next s) as [[] s'] eqn:Hn; [|reflexivity].
    apply next_remaining in Hn. f_equal. apply IH. lia.
Qed.

Lemma next_n_stuck s : fst (next s) = false -> forall m, next_n m s = s.
Proof.
  intros H m. induction m as [|m IH]; [reflexivity|].
  cbn [next_n]. destruct (next s) as [b s'] eqn:Hn. cbn in H. subst b.
  apply next_false_stable in Hn. subst s'. exact IH.
Qed.

(** After [remaining s] calls, every further call returns [false]. *)
Lemma next_n_exhausted : forall n s k,
  (remaining s <= n)%nat -> fst (next (next_n (n + k) s)) = false.
Proof.
  induction n as [|n IH]; intros s k Hrem.
  - unfold remaining in Hrem. destruct (data_ s) eqn:Hd; [lia|].
    assert (Hf : fst (next s) = false) by now rewrite (next_null s Hd).
    now rewrite next_n_stuck.
  - cbn [Nat.add next_n].
    destruct (next s) as [[] s'] eqn:Hn; cbn [snd].
    + apply next_remaining in Hn. apply IH. lia.
    + pose proof (next_false_stable _ _ Hn) as ->.
      rewrite next_n_stuck; now rewrite Hn.
Qed.

Lemma eval_term_unquoted raw : unquoted raw -> eval_term raw = raw.
Proof.
  destruct raw as [|c raw]; [reflexivity|].
  cbn. now intros ->.
Qed.

Lemma split_at_match (data d : bytes) (sz : nat) :
  firstn (length d) (skipn sz data) = d ->
  firstn sz data ++ d ++ skipn (sz + length d) data = data.
Proof.
  intros H. rewrite Nat.add_comm, <- skipn_skipn.
  rewrite <- H at 1. now rewrite !firstn_skipn.
Qed.

(** While no offset leaves the 32-bit range, the stream emits every
    field: the raw fields re-joined with the delimiter are the data,
    every token sits at its byte position, and its term is the
    unwrapped raw field. *)
Lemma tokens_exact : forall fuel s data,
  data_ s = Some data ->
  next_start s + Z.of_nat (length data) <= uint32_max ->
  (length data < fuel)%nat ->
  exists t l,
    tokens fuel s = t :: l
    /\ join (contents (delim_ s)) (map tok_payload (t :: l)) = data
    /\ placed (Z.of_nat (size (delim_ s))) (next_start s) (t :: l)
    /\ Forall (fun t => tok_term t = term_of (delim_ s) (tok_payload t))
              (t :: l).
Proof.
  induction fuel as [|fuel IH]; intros s data Hd Hfit Hfuel; [lia|].
  pose proof (find_delimiter_le data (delim_ s)) as Hle.
  pose proof (wrap32_range (end_ (offset_ s) + wrap32 (Z.of_nat (size (delim_ s))))) as Hr.
  fold (next_start s) in Hr.
  cbn [tokens]. rewrite (next_fits s data Hd) by lia.
  set (sz := find_delimiter (Some data) (delim_ s)) in *.
  destruct (find_delimiter_cases data (delim_ s))
    as [Hend|(d & Hdel & Hlt & Hin & Hm & Hpos)]; fold sz in Hend || fold sz in Hlt, Hin, Hm, Hpos.
  - (* the token consumes the remainder *)
    rewrite Hend, Nat.leb_refl. rewrite tokens_null by reflexivity.
    eexists _, []. split; [reflexivity|]. unfold current; cbn.
    rewrite firstn_all. repeat split; try lia.
    constructor; [|constructor].
    cbn. unfold term_of. now destruct (null (delim_ s)).
  - (* a delimiter match: the scan resumes behind the delimiter *)
    assert (Hsize : size (delim_ s) = length d) by now rewrite Hdel.
    destruct (Nat.leb_spec (length data) sz) as [?|_]; [lia|].
    rewrite Hsize.
    rewrite wrap64_small by (unfold uint32_max in *; lia).
    replace (Z.to_nat (Z.max 1 (Z.of_nat sz + Z.of_nat (length d))))
      with (sz + length d)%nat by lia.
    match goal with |- context [tokens fuel ?s1] => set (s' := s1) end.
    assert (Hstart' : next_start s'
                      = next_start s + Z.of_nat sz + Z.of_nat (length d)).
    { unfold next_start at 1. subst s'. cbn [offset_ end_ delim_].
      rewrite Hsize.
      rewrite (wrap32_small (Z.of_nat (length d))) by lia.
      apply wrap32_small. lia. }
    destruct (IH s' (skipn (sz + length d) data))
      as (t' & l' & Htok & Hjoin & Hplaced & Hterms).
    + reflexivity.
    + rewrite Hstart', length_skipn. lia.
    + rewrite length_skipn. lia.
    + rewrite Htok. eexists _, (t' :: l'). split; [reflexivity|].
      replace (delim_ s') with (delim_ s) in * by reflexivity.
      split; [|split].
      * cbn [map join] in *. unfold current at 1; cbn [tok_payload payload_ contents].
        rewrite Hjoin, Hdel. cbn [contents]. now apply split_at_match.
      * rewrite Hstart' in Hplaced.
        cbn [placed] in *. unfold current at 1 2 3 4; cbn.
        rewrite length_firstn, Nat.min_l by lia.
        rewrite ?Hsize in *. repeat split; apply Hplaced.
      * constructor; [|exact Hterms].
        unfold current, term_of; cbn. now destruct (null (delim_ s)).
Qed.

End DelimitedFacts.

(** ** The delimited analyzer: statements about [reset] and [next] *)

Module DelimitedClaims.
Import Int IntFacts Delimited DelimitedSpec DelimitedFacts.

(** C10: [reset] returns [true] for every input (null, empty or not) and
    every configured delimiter (null, empty or not); it only rebinds the
    input and re-arms the offset cursor. *)
Theorem reset_never_fails (s : delimited_token_stream) (input : bytes_ref) :
  fst (reset s input) = true
  /\ data_ (snd (reset s input)) = input
  /\ delim_ (snd (reset s input)) = delim_ s.
Proof. repeat split. Qed.

(** C2: after [reset], the offset end is the 32-bit two's complement of
    the delimiter length, so that the start offset computed by the first
    [next] is [0] for every input and every delimiter; the first call
    succeeds exactly when the input is not null and its first field fits
    in 32 bits, and the token it then produces starts at [0]. *)
Theorem first_token_starts_at_zero
    (s : delimited_token_stream) (input : bytes_ref) :
  let s0 := snd (reset s input) in
  let dlen := Z.of_nat (size (delim_ s)) in
  end_ (offset_ s0) = wrap32 (0 - wrap32 dlen)
  /\ wrap32 (end_ (offset_ s0) + wrap32 dlen) = 0
  /\ fst (next s0)
     = negb (null input)
       && (wrap64 (Z.of_nat (find_delimiter input (delim_ s))) <=? uint32_max)
  /\ match next s0 with
     | (true, s1) => start (offset_ s1) = 0
     | (false, s1) => s1 = s0
     end.
Proof.
  cbv zeta. unfold reset, next. cbn [snd data_ delim_ offset_ end_ start].
  rewrite wrap32_neg_cancel. cbn [Z.add].
  repeat split.
  - destruct input as [data|]; [|reflexivity]. cbn [null negb andb].
    rewrite Z.leb_antisym. now destruct (uint32_max <? _).
  - destruct input as [data|]; [|reflexivity].
    now destruct (uint32_max <? _).
Qed.

(** C6: with a delimiter configured, the term of a matched token is its
    raw bytes unwrapped by [eval_term]: the raw field made of a quote, a,
    two quotes, b and a quote gives the term a, quote, b; the raw field
    made of a quote and abc, never closed, is the term verbatim. *)
Theorem quote_unwrapping
    (s s' : delimited_token_stream) (d : bytes) :
  delim_ s = Some d ->
  next s = (true, s') ->
  (payload_ s' = Some quoted_a_qq_b -> term_ s' = Some [x61; x22; x62])
  /\ (payload_ s' = Some unterminated_abc -> term_ s' = Some unterminated_abc).
Proof.
  unfold next. intros Hdel.
  destruct (data_ s) as [data|]; [|discriminate].
  destruct (uint32_max <? _); [discriminate|].
  intros [= <-]. cbn [payload_ term_]. rewrite Hdel. cbn [null].
  generalize (firstn (find_delimiter (Some data) (Some d)) data).
  intros raw. split; intros [= ->]; reflexivity.
Qed.

Lemma quote_unwrapping_witness :
  let s1 := snd (reset (make (Some [x2c])) (Some quoted_a_qq_b)) in
  let s2 := snd (reset (make (Some [x2c])) (Some unterminated_abc)) in
  term_ (snd (next s1)) = Some [x61; x22; x62]
  /\ term_ (snd (next s2)) = Some unterminated_abc.
Proof.
  split.
  - apply (quote_unwrapping
             (snd (reset (make (Some [x2c])) (Some quoted_a_qq_b)))
             (snd (next (snd (reset (make (Some [x2c])) (Some quoted_a_qq_b)))))
             [x2c]); reflexivity.
  - apply (quote_unwrapping
             (snd (reset (make (Some [x2c])) (Some unterminated_abc)))
             (snd (next (snd (reset (make (Some [x2c])) (Some unterminated_abc)))))
             [x2c]); reflexivity.
Defined.

Lemma tokens_length : forall fuel s,
  (length (tokens fuel s) <= remaining s)%nat.
Proof.
  induction fuel as [|fuel IH]; intros s; cbn [tokens length]; [lia|].
  destruct (next s) as [[] s'] eqn:Hn; cbn [length]; [|lia].
  apply next_remaining in Hn. specialize (IH s'). lia.
Qed.

Lemma next_advance s d d' :
  data_ s = Some d -> fst (next s) = true -> data_ (snd (next s)) = Some d' ->
  Z.of_nat (length d) = Z.of_nat (length d') + advance s.
Proof.
  unfold next, advance. intros Hd. rewrite Hd.
  destruct (uint32_max <? _); [discriminate|]. cbn [fst snd data_].
  intros _.
  destruct (Nat.leb_spec (length d) (find_delimiter (Some d) (delim_ s)))
    as [|Hlt]; [discriminate|].
  intros [= <-]. rewrite length_skipn.
  destruct (find_delimiter_cases d (delim_ s))
    as [Hend|(dl & Hdel & _ & Hin & _ & _)]; [lia|].
  rewrite Hdel in *. change (size (Some dl)) with (length dl).
  pose proof (wrap64_le (Z.of_nat (find_delimiter (Some d) (Some dl))
                         + Z.of_nat (length dl)) ltac:(lia)).
  lia.
Qed.

(** C9 (as amended): every successful [next] strictly shrinks what is
    left to scan: it moves the cursor by [advance], the maximum of one
    byte and the match length plus the delimiter length, or replaces a
    suffix it consumed by the null reference; a failing [next] changes
    nothing. Hence, after [reset(input)], at most [size input + 1] tokens
    are read and every call from the [(size input + 1)]-th on returns
    [false]. *)
Theorem next_shrinks_and_terminates
    (s : delimited_token_stream) (input : bytes_ref) :
  let s0 := snd (reset s input) in
  (forall st,
      if fst (next st)
      then (remaining (snd (next st)) < remaining st)%nat
           /\ match data_ st, data_ (snd (next st)) with
              | Some d, Some d' =>
                  Z.of_nat (length d) = Z.of_nat (length d') + advance st
                  /\ 1 <= advance st
              | _, _ => data_ (snd (next st)) = None
              end
      else snd (next st) = st)
  /\ (forall fuel, length (tokens fuel s0) <= size input + 1)%nat
  /\ (forall k, fst (next (next_n (size input + 1 + k) s0)) = false).
Proof.
  cbv zeta. assert (Hrem : (remaining (snd (reset s input)) <= size input + 1)%nat).
  { unfold remaining, reset. cbn [snd data_].
    destruct input; cbn [size contents length]; lia. }
  repeat split.
  - intros st. destruct (next st) as [[] st'] eqn:Hn; cbn [fst snd].
    + split; [now apply next_remaining|].
      destruct (data_ st) as [d|] eqn:Hd;
        [|now rewrite (next_null st Hd) in Hn].
      destruct (data_ st') as [d'|] eqn:Hd'; [|reflexivity].
      split; [|unfold advance; lia].
      apply (next_advance st d d' Hd); now rewrite Hn.
    + now apply next_false_stable.
  - intros fuel. pose proof (tokens_length fuel (snd (reset s input))). lia.
  - intros k. now apply next_n_exhausted.
Qed.

(** The advance is not at least one byte more than the delimiter length:
    with the delimiter found at position [0] the cursor moves by the
    delimiter length only. *)
Lemma advance_counterexample :
  let s0 := snd (reset (make (Some [x2c])) (Some [x2c; x61])) in
  fst (next s0) = true
  /\ find_delimiter (data_ s0) (delim_ s0) = 0%nat
  /\ data_ (snd (next s0)) = Some [x61]
  /\ advance s0 = 1
  /\ ~ (size (data_ (snd (next s0))) + (1 + size (delim_ s0))
        <= size (data_ s0))%nat.
Proof. vm_compute. repeat split. lia. Qed.

Lemma reset_next_start s input : next_start (snd (reset s input)) = 0.
Proof.
  unfold next_start, reset. cbn [snd offset_ end_ delim_].
  apply wrap32_neg_cancel.
Qed.

(** On inputs that fit the 32-bit offsets, every token sits at its byte
    position in the input. *)
Lemma offsets_exact (s : delimited_token_stream) (data : bytes) :
  Z.of_nat (length data) <= uint32_max ->
  placed (Z.of_nat (size (delim_ s))) 0
    (all_tokens (snd (reset s (Some data)))).
Proof.
  intros Hfit.
  destruct (tokens_exact (S (length data)) (snd (reset s (Some data))) data)
    as (t & l & Htok & _ & Hplaced & _).
  - reflexivity.
  - rewrite reset_next_start. lia.
  - lia.
  - unfold all_tokens, remaining. cbn [reset snd data_].
    cbn [reset snd data_] in Htok. rewrite Htok.
    now rewrite reset_next_start in Hplaced.
Qed.

(** C5 (as amended): when the input fits the 32-bit offsets (at most
    [2^32 - 1] bytes) and no raw field opens with a quote, the terms read
    after [reset(input)], re-joined with the delimiter, are the input.
    The statement holds for every delimiter, the non-empty ones in
    particular. *)
Theorem rejoin_terms (s : delimited_token_stream) (input : bytes_ref) :
  Z.of_nat (size input) <= uint32_max ->
  Forall (fun t => unquoted (tok_payload t))
         (all_tokens (snd (reset s input))) ->
  join (contents (delim_ s)) (map tok_term (all_tokens (snd (reset s input))))
  = contents input.
Proof.
  intros Hfit Hraw. destruct input as [data|]; [|reflexivity].
  unfold all_tokens, remaining in *. cbn [reset snd data_ contents] in *.
  match goal with |- context [tokens _ ?s1] => set (s0 := s1) in * end.
  destruct (tokens_exact (S (length data)) s0 data)
    as (t & l & Htok & Hjoin & _ & Hterm).
  - reflexivity.
  - replace (next_start s0) with 0
      by (symmetry; apply (reset_next_start s (Some data))).
    unfold size, contents in Hfit. lia.
  - lia.
  - rewrite Htok in *. replace (delim_ s0) with (delim_ s) in * by reflexivity.
    rewrite <- Hjoin. f_equal. apply map_ext_in.
    intros tok Hin.
    rewrite List.Forall_forall in Hterm, Hraw.
    rewrite (Hterm tok Hin). unfold term_of.
    destruct (null (delim_ s)); [reflexivity|].
    apply eval_term_unquoted. now apply Hraw.
Qed.

Lemma rejoin_terms_witness :
  let s := make (Some [x2c]) in
  let input := Some [x61; x2c; x62; x22; x63; x2c; x2c; x64] in
  Z.of_nat (size input) <= uint32_max
  /\ Forall (fun t => unquoted (tok_payload t))
            (all_tokens (snd (reset s input)))
  /\ join (contents (delim_ s))
          (map tok_term (all_tokens (snd (reset s input))))
     = contents input.
Proof.
  assert (H1 : Z.of_nat (size (Some [x61; x2c; x62; x22; x63; x2c; x2c; x64]))
               <= uint32_max) by (vm_compute; discriminate).
  assert (H2 : Forall (fun t => unquoted (tok_payload t))
                 (all_tokens (snd (reset (make (Some [x2c]))
                    (Some [x61; x2c; x62; x22; x63; x2c; x2c; x64])))))
    by (vm_compute; repeat constructor).
  split; [exact H1|]. split; [exact H2|].
  exact (rejoin_terms (make (Some [x2c]))
           (Some [x61; x2c; x62; x22; x63; x2c; x2c; x64]) H1 H2).
Defined.

Lemma join_In (d : bytes) (l : list bytes) (t : bytes) (c : byte) :
  In t l -> In c t -> In c (join d l).
Proof.
  induction l as [|x l IH]; [easy|].
  intros [->|Ht] Hc; destruct l as [|y l]; cbn [join].
  - exact Hc.
  - apply in_or_app. now left.
  - destruct Ht.
  - apply in_or_app. right. apply in_or_app. right. now apply IH.
Qed.

(** In particular an input without any quote byte is re-joined from its
    terms. *)
Lemma rejoin_quote_free (s : delimited_token_stream) (data : bytes) :
  Z.of_nat (length data) <= uint32_max ->
  Forall (fun c => is_quote c = false) data ->
  join (contents (delim_ s))
       (map tok_term (all_tokens (snd (reset s (Some data)))))
  = data.
Proof.
  intros Hfit Hfree.
  unfold all_tokens, remaining. cbn [reset snd data_].
  match goal with |- context [tokens _ ?s1] => set (s0 := s1) end.
  destruct (tokens_exact (S (length data)) s0 data)
    as (t & l & Htok & Hjoin & _ & Hterm).
  - reflexivity.
  - replace (next_start s0) with 0
      by (symmetry; apply (reset_next_start s (Some data))).
    lia.
  - lia.
  - rewrite Htok. replace (delim_ s0) with (delim_ s) in * by reflexivity.
    etransitivity; [|exact Hjoin]. f_equal. apply map_ext_in.
    intros tok Hin. rewrite List.Forall_forall in Hterm, Hfree.
    rewrite (Hterm tok Hin). unfold term_of.
    destruct (null (delim_ s)); [reflexivity|].
    apply eval_term_unquoted.
    destruct (tok_payload tok) as [|c raw] eqn:Hraw; [exact I|].
    cbn [unquoted]. apply Hfree. rewrite <- Hjoin.
    apply (join_In _ _ (tok_payload tok)).
    + now apply in_map.
    + rewrite Hraw. now left.
Qed.

(** A run of the letter a holds neither a quote nor a comma: the scan
    for a comma falls through. *)
Lemma find_delimiter_loop_run_a : forall n i,
  find_delimiter_loop [x2c] i false (repeat x61 n) = None.
Proof.
  induction n as [|n IH]; intros i; [reflexivity|].
  cbn [repeat find_delimiter_loop]. cbn [length Nat.ltb Nat.leb].
  cbn [memcmp_eq]. cbn. apply IH.
Qed.

(** ... and finds the first comma behind the run. *)
Lemma find_delimiter_loop_run_a_comma rest : forall n i,
  find_delimiter_loop [x2c] i false (repeat x61 n ++ x2c :: rest)
  = Some (i + n)%nat.
Proof.
  induction n as [|n IH]; intros i.
  - cbn. now rewrite orb_true_r, Nat.add_0_r.
  - cbn [repeat app find_delimiter_loop]. cbn [length Nat.ltb Nat.leb].
    cbn [memcmp_eq]. cbn. rewrite IH. f_equal. lia.
Qed.

(** A run of more than [2^32 - 1] letters a is one field whose end does
    not fit: [next] drops it and the stream yields nothing. *)
Lemma long_run_is_dropped (n : nat) :
  uint32_max < Z.of_nat n < 2 ^ 64 ->
  let input : bytes := repeat x61 n in
  let s0 := snd (reset (make (Some [x2c])) (Some input)) in
  Forall (fun c => is_quote c = false) input
  /\ all_tokens s0 = []
  /\ join [x2c] (map tok_term (all_tokens s0)) <> input.
Proof.
  intros Hn input s0.
  assert (Hnone : all_tokens s0 = []).
  { unfold all_tokens. apply tokens_dropped.
    assert (Hfind : find_delimiter (Some input) (delim_ s0) = n).
    { unfold find_delimiter, input, s0. cbn [reset snd delim_ make contents].
      rewrite find_delimiter_loop_run_a. unfold size, contents.
      apply repeat_length. }
    rewrite (next_overflow s0 input eq_refl); [reflexivity|].
    rewrite Hfind.
    replace (next_start s0) with 0
      by (symmetry; apply (reset_next_start (make (Some [x2c])) (Some input))).
    lia. }
  split; [|split; [exact Hnone|]].
  - apply List.Forall_forall. intros c Hc.
    apply repeat_spec in Hc. now subst c.
  - rewrite Hnone. cbn [map join]. intros H.
    apply (f_equal (@length byte)) in H. unfold input in H.
    rewrite repeat_length in H. cbn [length] in H. unfold uint32_max in Hn. lia.
Qed.

(** The claim of C5 fails on an input of [2^32] letters a split on the
    comma: the input holds no quote, yet no term is read back. *)
Lemma rejoin_counterexample :
  let input : bytes := repeat x61 (Z.to_nat (2 ^ 32)) in
  let s0 := snd (reset (make (Some [x2c])) (Some input)) in
  Forall (fun c => is_quote c = false) input
  /\ all_tokens s0 = []
  /\ join [x2c] (map tok_term (all_tokens s0)) <> input.
Proof.
  apply (long_run_is_dropped (Z.to_nat (2 ^ 32))).
  rewrite Z2Nat.id by lia. unfold uint32_max. lia.
Qed.

(** The start offset wraps: behind a first field of [2^32 - 1] bytes and
    a one-byte delimiter, the second field is reported at offset [0]. *)
Lemma second_field_wraps (n : nat) :
  Z.of_nat n = 2 ^ 32 - 1 ->
  let input : bytes := repeat x61 n ++ [x2c; x62] in
  let s0 := snd (reset (make (Some [x2c])) (Some input)) in
  let s1 := snd (next s0) in
  let s2 := snd (next s1) in
  (fst (next s0) = true /\ fst (next s1) = true)
  /\ (payload_ s2 = Some [x62] /\ term_ s2 = Some [x62])
  /\ offset_ s2 = mk_offset 0 1
  /\ (Z.of_nat (S n) = 2 ^ 32 /\ skipn (S n) input = [x62])
  /\ firstn 1 input = [x61].
Proof.
  intros Hn input s0.
  assert (Hlen : length input = (n + 2)%nat).
  { unfold input. now rewrite length_app, repeat_length. }
  assert (Hskip : skipn (S n) input = [x62]).
  { unfold input.
    rewrite skipn_app, repeat_length, skipn_all2 by (rewrite repeat_length; lia).
    replace (S n - n)%nat with 1%nat by lia. reflexivity. }
  assert (Hfind : find_delimiter (Some input) (Some [x2c]) = n).
  { unfold find_delimiter, input, contents.
    now rewrite find_delimiter_loop_run_a_comma. }
  assert (Hstart : next_start s0 = 0)
    by apply (reset_next_start (make (Some [x2c])) (Some input)).
  assert (Hnext : next s0 =
    (true,
     {| delim_ := Some [x2c]; data_ := Some [x62];
        offset_ := mk_offset 0 (2 ^ 32 - 1);
        payload_ := Some (firstn n input);
        term_ := Some (eval_term (firstn n input)) |})).
  { rewrite (next_fits s0 input eq_refl).
    - rewrite Hstart.
      replace (delim_ s0) with (Some [x2c]) by reflexivity.
      rewrite Hfind, Hlen, Hn. cbn [null size contents length].
      destruct (Nat.leb_spec (n + 2) n) as [?|_]; [lia|].
      rewrite wrap64_small by lia.
      replace (Z.to_nat (Z.max 1 (2 ^ 32 - 1 + Z.of_nat 1))) with (S n) by lia.
      rewrite Hskip. reflexivity.
    - rewrite Hstart.
      replace (delim_ s0) with (Some [x2c]) by reflexivity.
      rewrite Hfind, Hn. unfold uint32_max. lia. }
  cbv zeta. rewrite Hnext. cbn [fst snd].
  split; [split; reflexivity|].
  split; [split; reflexivity|].
  split; [reflexivity|].
  split; [split; [lia|exact Hskip]|].
  unfold input. destruct n as [|m]; [lia|reflexivity].
Qed.

(** C3 (the code departs from it): on the input made of [2^32 - 1]
    letters a, a comma and the letter b, split on the comma, the second
    call of [next] succeeds and reports the field b, which sits at byte
    [2^32] of the input, with the offsets [0] and [1], where the input
    holds the letter a. *)
Theorem wrapped_offset_is_emitted :
  let n := Z.to_nat (2 ^ 32 - 1) in
  let input : bytes := repeat x61 n ++ [x2c; x62] in
  let s0 := snd (reset (make (Some [x2c])) (Some input)) in
  let s1 := snd (next s0) in
  let s2 := snd (next s1) in
  (fst (next s0) = true /\ fst (next s1) = true)
  /\ (payload_ s2 = Some [x62] /\ term_ s2 = Some [x62])
  /\ offset_ s2 = mk_offset 0 1
  /\ (Z.of_nat (S n) = 2 ^ 32 /\ skipn (S n) input = [x62])
  /\ firstn 1 input = [x61].
Proof.
  intros n. apply (second_field_wraps n).
  unfold n. apply Z2Nat.id. lia.
Qed.

End DelimitedClaims.

(** ** Stopword resolution and the cache of compiled options *)

Module TextFacts.
Import Int Text TextSpec.

Local Open Scope string_scope.

Section Resolution.
Context `{Container} `{FileSystem}.
Hypothesis laws : container_laws.

Lemma contains_In (l : stopwords_t) (w : string) :
  contains l w = true <-> In w l.
Proof.
  unfold contains. rewrite existsb_exists. split.
  - intros (x & Hx & Heq). apply String.eqb_eq in Heq. now subst.
  - intros Hin. exists w. split; [exact Hin|apply String.eqb_refl].
Qed.

Lemma emplace_In (x w : string) (l : list string) :
  In w (emplace x l) <-> w = x \/ In w l.
Proof.
  destruct (in_dec string_dec x l) as [Hx|Hx].
  - rewrite (emplace_old laws x l Hx). split; [now right|].
    intros [->|Hw]; assumption.
  - pose proof (emplace_new laws x l Hx) as Hp. split.
    + intros Hw. apply (Permutation_in _ Hp) in Hw.
      destruct Hw as [<-|Hw]; [now left|now right].
    + intros Hw. apply (Permutation_in _ (Permutation_sym Hp)).
      destruct Hw as [->|Hw]; [now left|now right].
Qed.

Lemma insert_range_In (range : list string) : forall buf w,
  In w (insert_range buf range) <-> In w buf \/ In w range.
Proof.
  unfold insert_range.
  induction range as [|x range IH]; intros buf w; cbn [fold_left].
  - cbn. tauto.
  - rewrite IH, emplace_In. cbn [In]. intuition congruence.
Qed.


End Resolution.

(** *** The cache *)

Section Cache.
Context `{Container} `{FileSystem} `{JsonCodec}.









End Cache.

End TextFacts.

(** ** The configuration codec: reading a written configuration *)

Module CodecFacts.
Import Int Text TextSpec TextFacts.

Local Open Scope string_scope.

Section Codec.
Context `{Container}.

Lemma config_document_total (o : options_t) :
  exists members, config_document o = Some (JObject members).
Proof.
  unfold config_document. destruct (case_convert o); cbn; eauto.
Qed.

Lemma mapM_get_string (l : list string) :
  mapM get_string (map JString l) = Some (map c_str l).
Proof.
  induction l as [|w l IH]; [reflexivity|].
  cbn [map]. cbn. cbn in IH. now rewrite IH.
Qed.

Lemma parse_config_document (o : options_t) members :
  config_document o = Some (JObject members) ->
  parse_options members = Some (reparsed o).
Proof.
  unfold config_document, reparsed, has_stopwords.
  destruct o as [cc sw sw_set loc path na ns]. cbn [case_convert
    explicit_stopwords explicit_stopwords_set locale stopwordsPath
    no_accent no_stem].
  destruct cc; cbn [find case_convert_map case_convert_eqb snd fst];
    intros [= <-];
    destruct (negb (empty sw) || sw_set) eqn:Hsw;
    destruct (path_is_set path) eqn:Hp;
    unfold parse_options, parse_case_convert, parse_stopwords,
      parse_stopwordsPath, parse_no_accent, parse_no_stem;
    cbn; rewrite ?mapM_get_string; reflexivity.
Qed.

Lemma map_c_str_valid (l : list string) :
  Forall (fun w => c_str w = w) l -> map c_str l = l.
Proof.
  induction 1 as [|w l Hw _ IH]; [reflexivity|].
  cbn [map]. now rewrite Hw, IH.
Qed.

(** On a valid configuration whose stopwords the container re-inserts in
    the same order, the options read back write the same document. *)
Lemma config_document_reparsed (o : options_t) :
  valid_options o ->
  insert_range [] (explicit_stopwords o) = explicit_stopwords o ->
  config_document (reparsed o) = config_document o.
Proof.
  intros [Hloc Hsw Hpath] Horder.
  unfold config_document, reparsed, has_stopwords.
  cbn [case_convert explicit_stopwords explicit_stopwords_set locale
       stopwordsPath no_accent no_stem].
  rewrite Hloc, (map_c_str_valid _ Hsw), Horder.
  destruct (find _ case_convert_map) as [case_value|]; [|reflexivity].
  do 2 f_equal. f_equal. f_equal.
  - destruct (empty (explicit_stopwords o)) eqn:He;
      destruct (explicit_stopwords_set o); cbn [negb orb]; try reflexivity.
    + destruct (explicit_stopwords o); [reflexivity|discriminate].
    + rewrite He. reflexivity.
    + rewrite He. reflexivity.
  - f_equal.
    destruct (path_is_set (stopwordsPath o)) eqn:Hp.
    + rewrite (Hpath eq_refl), Hp. reflexivity.
    + reflexivity.
Qed.

End Codec.

Section Invariant.
Context `{Container} `{FileSystem} `{JsonCodec}.

Lemma structured_cache_empty : structured_cache ∅.
Proof. intros key e members Hk. now rewrite lookup_empty in Hk. Qed.

(** The structured constructor keeps the cache structured. *)
Lemma structured_cache_make_json (c : gmap string cached_options_t) args :
  structured_cache c -> structured_cache (make_json c args).1.2.
Proof.
  intros Hc. unfold make_json.
  destruct (json_parse args) as [[| | |s|elements|members]|] eqn:Hparse;
    try exact Hc.
  - unfold construct1. destruct (c !! args) eqn:Hk; [exact Hc|].
    destruct (build_stopwords _ []) as [[log ok] sw].
    destruct ok; [|exact Hc].
    unfold construct3, try_emplace_update_key. rewrite Hk. cbn [fst snd].
    intros key e members Hin Hobj.
    destruct (decide (args = key)) as [<-|Hne].
    + rewrite Hparse in Hobj. discriminate.
    + rewrite lookup_insert_ne in Hin by exact Hne. eauto.
  - destruct (parse_options members) as [o|] eqn:Ho; [|exact Hc].
    destruct (build_stopwords o []) as [[log ok] sw].
    destruct ok; [|exact Hc].
    unfold construct3, try_emplace_update_key.
    destruct (c !! args) eqn:Hk; cbn [fst snd]; [exact Hc|].
    intros key e members' Hin Hobj.
    destruct (decide (args = key)) as [<-|Hne].
    + rewrite lookup_insert_eq in Hin. injection Hin as <-.
      rewrite Hparse in Hobj. injection Hobj as <-. exact Ho.
    + rewrite lookup_insert_ne in Hin by exact Hne. eauto.
Qed.

End Invariant.

End CodecFacts.

(** ** The configuration codec and the cache: statements *)

Module TextClaims.
Import Int Text TextSpec TextFacts CodecFacts Examples ExampleData.

Local Open Scope string_scope.



(** Re-inserted into an empty set, a single stopword is iterated as it
    was written, whatever the container. *)
Lemma insert_range_singleton `{Container} (w : string) :
  container_laws -> insert_range [] [w] = [w].
Proof.
  intros Hlaws. cbn [insert_range fold_left].
  apply Permutation_length_1_inv, Permutation_sym.
  now apply (emplace_new Hlaws).
Qed.

(** C4 (as amended): for a valid configuration whose stopwords the
    container re-inserts in the order they were written in, the structured
    output, given back to the structured constructor, yields an analyzer
    whose structured output is the same string, provided the document
    reads back as written, the stopwords of the configuration read back
    still resolve, and an entry that the cache already holds under the
    output string was compiled from that string by the structured
    constructor: its options are the ones parsed from the string. *)
Theorem structured_round_trip `{Container} `{FileSystem} `{JsonCodec}
    (c : gmap string cached_options_t) (o : options_t) (d : json) :
  valid_options o ->
  insert_range [] (explicit_stopwords o) = explicit_stopwords o ->
  config_document o = Some d ->
  json_parse (json_write d) = Some d ->
  (forall e, c !! json_write d = Some e ->
             exists members,
               json_parse (json_write d) = Some (JObject members)
               /\ parse_options members = Some (base e)) ->
  (build_stopwords (reparsed o) []).1.2 = true ->
  to_string format_json o = Some (json_write d)
  /\ exists a,
       (make_json c (json_write d)).2 = Some a
       /\ to_string format_json (a_options a) = Some (json_write d).
Proof.
  intros Hvalid Horder Hdoc Hread Hcache Hbuild.
  split; [cbn [to_string]; unfold make_json_config; now rewrite Hdoc|].
  destruct (config_document_total o) as [members Hmembers].
  assert (d = JObject members) as -> by congruence.
  pose proof (parse_config_document o members Hdoc) as Hparse.
  unfold make_json. rewrite Hread, Hparse.
  destruct (build_stopwords (reparsed o) []) as [[log ok] sw].
  cbn [fst snd] in Hbuild. subst ok.
  unfold construct3, try_emplace_update_key.
  assert (Hout : to_string format_json (reparsed o)
                 = Some (json_write (JObject members))).
  { cbn [to_string]. unfold make_json_config.
    now rewrite (config_document_reparsed o Hvalid Horder), Hdoc. }
  destruct (c !! json_write (JObject members)) as [e|] eqn:Hk; cbn [snd].
  - exists (analyzer_of e). split; [reflexivity|].
    cbn [analyzer_of a_options].
    destruct (Hcache e eq_refl) as (members' & Hread' & He).
    assert (members' = members) as -> by congruence.
    rewrite Hparse in He. injection He as <-. exact Hout.
  - eexists. split; [reflexivity|]. exact Hout.
Qed.

Lemma structured_round_trip_witness :
  is_Some (cache_after_one_stopword
             !! @json_write compact_json one_stopword_document)
  /\ @to_string compact_json format_json one_stopword
     = Some (@json_write compact_json one_stopword_document)
  /\ exists a,
       (@make_json back_container one_file_system compact_json
          cache_after_one_stopword
          (@json_write compact_json one_stopword_document)).2
       = Some a
       /\ @to_string compact_json format_json (a_options a)
          = Some (@json_write compact_json one_stopword_document).
Proof.
  split; [vm_compute; eexists; reflexivity|].
  refine (@structured_round_trip back_container one_file_system compact_json
            cache_after_one_stopword one_stopword one_stopword_document
            _ _ _ _ _ _).
  - split; [reflexivity|repeat constructor|reflexivity].
  - reflexivity.
  - reflexivity.
  - vm_compute. reflexivity.
  - intros e He. vm_compute in He. injection He as <-.
    eexists. split; vm_compute; reflexivity.
  - vm_compute. reflexivity.
Defined.

(** The claim of C4 fails when the cache already holds an entry under the
    structured output: the analyzer built from the output is the cached
    one, whose locale is the whole output string. *)
Lemma round_trip_counterexample :
  @to_string compact_json format_json (set_locale default_options "en")
  = Some en_definition
  /\ match (@make_json back_container one_file_system compact_json
             cache_after_text en_definition).2 with
     | Some a =>
         locale (a_options a) = en_definition
         /\ @to_string compact_json format_json (a_options a)
            <> Some en_definition
     | None => False
     end.
Proof. vm_compute. repeat split. discriminate. Qed.

End TextClaims.

(** ** The token stream of the linguistic analyzer *)

Module StreamFacts.
Import Int Text TextSpec TextFacts TextStream StreamSpec.

Section Pipeline.
Context `{Linguistic}.

(** *** Invariants along the life of a stream *)

(** An ICU locale set to bogus reports so. *)
Hypothesis bogus_is_bogus : isBogus bogus_locale = true.

Lemma wf_new (a : analyzer) : wf a (text_token_stream a).
Proof.
  split; [|now intros []].
  split; cbn; try reflexivity; try discriminate.
  rewrite bogus_is_bogus. discriminate.
Qed.

Lemma core_ensure_locale a st : core a st -> core a (ensure_locale st).
Proof.
  intros Hc. unfold ensure_locale.
  destruct (isBogus (icu_locale st)); [|exact Hc].
  destruct Hc as [Ho Hs Hl Hn Ht Hst].
  split; cbn; try assumption.
  intros _. unfold configured_icu_locale, configured_locale.
  now rewrite Ho.
Qed.

Lemma ready_ensure_locale a st : ready a st -> ensure_locale st = st.
Proof.
  intros Hr. unfold ensure_locale. now rewrite (ready_locale _ _ Hr).
Qed.

Lemma core_ensure_normalizer a st :
  core a st -> core a (fst (ensure_normalizer st)).
Proof.
  intros Hc. unfold ensure_normalizer.
  destruct (normalizer st); [exact Hc|].
  destruct Hc as [Ho Hs Hl Hn Ht Hst].
  destruct getNFCInstance as [n|] eqn:Hnfc; cbn [fst];
    split; cbn; try assumption; congruence.
Qed.

Lemma core_ensure_transliterator a st :
  core a st -> core a (fst (ensure_transliterator st)).
Proof.
  intros Hc. unfold ensure_transliterator.
  destruct (no_accent (options st)) eqn:Hna; [|exact Hc].
  destruct (transliterator st); [exact Hc|].
  destruct Hc as [Ho Hs Hl Hn Ht Hst].
  destruct createTransliterator as [t|] eqn:Hcr; cbn [fst];
    split; cbn; try assumption; try discriminate.
  intros t' [= <-]. now rewrite <- Ho.
Qed.

Lemma core_ensure_break_iterator a st :
  core a st -> core a (fst (ensure_break_iterator st)).
Proof.
  intros Hc. unfold ensure_break_iterator.
  destruct (break_iterator st); [exact Hc|].
  destruct Hc as [Ho Hs Hl Hn Ht Hst].
  destruct (createWordInstance (icu_locale st)); cbn [fst];
    split; cbn; assumption.
Qed.

Lemma core_ensure_stemmer a st :
  isBogus (icu_locale st) = false ->
  core a st -> core a (ensure_stemmer st).
Proof.
  intros Hb Hc. unfold ensure_stemmer.
  destruct (no_stem (options st)) eqn:Hns; [exact Hc|].
  destruct (stemmer st); [exact Hc|].
  destruct Hc as [Ho Hs Hl Hn Ht Hst].
  split; cbn; try assumption.
  intros s Hs'. destruct (Hl Hb) as [Hloc _].
  rewrite Hloc in Hs'. rewrite Ho in Hns. split; assumption.
Qed.

Lemma core_set_data a st d : core a st -> core a (set_data st d).
Proof. intros []. split; cbn; assumption. Qed.

Lemma core_set_break_iterator a st b :
  core a st -> core a (set_break_iterator st b).
Proof. intros []. split; cbn; assumption. Qed.

Lemma core_set_term a st t : core a st -> core a (set_term st t).
Proof. intros []. split; cbn; assumption. Qed.

Lemma core_set_offs a st s e : core a st -> core a (set_offs st s e).
Proof. intros []. split; cbn; assumption. Qed.

Lemma ready_set_data a st d : ready a st -> ready a (set_data st d).
Proof. intros []. split; cbn; assumption. Qed.

Lemma ready_set_break_iterator a st b :
  ready a st -> ready a (set_break_iterator st b).
Proof. intros []. split; cbn; assumption. Qed.

Lemma ready_set_term a st t : ready a st -> ready a (set_term st t).
Proof. intros []. split; cbn; assumption. Qed.

Lemma ready_set_offs a st s e : ready a st -> ready a (set_offs st s e).
Proof. intros []. split; cbn; assumption. Qed.

Lemma ready_ensure_stemmer a st :
  core a st -> prepared a st -> ready a (ensure_stemmer st).
Proof.
  intros Hc [Hb Hn Ht].
  pose proof (core_ensure_stemmer a st Hb Hc) as Hc'.
  destruct Hc as [Ho Hs Hl _ _ Hst]. destruct (Hl Hb) as [Hloc _].
  unfold ensure_stemmer in *.
  destruct (no_stem (options st)) eqn:Hns.
  - split; try assumption. rewrite <- Ho, Hns. discriminate.
  - destruct (stemmer st) as [s|] eqn:Hs'.
    + split; try assumption. intros _. rewrite Hs'.
      symmetry. now apply Hst.
    + split; cbn; try assumption. intros _. now rewrite Hloc.
Qed.

Lemma prepared_ensure_break_iterator a st :
  prepared a st -> prepared a (fst (ensure_break_iterator st)).
Proof.
  intros Hp. unfold ensure_break_iterator.
  destruct (break_iterator st); [exact Hp|].
  destruct Hp. destruct (createWordInstance (icu_locale st));
    split; cbn; assumption.
Qed.

Lemma ensure_break_iterator_result st :
  if snd (ensure_break_iterator st)
  then break_iterator (fst (ensure_break_iterator st)) <> None
  else break_iterator (fst (ensure_break_iterator st)) = None.
Proof.
  unfold ensure_break_iterator.
  destruct (break_iterator st) eqn:Hb; cbn [fst snd]; [congruence|].
  destruct (createWordInstance (icu_locale st)); cbn; congruence.
Qed.

Lemma break_iterator_ensure_stemmer st :
  break_iterator (ensure_stemmer st) = break_iterator st.
Proof.
  unfold ensure_stemmer.
  destruct (no_stem (options st)); [reflexivity|].
  now destruct (stemmer st).
Qed.

Lemma reset_tail_wf a st input :
  core a st -> prepared a st ->
  wf a (snd (reset_tail st input))
  /\ (fst (reset_tail st input) = true ->
      break_iterator (snd (reset_tail st input)) <> None).
Proof.
  intros Hc Hp. unfold reset_tail.
  pose proof (core_ensure_break_iterator a st Hc) as Hc4.
  pose proof (prepared_ensure_break_iterator a st Hp) as Hp4.
  pose proof (ensure_break_iterator_result st) as Hres.
  destruct (ensure_break_iterator st) as [st4 ok]. cbn [fst snd] in *.
  destruct ok; cbn [negb].
  - pose proof (ready_ensure_stemmer a st4 Hc4 Hp4) as Hr5.
    pose proof (core_ensure_stemmer a st4 (prepared_locale _ _ Hp4) Hc4) as Hc5.
    destruct (append_internal (locale_ (ensure_stemmer st4)) input)
      as [data_utf8|]; [destruct (int32_max <? _)|]; cbn [fst snd].
    + split; [now split|discriminate].
    + split; [split|intros _; discriminate].
      * unfold setText. now apply core_set_break_iterator, core_set_data.
      * intros _. unfold setText.
        now apply ready_set_break_iterator, ready_set_data.
    + split; [now split|discriminate].
  - cbn [fst snd]. split; [|discriminate]. split; [exact Hc4|].
    intros Hb. now rewrite Hres in Hb.
Qed.

Lemma reset_mid_wf a st input :
  core a st ->
  isBogus (icu_locale st) = false ->
  normalizer st <> None ->
  (break_iterator st <> None ->
   no_accent (a_options a) = true -> transliterator st <> None) ->
  wf a (snd (reset_mid st input))
  /\ (fst (reset_mid st input) = true ->
      break_iterator (snd (reset_mid st input)) <> None).
Proof.
  intros Hc Hb Hn Hr. unfold reset_mid.
  pose proof (core_ensure_transliterator a st Hc) as Hc3.
  pose proof (core_options _ _ Hc) as Ho.
  unfold ensure_transliterator in *.
  destruct (no_accent (options st)) eqn:Hna.
  - destruct (transliterator st) as [t|] eqn:Ht.
    + cbn [negb]. apply reset_tail_wf; [exact Hc|].
      split; [exact Hb|exact Hn|]. intros _. congruence.
    + destruct createTransliterator as [t|]; cbn [fst snd negb] in *.
      * apply reset_tail_wf; [exact Hc3|].
        split; cbn; [exact Hb|exact Hn|]. intros _. congruence.
      * split; [|discriminate]. split; [exact Hc3|].
        cbn. intros Hbi. exfalso. apply (Hr Hbi); congruence.
  - cbn [negb]. apply reset_tail_wf; [exact Hc|].
    split; [exact Hb|exact Hn|]. intros Hna'. congruence.
Qed.

Lemma reset_norm_wf a st input :
  core a st ->
  isBogus (icu_locale st) = false ->
  (break_iterator st <> None -> ready a st) ->
  wf a (snd (reset_norm st input))
  /\ (fst (reset_norm st input) = true ->
      break_iterator (snd (reset_norm st input)) <> None).
Proof.
  intros Hc Hb Hr. unfold reset_norm.
  pose proof (core_ensure_normalizer a st Hc) as Hc2.
  unfold ensure_normalizer in *.
  destruct (normalizer st) as [n|] eqn:Hn.
  - cbn [negb]. apply reset_mid_wf; try assumption; [congruence|].
    intros Hbi. apply (ready_transliterator _ _ (Hr Hbi)).
  - destruct getNFCInstance as [n|]; cbn [fst snd negb] in *.
    + apply reset_mid_wf; cbn; try assumption; [congruence|].
      intros Hbi. apply (ready_transliterator _ _ (Hr Hbi)).
    + split; [|discriminate]. split; [exact Hc2|].
      cbn. intros Hbi. destruct (ready_normalizer _ _ (Hr Hbi)). exact Hn.
Qed.

Lemma reset_unfold st input :
  reset st input
  = if isBogus (icu_locale (ensure_locale st)) then (false, ensure_locale st)
    else reset_norm (ensure_locale st) input.
Proof. reflexivity. Qed.

Lemma wf_reset a st input :
  wf a st ->
  wf a (snd (reset st input))
  /\ (fst (reset st input) = true ->
      break_iterator (snd (reset st input)) <> None).
Proof.
  intros [Hc Hr]. rewrite reset_unfold.
  pose proof (core_ensure_locale a st Hc) as Hc1.
  assert (Hsame : break_iterator st <> None -> ensure_locale st = st)
    by (intros Hb; apply (ready_ensure_locale a), Hr, Hb).
  assert (Hbi1 : break_iterator (ensure_locale st) = break_iterator st)
    by (unfold ensure_locale; now destruct (isBogus (icu_locale st))).
  assert (Hr1 : break_iterator (ensure_locale st) <> None ->
                ready a (ensure_locale st)).
  { intros Hb. rewrite Hbi1 in Hb. rewrite (Hsame Hb). exact (Hr Hb). }
  destruct (isBogus (icu_locale (ensure_locale st))) eqn:Hbogus.
  - split; [|discriminate]. split; [exact Hc1|].
    cbn [snd]. intros Hb.
    rewrite (ready_locale _ _ (Hr1 Hb)) in Hbogus. discriminate.
  - now apply reset_norm_wf.
Qed.

(** *** The code against the specification *)

Lemma case_convert_word_spec a st w :
  core a st -> ready a st ->
  case_convert_word st w = spec_case_convert (a_options a) w.
Proof.
  intros Hc Hr. unfold case_convert_word, spec_case_convert.
  destruct (core_locale _ _ Hc (ready_locale _ _ Hr)) as [_ ->].
  now rewrite (core_options _ _ Hc).
Qed.

Lemma transliterate_word_spec a st w :
  core a st -> ready a st ->
  transliterate_word st w = spec_strip_accents (a_options a) w.
Proof.
  intros Hc Hr. unfold transliterate_word, spec_strip_accents.
  destruct (transliterator st) as [t|] eqn:Ht.
  - destruct (core_transliterator _ _ Hc t Ht) as [-> ->]. reflexivity.
  - destruct (no_accent (a_options a)) eqn:Hna; [|reflexivity].
    now destruct (ready_transliterator _ _ Hr Hna).
Qed.

Lemma transformed_spec a st n text :
  core a st -> ready a st -> normalizer st = Some n ->
  transformed st n text = spec_transform (a_options a) text.
Proof.
  intros Hc Hr Hn. unfold transformed, spec_transform, spec_normalize.
  rewrite (core_normalizer _ _ Hc n Hn).
  rewrite (transliterate_word_spec a), (case_convert_word_spec a)
    by assumption.
  unfold normalize_word. reflexivity.
Qed.

Lemma process_term_spec a st text :
  core a st -> ready a st ->
  process_term st text
  = Some match spec_term a text with
         | None => (false, st)
         | Some t => (true, set_term st t)
         end.
Proof.
  intros Hc Hr. unfold process_term.
  destruct (normalizer st) as [n|] eqn:Hn;
    [|now destruct (ready_normalizer _ _ Hr)].
  fold (transformed st n text).
  rewrite (transformed_spec a st n text Hc Hr Hn).
  unfold spec_term. rewrite (core_stopwords _ _ Hc).
  destruct (contains (a_stopwords a) _); [reflexivity|].
  unfold spec_stem.
  destruct (no_stem (a_options a)) eqn:Hns.
  - destruct (stemmer st) as [s|] eqn:Hs; [|reflexivity].
    destruct (core_stemmer _ _ Hc s Hs). congruence.
  - rewrite (ready_stemmer _ _ Hr Hns).
    destruct (sb_stemmer_new _) as [s|]; [|reflexivity].
    now destruct (sb_stemmer_stem s _ _).
Qed.

Lemma next_loop_spec a boundaries : forall st start,
  core a st -> ready a st ->
  exists r,
    next_loop st start boundaries = Some r
    /\ observe (Some r) = Some (spec_next a (data st) start boundaries)
    /\ core a (snd r) /\ ready a (snd r).
Proof.
  induction boundaries as [|[end' status] rest IH]; intros st start Hc Hr.
  - exists (false, st). split; [reflexivity|]. split; [reflexivity|].
    split; assumption.
  - cbn [next_loop spec_next].
    set (st1 := set_break_iterator st (Some (mk_break_iterator end' rest))).
    assert (Hc1 : core a st1) by now apply core_set_break_iterator.
    assert (Hr1 : ready a st1) by now apply ready_set_break_iterator.
    change (data st) with (data st1).
    destruct (status =? UBRK_WORD_NONE); [now apply IH|].
    rewrite (process_term_spec a st1 _ Hc1 Hr1).
    destruct (spec_term a _) as [t|]; [|now apply IH].
    eexists. split; [reflexivity|]. cbn [observe snd].
    split; [reflexivity|].
    split; [now apply core_set_offs, core_set_term
           |now apply ready_set_offs, ready_set_term].
Qed.

Lemma wf_next a st b st' :
  wf a st -> next st = Some (b, st') -> wf a st'.
Proof.
  intros [Hc Hr]. unfold next.
  destruct (break_iterator st) as [bi|] eqn:Hbi; [|discriminate].
  assert (Hrd : ready a st) by (apply Hr; congruence).
  destruct (next_loop_spec a (upcoming bi) st (current bi) Hc Hrd)
    as (r & -> & _ & Hc' & Hr').
  intros [= ->]. split; [exact Hc'|]. intros _. exact Hr'.
Qed.

Lemma reachable_wf a st : reachable a st -> wf a st.
Proof.
  induction 1 as [|st input _ IH|st b st' _ IH Hnext].
  - apply wf_new.
  - now apply wf_reset.
  - now apply (wf_next a st b st').
Qed.

End Pipeline.

End StreamFacts.

(** ** The example platforms obey the laws *)

Module ExampleFacts.
Import Text TextSpec TextFacts Examples ExampleData.

Local Open Scope string_scope.

Lemma back_container_laws : @container_laws back_container.
Proof.
  split; cbn [emplace back_container]; unfold emplace_back; intros w l Hw.
  - apply contains_In in Hw. now rewrite Hw.
  - destruct (contains l w) eqn:Hc; [now apply contains_In in Hc|].
    apply Permutation_sym, Permutation_cons_append.
Qed.

Lemma front_container_laws : @container_laws front_container.
Proof.
  split; cbn [emplace front_container]; unfold emplace_front; intros w l Hw.
  - apply contains_In in Hw. now rewrite Hw.
  - destruct (contains l w) eqn:Hc; [now apply contains_In in Hc|].
    reflexivity.
Qed.

(** A container that links new elements in at the head gives the
    stopwords back in the reverse order when they are re-inserted. *)
Lemma front_container_reverses :
  @insert_range front_container [] ["of"; "the"]%string = ["the"; "of"]%string.
Proof. reflexivity. Qed.

(** With that container the structured round trip swaps the two
    stopwords of [two_stopwords], whatever the cache. *)
Lemma round_trip_order_dependence :
  match (@make_json front_container one_file_system compact_json ∅
           (@json_write compact_json two_stopwords_document)).2 with
  | Some a =>
      explicit_stopwords (a_options a) = ["the"; "of"]%string
      /\ @to_string compact_json format_json (a_options a)
         <> Some (@json_write compact_json two_stopwords_document)
  | None => False
  end.
Proof. vm_compute. split; [reflexivity|discriminate]. Qed.

(** An explicitly empty stopword list is written as an empty array and
    read back as explicitly empty. *)
Lemma empty_array_round_trip :
  let o := set_explicit_stopwords_set (set_locale default_options "en"%string) true in
  match @to_string compact_json format_json o with
  | Some s =>
      match (@make_json back_container one_file_system compact_json ∅ s).2 with
      | Some a =>
          a_options a = o
          /\ a_stopwords a = []
          /\ @to_string compact_json format_json (a_options a) = Some s
      | None => False
      end
  | None => False
  end.
Proof. vm_compute. repeat split. Qed.

End ExampleFacts.

(** ** The linguistic analyzer: statements about the token stream *)

Module StreamClaims.
Import Int Text TextSpec TextFacts TextStream StreamSpec StreamFacts Examples ExampleData ExampleFacts.

Local Open Scope string_scope.

(** C7: in every state that a stream reaches from its constructor through
    [reset] and [next] and in which the word iterator exists, a span is
    processed in this order: Unicode normalization by the normalizer of
    the platform (a span that it fails on is kept as it is), case
    conversion per [case_convert], accent stripping if configured, an
    exact-match test of the fully transformed string against the
    stopwords (a match discards the span), stemming if a stemmer is
    available and not disabled, with the transformed word as the term
    when stemming fails; [next] skips the spans without linguistic content
    and the discarded ones and emits the first span left with that
    term. *)
Theorem term_pipeline `{Linguistic}
    (a : analyzer) (st : state_t) (b : break_iterator_t)
    (text : UnicodeString) :
  isBogus bogus_locale = true ->
  reachable a st ->
  break_iterator st = Some b ->
  process_term st text
  = Some match spec_term a text with
         | None => (false, st)
         | Some t => (true, set_term st t)
         end
  /\ observe (next st)
     = Some (spec_next a (data st) (current b) (upcoming b)).
Proof.
  intros Hbogus Hreach Hb.
  destruct (reachable_wf Hbogus a st Hreach) as [Hc Hr].
  assert (Hrd : ready a st) by (apply Hr; congruence).
  split; [now apply process_term_spec|].
  unfold next. rewrite Hb.
  destruct (next_loop_spec a (upcoming b) st (current b) Hc Hrd)
    as (r & -> & Hobs & _).
  exact Hobs.
Qed.

Lemma term_pipeline_witness :
  let st := snd (@reset tracing_platform
                   (@text_token_stream tracing_platform traced_english)
                   "The Cats") in
  let b := @mk_break_iterator 0 [(3, 200); (4, 0); (8, 200)] in
  @isBogus tracing_platform (@bogus_locale tracing_platform) = true
  /\ @reachable tracing_platform traced_english st
  /\ @break_iterator tracing_platform st = Some b
  /\ fst <$> @process_term tracing_platform st "The" = Some false
  /\ @observe tracing_platform (@next tracing_platform st)
     = Some (Emitted "catsnlts" 4 8).
Proof.
  cbv zeta.
  assert (H1 : @isBogus tracing_platform (@bogus_locale tracing_platform) = true)
    by reflexivity.
  assert (H2 : @reachable tracing_platform traced_english
                 (snd (@reset tracing_platform
                         (@text_token_stream tracing_platform traced_english)
                         "The Cats")))
    by (apply reach_reset, reach_new).
  assert (H3 : @break_iterator tracing_platform
                 (snd (@reset tracing_platform
                         (@text_token_stream tracing_platform traced_english)
                         "The Cats"))
               = Some (@mk_break_iterator 0 [(3, 200); (4, 0); (8, 200)]))
    by (vm_compute; reflexivity).
  split; [exact H1|]. split; [exact H2|]. split; [exact H3|].
  destruct (@term_pipeline tracing_platform traced_english _ _ "The" H1 H2 H3)
    as [Hterm Hnext].
  rewrite Hterm, Hnext. split; vm_compute; reflexivity.
Defined.






End StreamClaims.

(** ** The delimited analyzer: quoted fields *)

Module QuotedFields.
Import Int IntFacts Delimited DelimitedSpec DelimitedFacts DelimitedQuoting.

(** The bytes between [start] and the scan position, the scan position
    being the end of [pre]. *)
Lemma slice_pending (pre rest : bytes) (start : nat) :
  (start <= length pre)%nat ->
  slice (pre ++ rest) start (length pre - start) = skipn start pre.
Proof.
  intros Hle. unfold slice.
  rewrite List.skipn_app, List.firstn_app, List.length_skipn.
  rewrite Nat.sub_diag, List.firstn_all2 by (rewrite List.length_skipn; lia).
  cbn [firstn]. now rewrite app_nil_r.
Qed.

Lemma is_quote_true c : is_quote c = true -> c = x22.
Proof. apply byte_dec_bl. Qed.

Lemma escape_cons c field :
  escape (c :: field)
  = (if is_quote c then [x22; x22] else [c]) ++ escape field.
Proof. reflexivity. Qed.

(** The loop of [eval_term] over the body of a quoted field: it ends
    behind the closing quote with the field in the buffer. *)
Lemma eval_term_loop_escape : forall (field pre buf : bytes) (start : nat),
  (start <= length pre)%nat ->
  eval_term_loop (pre ++ escape field ++ [x22]) (length pre)
    (escape field ++ [x22]) false start buf
  = ((length pre + length (escape field) + 1)%nat,
     buf ++ skipn start pre ++ field).
Proof.
  induction field as [|c field IH]; intros pre buf start Hle.
  - cbn [escape flat_map app eval_term_loop].
    change (is_quote x22) with true. cbn [andb].
    rewrite slice_pending by exact Hle.
    cbn [length]. rewrite app_nil_r. apply pair_equal_spec. split; [lia|reflexivity].
  - rewrite escape_cons. destruct (is_quote c) eqn:Hc.
    + apply is_quote_true in Hc. subst c.
      cbn [app eval_term_loop]. change (is_quote x22) with true.
      cbn [andb]. rewrite Nat.eqb_refl.
      rewrite slice_pending by exact Hle.
      replace (pre ++ x22 :: x22 :: escape field ++ [x22])
        with ((pre ++ [x22; x22]) ++ escape field ++ [x22])
        by (now rewrite <- app_assoc).
      replace (S (S (length pre))) with (length (pre ++ [x22; x22]))
        by (rewrite length_app; cbn; lia).
      rewrite IH by (rewrite length_app; cbn; lia).
      rewrite List.skipn_app.
      rewrite (@List.skipn_all2 _ (S (length pre)) pre) by lia.
      replace (S (length pre) - length pre)%nat with 1%nat by lia.
      cbn [skipn app length]. rewrite length_app, <- !app_assoc. cbn [length app].
      apply pair_equal_spec. split; [lia|reflexivity].
    + cbn [app eval_term_loop]. rewrite Hc.
      replace (pre ++ c :: escape field ++ [x22])
        with ((pre ++ [c]) ++ escape field ++ [x22])
        by (now rewrite <- app_assoc).
      replace (S (length pre)) with (length (pre ++ [c]))
        by (rewrite length_app; cbn; lia).
      rewrite IH by (rewrite length_app; lia).
      rewrite List.skipn_app.
      replace (start - length pre)%nat with 0%nat by lia.
      cbn [skipn length]. rewrite length_app, <- !app_assoc. cbn [length app].
      apply pair_equal_spec. split; [lia|reflexivity].
Qed.

(** Unwrapping undoes the quoted form, whatever the field holds. *)
Lemma eval_term_quote_field (field : bytes) :
  eval_term (quote_field field) = field.
Proof.
  unfold quote_field, eval_term. change (is_quote x22) with true.
  cbn [negb].
  pose proof (eval_term_loop_escape field [x22] [] 1 (le_n 1)) as H.
  cbn [app length skipn] in H. rewrite H.
  cbn [length]. rewrite length_app. cbn [length].
  destruct (Nat.eqb_spec (1 + length (escape field) + 1) 1) as [?|_]; [lia|].
  cbn [negb andb].
  destruct (Nat.eqb_spec (1 + length (escape field) + 1)
              (S (length (escape field) + 1))) as [_|?]; [reflexivity|lia].
Qed.

(** A body that reads as a field is the escaped field and a quote. *)
Lemma unescape_Some : forall (n : nat) (body field : bytes),
  (length body <= n)%nat ->
  unescape body = Some field -> body = escape field ++ [x22].
Proof.
  induction n as [|n IH]; intros [|c rest] field Hn; cbn [unescape];
    try discriminate; cbn [length] in Hn; [lia|].
  destruct (is_quote c) eqn:Hc.
  - apply is_quote_true in Hc. subst c.
    destruct rest as [|c2 rest2]; [now intros [= <-]|].
    destruct (is_quote c2) eqn:Hc2; [|discriminate].
    apply is_quote_true in Hc2. subst c2.
    destruct (unescape rest2) as [f|] eqn:Hf; [|discriminate].
    intros [= <-]. rewrite escape_cons. change (is_quote x22) with true.
    cbn [app length] in *. do 2 f_equal. apply (IH rest2 f); [lia|exact Hf].
  - destruct (unescape rest) as [f|] eqn:Hf; [|discriminate].
    intros [= <-]. rewrite escape_cons, Hc. cbn [app]. f_equal.
    apply (IH rest f); [lia|exact Hf].
Qed.

(** Behind a closing quote that is not doubled, the loop never moves
    [start] again. *)
Lemma eval_term_loop_closed (data : bytes) : forall (rest : bytes) i start buf,
  (start < i)%nat ->
  fst (eval_term_loop data i rest true start buf) = start.
Proof.
  induction rest as [|c rest IH]; intros i start buf Hlt; [reflexivity|].
  cbn [eval_term_loop]. destruct (is_quote c).
  - cbn [andb]. destruct (Nat.eqb_spec start i) as [?|_]; [lia|reflexivity].
  - apply IH. lia.
Qed.

(** The loop of [eval_term] succeeds exactly on the bodies that read as a
    field. *)
Lemma eval_term_loop_unescape : forall (n : nat) (rest pre buf : bytes)
    (start : nat),
  (length rest <= n)%nat ->
  (1 <= length pre)%nat ->
  (start < length pre \/ start = 1)%nat -> (start <= length pre)%nat ->
  match unescape rest with
  | Some field =>
      eval_term_loop (pre ++ rest) (length pre) rest false start buf
      = (length (pre ++ rest), buf ++ skipn start pre ++ field)
      /\ length (pre ++ rest) <> 1%nat
  | None =>
      let start' :=
        fst (eval_term_loop (pre ++ rest) (length pre) rest false start buf) in
      start' = 1%nat \/ start' <> length (pre ++ rest)
  end.
Proof.
  induction n as [|n IH]; intros [|c rest] pre buf start Hn Hpre Hstart Hle;
    cbn [length] in Hn; try lia.
  - cbn [unescape eval_term_loop fst]. rewrite app_nil_r. lia.
  - cbn [unescape eval_term_loop fst]. rewrite app_nil_r. lia.
  - cbn [unescape eval_term_loop]. destruct (is_quote c) eqn:Hc.
    + apply is_quote_true in Hc. subst c. cbn [andb].
      rewrite slice_pending by exact Hle.
      destruct rest as [|c2 rest2].
      * cbn [eval_term_loop]. rewrite length_app, app_nil_r. cbn [length].
        split; [|lia]. apply pair_equal_spec. split; [lia|reflexivity].
      * cbn [eval_term_loop]. destruct (is_quote c2) eqn:Hc2.
        -- apply is_quote_true in Hc2. subst c2. cbn [andb].
           rewrite Nat.eqb_refl.
           specialize (IH rest2 (pre ++ [x22; x22])
                          (buf ++ skipn start pre) (S (length pre))).
           rewrite <- app_assoc in IH. cbn [app] in IH.
           rewrite length_app in IH. cbn [length] in IH.
           replace (length pre + 2)%nat with (S (S (length pre))) in IH by lia.
           specialize (IH ltac:(cbn [length] in Hn; lia) ltac:(lia)
                          ltac:(lia) ltac:(lia)).
           destruct (unescape rest2) as [f|]; cbn [fmap option_fmap option_map].
           ++ destruct IH as [IH Hlen]. split; [|exact Hlen].
              rewrite IH. apply pair_equal_spec. split; [reflexivity|].
              rewrite List.skipn_app.
              rewrite (@List.skipn_all2 _ (S (length pre)) pre) by lia.
              replace (S (length pre) - length pre)%nat with 1%nat by lia.
              cbn [skipn app]. now rewrite <- !app_assoc.
           ++ exact IH.
        -- cbn [fst]. right.
           rewrite eval_term_loop_closed by lia.
           rewrite length_app. cbn [length]. lia.
    + specialize (IH rest (pre ++ [c]) buf start).
      rewrite <- app_assoc in IH. cbn [app] in IH.
      rewrite length_app in IH. cbn [length] in IH.
      replace (length pre + 1)%nat with (S (length pre)) in IH by lia.
      specialize (IH ltac:(lia) ltac:(lia) ltac:(lia) ltac:(lia)).
      destruct (unescape rest) as [f|]; cbn [fmap option_fmap option_map].
      * destruct IH as [IH Hlen]. split; [|exact Hlen].
        rewrite IH. apply pair_equal_spec. split; [reflexivity|].
        rewrite List.skipn_app.
        replace (start - length pre)%nat with 0%nat by lia.
        cbn [skipn]. now rewrite <- !app_assoc.
      * exact IH.
Qed.

(** X1: [eval_term] decodes the quoted form and nothing else: a field in
    quoted form (its quotes doubled, the whole between two quotes) is
    unwrapped to the field, whatever the field holds, and every other
    sequence of bytes (not opening with a quote, never closed, or with a
    single quote inside) is returned as it is. *)
Theorem eval_term_decodes_quoted_form :
  (forall field, eval_term (quote_field field) = field)
  /\ (forall data,
        (forall field, data <> quote_field field) -> eval_term data = data).
Proof.
  split; [apply eval_term_quote_field|].
  intros [|c rest] Hnot; [reflexivity|].
  unfold eval_term. destruct (is_quote c) eqn:Hc; [|reflexivity].
  apply is_quote_true in Hc. subst c. cbn [negb].
  pose proof (eval_term_loop_unescape (length rest) rest [x22] [] 1
                (le_n _) (le_n _) (or_intror eq_refl) (le_n _)) as Hloop.
  cbn [app length] in Hloop.
  destruct (unescape rest) as [field|] eqn:Hf.
  - apply (unescape_Some (length rest)) in Hf; [|lia].
    exfalso. apply (Hnot field). unfold quote_field. now rewrite Hf.
  - cbn zeta in Hloop.
    destruct (eval_term_loop (x22 :: rest) 1 rest false 1 []) as [start' buf].
    cbn [fst] in Hloop. cbn [length].
    destruct Hloop as [->|Hne]; [reflexivity|].
    destruct (Nat.eqb_spec start' (S (length rest))) as [?|_]; [lia|].
    now rewrite andb_false_r.
Qed.

(** A quote is never the start of a plain delimiter. *)
Lemma memcmp_eq_quote (d rest : bytes) :
  plain_delimiter d -> memcmp_eq (x22 :: rest) d = false.
Proof.
  destruct d as [|c d]; [easy|]. cbn [plain_delimiter memcmp_eq].
  intros Hc. destruct (Byte.eqb x22 c) eqn:E; [|reflexivity].
  apply byte_dec_bl in E. subst c. discriminate Hc.
Qed.

Lemma find_delimiter_loop_here (d rest : bytes) (i : nat) :
  d <> [] -> find_delimiter_loop d i false (d ++ rest) = Some i.
Proof.
  destruct d as [|c d]; [easy|]. intros _.
  change ((c :: d) ++ rest) with (c :: d ++ rest).
  cbn [find_delimiter_loop].
  change (c :: d ++ rest) with ((c :: d) ++ rest).
  destruct (Nat.ltb_spec (length ((c :: d) ++ rest)) (length (c :: d)))
    as [Hlt|_]; [rewrite length_app in Hlt; lia|].
  rewrite memcmp_eq_app. cbn [length Nat.eqb negb andb].
  now rewrite orb_true_r.
Qed.

Lemma plain_delimiter_nonempty d : plain_delimiter d -> d <> [].
Proof. now destruct d. Qed.

(** Inside a quoted field the scan takes no byte for a delimiter: it
    stops at the delimiter behind the closing quote. *)
Lemma find_delimiter_loop_quoted (d rest : bytes) :
  plain_delimiter d ->
  forall field i,
    find_delimiter_loop d i true (escape field ++ x22 :: d ++ rest)
    = Some (i + length (escape field) + 1)%nat.
Proof.
  intros Hd. induction field as [|c field IH]; intros i.
  - cbn [escape flat_map app find_delimiter_loop length].
    change (is_quote x22) with true. cbn [negb].
    rewrite find_delimiter_loop_here by now apply plain_delimiter_nonempty.
    f_equal. lia.
  - rewrite escape_cons. destruct (is_quote c) eqn:Hc.
    + cbn [app find_delimiter_loop]. change (is_quote x22) with true.
      cbn [negb].
      destruct (Nat.ltb_spec
                  (length (x22 :: escape field ++ x22 :: d ++ rest))
                  (length d)) as [Hlt|_].
      { cbn [length] in Hlt. rewrite !length_app in Hlt.
        cbn [length] in Hlt. rewrite length_app in Hlt. lia. }
      rewrite memcmp_eq_quote by exact Hd. cbn [andb].
      rewrite IH. cbn [length]. f_equal. lia.
    + cbn [app find_delimiter_loop]. rewrite Hc. cbn [negb].
      rewrite IH. cbn [length]. f_equal. lia.
Qed.

(** ... or runs to the end of the data when the field is the last one. *)
Lemma find_delimiter_loop_quoted_end (d : bytes) :
  plain_delimiter d ->
  forall field i,
    find_delimiter_loop d i true (escape field ++ [x22]) = None.
Proof.
  intros Hd. induction field as [|c field IH]; intros i.
  - reflexivity.
  - rewrite escape_cons. destruct (is_quote c) eqn:Hc.
    + cbn [app find_delimiter_loop]. change (is_quote x22) with true.
      cbn [negb].
      destruct (_ <? _)%nat; [reflexivity|].
      rewrite memcmp_eq_quote by exact Hd. cbn [andb]. apply IH.
    + cbn [app find_delimiter_loop]. rewrite Hc. cbn [negb]. apply IH.
Qed.

Lemma find_delimiter_quote_field (d rest field : bytes) :
  plain_delimiter d ->
  find_delimiter (Some (quote_field field ++ d ++ rest)) (Some d)
  = length (quote_field field).
Proof.
  intros Hd. unfold find_delimiter, quote_field, contents.
  change ((x22 :: escape field ++ [x22]) ++ d ++ rest)
    with (x22 :: (escape field ++ [x22]) ++ d ++ rest).
  cbn [find_delimiter_loop].
  destruct (Nat.ltb_spec
              (length (x22 :: (escape field ++ [x22]) ++ d ++ rest))
              (length d)) as [Hlt|_].
  { cbn [length] in Hlt. rewrite !length_app in Hlt. lia. }
  rewrite memcmp_eq_quote by exact Hd. cbn [andb].
  change (is_quote x22) with true.
  rewrite <- app_assoc. cbn [app].
  rewrite find_delimiter_loop_quoted by exact Hd.
  cbn [length]. rewrite length_app. cbn [length]. lia.
Qed.

Lemma find_delimiter_quote_field_end (d field : bytes) :
  plain_delimiter d ->
  find_delimiter (Some (quote_field field)) (Some d)
  = length (quote_field field).
Proof.
  intros Hd. unfold find_delimiter, quote_field, contents, size, contents.
  cbn [find_delimiter_loop].
  destruct (_ <? _)%nat; [reflexivity|].
  rewrite memcmp_eq_quote by exact Hd. cbn [andb].
  change (is_quote x22) with true.
  now rewrite find_delimiter_loop_quoted_end.
Qed.

Lemma next_start_reset s input : next_start (snd (reset s input)) = 0.
Proof.
  unfold next_start, reset. cbn [snd offset_ end_ delim_].
  apply wrap32_neg_cancel.
Qed.

Lemma skipn_app_app (a b c : bytes) :
  skipn (length a + length b) (a ++ b ++ c) = c.
Proof.
  rewrite app_assoc, <- length_app.
  rewrite List.skipn_app, Nat.sub_diag, List.skipn_all. reflexivity.
Qed.

Lemma firstn_app_exact (a b : bytes) : firstn (length a) (a ++ b) = a.
Proof.
  rewrite List.firstn_app, Nat.sub_diag, List.firstn_all. cbn.
  now rewrite app_nil_r.
Qed.

(** The stream reads a line of quoted fields back field by field. *)
Lemma tokens_quoted (d : bytes) :
  plain_delimiter d ->
  forall fields field s fuel,
    delim_ s = Some d ->
    data_ s = Some (join d (map quote_field (field :: fields))) ->
    next_start s
    + Z.of_nat (length (join d (map quote_field (field :: fields))))
    <= uint32_max ->
    (length (join d (map quote_field (field :: fields))) < fuel)%nat ->
    map tok_term (tokens fuel s) = field :: fields.
Proof.
  intros Hd. induction fields as [|g fields IH];
    intros field s fuel Hdel Hdata Hfit Hfuel;
    (destruct fuel as [|fuel]; [lia|]);
    pose proof (wrap32_range (end_ (offset_ s)
                  + wrap32 (Z.of_nat (size (delim_ s))))) as Hr;
    fold (next_start s) in Hr.
  - cbn [map join] in *. cbn [tokens].
    rewrite (next_fits s _ Hdata);
      rewrite Hdel, find_delimiter_quote_field_end by exact Hd; [|lia].
    rewrite Nat.leb_refl. rewrite tokens_null by reflexivity.
    unfold current. cbn [map tok_term term_ null contents].
    now rewrite List.firstn_all, eval_term_quote_field.
  - change (join d (map quote_field (field :: g :: fields)))
      with (quote_field field ++ d ++ join d (map quote_field (g :: fields)))
      in *.
    set (rest := join d (map quote_field (g :: fields))) in *.
    assert (Hne : (0 < length d)%nat)
      by (destruct d; [destruct Hd|cbn; lia]).
    rewrite !length_app in Hfit, Hfuel.
    cbn [tokens].
    rewrite (next_fits s _ Hdata);
      rewrite Hdel, find_delimiter_quote_field by exact Hd; [|lia].
    destruct (Nat.leb_spec (length (quote_field field ++ d ++ rest))
                           (length (quote_field field))) as [Hle|_];
      [rewrite !length_app in Hle; lia|].
    change (size (Some d)) with (length d).
    rewrite wrap64_small by (unfold uint32_max in *; lia).
    replace (Z.to_nat (Z.max 1 (Z.of_nat (length (quote_field field))
                                + Z.of_nat (length d))))
      with (length (quote_field field) + length d)%nat by lia.
    rewrite skipn_app_app, firstn_app_exact, eval_term_quote_field.
    cbn [null].
    match goal with |- context [tokens fuel ?s1] => set (s' := s1) end.
    assert (Hstart' : next_start s'
                      = next_start s + Z.of_nat (length (quote_field field))
                        + Z.of_nat (length d)).
    { unfold next_start at 1. subst s'. cbn [offset_ end_ delim_].
      change (size (Some d)) with (length d).
      rewrite (wrap32_small (Z.of_nat (length d))) by (unfold uint32_max in *; lia).
      apply wrap32_small. unfold uint32_max in *. lia. }
    cbn [map]. f_equal.
    apply IH; [reflexivity|reflexivity| |]; fold rest.
    + rewrite Hstart'. lia.
    + lia.
Qed.

(** X2: a line of fields written in quoted form and joined with a plain
    delimiter is read back field by field: the terms of the tokens are the
    fields, whatever bytes the fields hold (delimiters and quotes
    included). *)
Theorem quoted_fields_round_trip
    (s : delimited_token_stream) (d : bytes) (fields : list bytes) :
  delim_ s = Some d ->
  plain_delimiter d ->
  fields <> [] ->
  Z.of_nat (length (join d (map quote_field fields))) <= uint32_max ->
  map tok_term
    (all_tokens (snd (reset s (Some (join d (map quote_field fields))))))
  = fields.
Proof.
  intros Hdel Hd Hne Hfit. destruct fields as [|field fields]; [easy|].
  unfold all_tokens, remaining. cbn [reset snd data_].
  apply (tokens_quoted d Hd); try reflexivity.
  - exact Hdel.
  - match goal with |- next_start ?s0 + _ <= _ =>
      change s0 with (snd (reset s (Some (join d (map quote_field (field :: fields))))))
    end.
    rewrite next_start_reset. lia.
  - lia.
Qed.

Lemma quoted_fields_round_trip_witness :
  let d := [x2c] in
  let fields := [[x61; x2c; x62]; []; [x22]; [x63]] in
  map tok_term
    (all_tokens (snd (reset (make (Some d))
                       (Some (join d (map quote_field fields))))))
  = fields.
Proof.
  apply (quoted_fields_round_trip (make (Some [x2c])) [x2c]
           [[x61; x2c; x62]; []; [x22]; [x63]]).
  - reflexivity.
  - reflexivity.
  - discriminate.
  - vm_compute. discriminate.
Defined.

End QuotedFields.

(** ** The delimited analyzer: offsets and the edge cases of the delimiter *)

Module DelimitedEdges.
Import Int IntFacts Delimited DelimitedSpec DelimitedFacts DelimitedQuoting QuotedFields.

(** Tokens placed one behind the other, whose raw fields re-join to the
    rest of the input, each cover their raw field in the input. *)
Lemma placed_located (d : bytes) : forall (l : list token) (pre suf : bytes),
  l <> [] ->
  placed (Z.of_nat (length d)) (Z.of_nat (length pre)) l ->
  join d (map tok_payload l) = suf ->
  Forall (located (pre ++ suf)) l.
Proof.
  induction l as [|t l IH]; intros pre suf Hne Hplaced Hjoin; [easy|].
  destruct Hplaced as (Hstart & Hend & Hrest).
  assert (Hhere : forall tail,
             located (pre ++ tok_payload t ++ tail) t).
  { intros tail. unfold located. rewrite Hstart, Nat2Z.id.
    repeat split; [lia|lia|].
    unfold slice. rewrite List.skipn_app, Nat.sub_diag.
    rewrite List.skipn_all. cbn [app skipn].
    apply firstn_app_exact. }
  destruct l as [|t2 l].
  - cbn [map join] in Hjoin. subst suf. constructor; [|constructor].
    specialize (Hhere []). now rewrite app_nil_r in Hhere.
  - change (join d (map tok_payload (t :: t2 :: l)))
      with (tok_payload t ++ d ++ join d (map tok_payload (t2 :: l)))
      in Hjoin.
    subst suf. constructor; [apply Hhere|].
    replace (pre ++ tok_payload t ++ d ++ join d (map tok_payload (t2 :: l)))
      with ((pre ++ tok_payload t ++ d) ++ join d (map tok_payload (t2 :: l)))
      by (now rewrite <- !List.app_assoc).
    apply IH; [easy| |reflexivity].
    rewrite !length_app. rewrite Hend in Hrest.
    replace (Z.of_nat (length pre + (length (tok_payload t) + length d)))
      with (Z.of_nat (length pre) + Z.of_nat (length (tok_payload t))
            + Z.of_nat (length d)) by lia.
    exact Hrest.
Qed.

(** X4: on an input of at most [2^32 - 1] bytes, the offsets of every
    token are the byte span of its raw field: the bytes of the input from
    [start] to [end] are the payload, for every delimiter and with quoted
    fields as well. *)
Theorem offsets_locate_payload
    (s : delimited_token_stream) (input : bytes) :
  Z.of_nat (length input) <= uint32_max ->
  Forall (located input) (all_tokens (snd (reset s (Some input)))).
Proof.
  intros Hfit. unfold all_tokens, remaining. cbn [reset snd data_].
  match goal with |- context [tokens _ ?s1] => set (s0 := s1) end.
  assert (Hstart : next_start s0 = 0) by apply (next_start_reset s (Some input)).
  destruct (tokens_exact (S (length input)) s0 input)
    as (t & l & Htok & Hjoin & Hplaced & _);
    [reflexivity|lia|lia|].
  rewrite Htok. rewrite Hstart in Hplaced.
  apply (placed_located (contents (delim_ s0)) (t :: l) [] input);
    [easy|exact Hplaced|exact Hjoin].
Qed.

Lemma offsets_locate_payload_witness :
  Forall (located [x61; x2c; x22; x62; x2c; x22; x2c; x63])
    (all_tokens (snd (reset (make (Some [x2c]))
                        (Some [x61; x2c; x22; x62; x2c; x22; x2c; x63])))).
Proof.
  apply (offsets_locate_payload (make (Some [x2c]))
           [x61; x2c; x22; x62; x2c; x22; x2c; x63]).
  vm_compute. discriminate.
Defined.

(** X5: without a delimiter (the null reference) the whole input is one
    token, taken verbatim: its term and payload are the input, quotes
    included, and its offsets are [0] and the size of the input. *)
Theorem null_delimiter_yields_the_input
    (s : delimited_token_stream) (input : bytes) :
  delim_ s = None ->
  Z.of_nat (length input) <= uint32_max ->
  all_tokens (snd (reset s (Some input)))
  = [mk_token input input 0 (Z.of_nat (length input))].
Proof.
  intros Hdel Hfit. unfold all_tokens, remaining. cbn [reset snd data_].
  match goal with |- context [tokens _ ?s1] => set (s0 := s1) end.
  assert (Hstart : next_start s0 = 0) by apply (next_start_reset s (Some input)).
  assert (Hd0 : delim_ s0 = None) by exact Hdel.
  assert (Hfind : find_delimiter (Some input) (delim_ s0) = length input)
    by now rewrite Hd0.
  cbn [tokens].
  rewrite (next_fits s0 input eq_refl) by (rewrite Hstart, Hfind; lia).
  rewrite Hfind, Hstart, Hd0, Nat.leb_refl, List.firstn_all.
  rewrite tokens_null by reflexivity.
  reflexivity.
Qed.

Lemma null_delimiter_yields_the_input_witness :
  all_tokens (snd (reset (make None) (Some [x22; x61; x2c; x62; x22])))
  = [mk_token [x22; x61; x2c; x62; x22] [x22; x61; x2c; x62; x22] 0 5].
Proof.
  apply (null_delimiter_yields_the_input (make None) [x22; x61; x2c; x62; x22]).
  - reflexivity.
  - vm_compute. discriminate.
Defined.

(** The scan for the empty delimiter stops behind the first byte. *)
Lemma find_delimiter_empty (c : byte) (rest : bytes) :
  is_quote c = false ->
  find_delimiter (Some (c :: rest)) (Some []) = 1%nat.
Proof.
  intros Hc. unfold find_delimiter, size, contents.
  cbn [find_delimiter_loop length Nat.ltb Nat.leb memcmp_eq Nat.eqb negb
       orb andb].
  rewrite Hc. destruct rest as [|c2 rest]; reflexivity.
Qed.

Lemma tokens_single_bytes : forall (input : bytes) s fuel,
  input <> [] ->
  Forall (fun c => is_quote c = false) input ->
  delim_ s = Some [] ->
  data_ s = Some input ->
  next_start s + Z.of_nat (length input) <= uint32_max ->
  (length input < fuel)%nat ->
  tokens fuel s = single_bytes (next_start s) input.
Proof.
  induction input as [|c input IH]; intros s fuel Hne Hfree Hdel Hdata Hfit Hfuel;
    [easy|].
  destruct fuel as [|fuel]; [cbn in Hfuel; lia|].
  pose proof (wrap32_range (end_ (offset_ s)
                + wrap32 (Z.of_nat (size (delim_ s))))) as Hr.
  fold (next_start s) in Hr.
  apply Forall_cons_iff in Hfree as [Hc Hfree].
  cbn [length] in Hfit, Hfuel.
  cbn [tokens].
  rewrite (next_fits s _ Hdata);
    rewrite Hdel, find_delimiter_empty by exact Hc; [|lia].
  cbn [null firstn size contents length].
  rewrite wrap64_small by (cbn; lia).
  change (Z.to_nat (Z.max 1 (Z.of_nat 1 + Z.of_nat 0))) with 1%nat.
  cbn [skipn]. rewrite take_0, drop_0.
  rewrite (eval_term_unquoted [c]) by exact Hc.
  destruct input as [|c2 input].
  - cbn [length Nat.leb]. rewrite tokens_null by reflexivity. reflexivity.
  - cbn [length Nat.leb].
    match goal with |- context [tokens fuel ?s1] => set (s' := s1) end.
    assert (Hstart' : next_start s' = next_start s + 1).
    { unfold next_start at 1. subst s'. cbn [offset_ end_ delim_ size contents length].
      change (wrap32 (Z.of_nat 0)) with 0. rewrite Z.add_0_r.
      apply wrap32_small. unfold uint32_max in *. lia. }
    rewrite (IH s' fuel); [|easy|exact Hfree|reflexivity|reflexivity| |].
    + rewrite Hstart'. reflexivity.
    + rewrite Hstart'. cbn [length] in *. lia.
    + cbn [length] in *. lia.
Qed.

(** X6: the empty (non-null) delimiter never matches at the start of what
    is left, so the scan takes one byte at a time: an input without quotes
    is read as one token per byte, each at its own offset. *)
Theorem empty_delimiter_splits_bytes
    (s : delimited_token_stream) (input : bytes) :
  delim_ s = Some [] ->
  input <> [] ->
  Forall (fun c => is_quote c = false) input ->
  Z.of_nat (length input) <= uint32_max ->
  all_tokens (snd (reset s (Some input))) = single_bytes 0 input.
Proof.
  intros Hdel Hne Hfree Hfit. unfold all_tokens, remaining.
  cbn [reset snd data_].
  match goal with |- context [tokens _ ?s1] => set (s0 := s1) end.
  assert (Hstart : next_start s0 = 0) by apply (next_start_reset s (Some input)).
  rewrite (tokens_single_bytes input s0 (S (length input)));
    [now rewrite Hstart|exact Hne|exact Hfree|exact Hdel|reflexivity
    |rewrite Hstart; lia|lia].
Qed.

Lemma empty_delimiter_splits_bytes_witness :
  all_tokens (snd (reset (make (Some [])) (Some [x61; x62; x63])))
  = [mk_token [x61] [x61] 0 1; mk_token [x62] [x62] 1 2;
     mk_token [x63] [x63] 2 3].
Proof.
  apply (empty_delimiter_splits_bytes (make (Some [])) [x61; x62; x63]).
  - reflexivity.
  - discriminate.
  - repeat constructor.
  - vm_compute. discriminate.
Defined.

Lemma memcmp_eq_complete (d p : bytes) :
  firstn (length d) p = d -> memcmp_eq p d = true.
Proof.
  intros H. rewrite <- (List.firstn_skipn (length d) p), H.
  apply memcmp_eq_app.
Qed.

(** In data without quotes the scan stops at the first occurrence of the
    delimiter. *)
Lemma find_delimiter_loop_first (d : bytes) :
  d <> [] ->
  forall (rest : bytes) (i : nat),
    Forall (fun c => is_quote c = false) rest ->
    match find_delimiter_loop d i false rest with
    | Some k => forall j, (i + j < k)%nat -> ~ occurs_at d j rest
    | None => forall j, ~ occurs_at d j rest
    end.
Proof.
  intros Hd. induction rest as [|c rest IH]; intros i Hfree.
  - cbn [find_delimiter_loop]. intros j [Hlen _].
    destruct d; [easy|cbn in Hlen; lia].
  - cbn [find_delimiter_loop].
    destruct (Nat.ltb_spec (length (c :: rest)) (length d)) as [Hlt|Hge].
    { intros j [Hlen _]. lia. }
    destruct (memcmp_eq (c :: rest) d) eqn:Hm; cbn [andb].
    + assert (Hz : (negb (i =? 0)%nat || negb (length d =? 0)%nat) = true).
      { destruct d; [easy|]. cbn. apply orb_true_r. }
      rewrite Hz. intros j Hj. lia.
    + apply Forall_cons_iff in Hfree as [Hc Hfree]. rewrite Hc.
      specialize (IH (S i) Hfree).
      assert (Hzero : ~ occurs_at d 0 (c :: rest)).
      { intros [_ Hocc]. cbn [skipn] in Hocc.
        apply memcmp_eq_complete in Hocc. congruence. }
      destruct (find_delimiter_loop d (S i) false rest) as [k|].
      * intros [|j] Hj [Hlen Hocc]; [now apply Hzero|].
        apply (IH j); [lia|]. split; [cbn [length] in Hlen; lia|exact Hocc].
      * intros [|j] [Hlen Hocc]; [now apply Hzero|].
        apply (IH j). split; [cbn [length] in Hlen; lia|exact Hocc].
Qed.

(** A property of the tokens follows from an invariant of the stream that
    every successful [next] keeps. *)
Lemma tokens_Forall (P : token -> Prop) (I : delimited_token_stream -> Prop) :
  (forall s s', I s -> next s = (true, s') -> P (current s') /\ I s') ->
  forall fuel s, I s -> Forall P (tokens fuel s).
Proof.
  intros Hstep. induction fuel as [|fuel IH]; intros s Hs; [constructor|].
  cbn [tokens]. destruct (next s) as [[] s'] eqn:Hn; [|constructor].
  destruct (Hstep s s' Hs Hn) as [HP HI].
  constructor; [exact HP|now apply IH].
Qed.

Lemma occurs_at_firstn (d data : bytes) (j k : nat) :
  occurs_at d j (firstn k data) -> occurs_at d j data /\ (j + length d <= k)%nat.
Proof.
  intros [Hlen Hocc]. rewrite List.length_firstn in Hlen.
  split; [split; [lia|]|lia].
  rewrite List.skipn_firstn_comm, List.firstn_firstn in Hocc.
  now rewrite Nat.min_l in Hocc by lia.
Qed.

(** X3: split on a non-empty delimiter, an input without quotes yields
    raw fields that hold no occurrence of the delimiter, and each term is
    its raw field. *)
Theorem unquoted_fields_hold_no_delimiter
    (s : delimited_token_stream) (d input : bytes) :
  delim_ s = Some d ->
  d <> [] ->
  Forall (fun c => is_quote c = false) input ->
  Forall (fun t => tok_term t = tok_payload t
                   /\ forall j, ~ occurs_at d j (tok_payload t))
         (all_tokens (snd (reset s (Some input)))).
Proof.
  intros Hdel Hd Hfree. unfold all_tokens.
  apply (tokens_Forall _
           (fun st => delim_ st = Some d
                      /\ Forall (fun c => is_quote c = false)
                                (contents (data_ st)))).
  - clear s input Hdel Hfree. intros s s' [Hdel Hfree]. unfold next.
    destruct (data_ s) as [data|] eqn:Hdata; [|discriminate].
    destruct (uint32_max <? _); [discriminate|]. intros [= <-].
    cbn [contents] in Hfree. rewrite Hdel. cbn [null].
    unfold current. cbn [tok_term tok_payload term_ payload_ contents delim_ data_].
    set (sz := find_delimiter (Some data) (Some d)).
    repeat split.
    + apply eval_term_unquoted.
      assert (Hf : Forall (fun c => is_quote c = false) (firstn sz data))
        by now apply Forall_take.
      destruct Hf; [exact I|assumption].
    + intros j Hocc. apply occurs_at_firstn in Hocc as [Hocc Hj].
      pose proof (find_delimiter_loop_first d Hd data 0 Hfree) as Hfirst.
      subst sz. unfold find_delimiter, contents in Hj.
      destruct (find_delimiter_loop d 0 false data) as [k|].
      * apply (Hfirst j); [|exact Hocc].
        destruct d; [easy|cbn [length] in Hj; lia].
      * now apply (Hfirst j).
    + destruct (_ <=? _)%nat; cbn [contents]; [constructor|].
      now apply Forall_drop.
  - cbn [reset snd delim_ data_ contents]. now split.
Qed.

Lemma unquoted_fields_hold_no_delimiter_witness :
  Forall (fun t => tok_term t = tok_payload t
                   /\ forall j, ~ occurs_at [x2c; x20] j (tok_payload t))
         (all_tokens (snd (reset (make (Some [x2c; x20]))
                             (Some [x61; x2c; x62; x2c; x20; x63])))).
Proof.
  apply (unquoted_fields_hold_no_delimiter (make (Some [x2c; x20]))
           [x2c; x20] [x61; x2c; x62; x2c; x20; x63]).
  - reflexivity.
  - discriminate.
  - repeat constructor.
Defined.

End DelimitedEdges.

(** ** The delimited analyzer: the configuration round trip *)

Module DelimitedCodecFacts.
Import Int IntFacts Delimited DelimitedSpec DelimitedFacts Text DelimitedCodec DelimitedCodecSpec Examples.

Lemma ascii_of_byte_zero (b : byte) :
  Ascii.eqb (ascii_of_byte b) NUL = Byte.eqb b x00.
Proof. destruct b; reflexivity. Qed.

(** Written as a string and read back as a C string, a delimiter is cut
    at its first byte [0]. *)
Lemma c_str_cut_at_zero (d : bytes) :
  ref_cast_byte (c_str (ref_cast_char d)) = cut_at_zero d.
Proof.
  unfold ref_cast_byte, ref_cast_char.
  induction d as [|b d IH]; [reflexivity|].
  change (string_of_list_byte (b :: d))
    with (String (ascii_of_byte b) (string_of_list_byte d)).
  cbn [c_str cut_at_zero]. rewrite ascii_of_byte_zero.
  destruct (Byte.eqb b x00); [reflexivity|].
  change (list_byte_of_string (String (ascii_of_byte b)
                                 (c_str (string_of_list_byte d))))
    with (byte_of_ascii (ascii_of_byte b)
          :: list_byte_of_string (c_str (string_of_list_byte d))).
  now rewrite byte_of_ascii_of_byte, IH.
Qed.

Lemma cut_at_zero_id (d : bytes) :
  Forall (fun b => b <> x00) d -> cut_at_zero d = d.
Proof.
  induction 1 as [|b d Hb _ IH]; [reflexivity|].
  cbn [cut_at_zero]. destruct (Byte.eqb b x00) eqn:E.
  - apply byte_dec_bl in E. contradiction.
  - now rewrite IH.
Qed.

(** What [next] does depends on the delimiter, the data and the offset
    only; a successful call overwrites the rest. *)
Lemma next_congr (s1 s2 : delimited_token_stream) :
  delim_ s1 = delim_ s2 -> data_ s1 = data_ s2 -> offset_ s1 = offset_ s2 ->
  match next s1, next s2 with
  | (true, s1'), (true, s2') => s1' = s2'
  | (false, _), (false, _) => True
  | _, _ => False
  end.
Proof.
  unfold next. intros -> -> ->.
  destruct (data_ s2); [|exact I].
  destruct (uint32_max <? _); [exact I|reflexivity].
Qed.

Lemma tokens_congr (fuel : nat) (s1 s2 : delimited_token_stream) :
  delim_ s1 = delim_ s2 -> data_ s1 = data_ s2 -> offset_ s1 = offset_ s2 ->
  tokens fuel s1 = tokens fuel s2.
Proof.
  intros Hd Hdata Ho. destruct fuel as [|fuel]; [reflexivity|].
  cbn [tokens]. pose proof (next_congr s1 s2 Hd Hdata Ho) as H.
  destruct (next s1) as [[] s1'], (next s2) as [[] s2']; try easy.
  now subst.
Qed.

Lemma same_tokens_delim (s1 s2 : delimited_token_stream) :
  delim_ s1 = delim_ s2 -> same_tokens s1 s2.
Proof.
  intros Hd input. unfold all_tokens, remaining. cbn [reset snd data_].
  apply tokens_congr; cbn [delim_ data_ offset_]; [exact Hd|reflexivity|].
  now rewrite Hd.
Qed.

(** X7: the configuration written by [to_string] builds an analyzer
    again. In the text format the delimiter comes back byte for byte; in
    the structured format it comes back cut at its first byte [0]. A
    non-null delimiter without such a byte therefore gives an analyzer
    that reads the same tokens from every input, while the null delimiter
    comes back as the empty, non-null one. *)
Theorem delimiter_round_trip `{JsonCodec} (s : delimited_token_stream) :
  json_parse (json_write (config_document (delim_buf_ s)))
  = Some (config_document (delim_buf_ s)) ->
  exists text structured s1 s2,
    (to_string format_text s = Some text
     /\ to_string format_json s = Some structured)
    /\ (make_text (Some text) = s1 /\ make_json structured = Some s2)
    /\ (delim_ s1 = Some (contents (delim_ s))
        /\ delim_ s2 = Some (cut_at_zero (contents (delim_ s))))
    /\ (delim_ s <> None -> same_tokens s1 s)
    /\ (delim_ s <> None ->
        Forall (fun b => b <> x00) (contents (delim_ s)) ->
        same_tokens s2 s).
Proof.
  intros Hread.
  assert (Hs1 : delim_ (make_text (Some (make_text_config (delim_buf_ s))))
                = Some (contents (delim_ s))).
  { unfold make_text, make_text_config, ref_cast_byte, ref_cast_char, delim_buf_.
    cbn [fmap option_fmap option_map make delim_].
    now rewrite list_byte_of_string_of_list_byte. }
  assert (Hs2 : make_json (make_json_config (delim_buf_ s))
                = Some (make (Some (cut_at_zero (contents (delim_ s)))))).
  { unfold make_json, make_json_config. rewrite Hread.
    unfold config_document, make_text. cbn [member find fst snd fmap option_fmap option_map].
    change (String.eqb delimiterParamName delimiterParamName) with true.
    cbn [fmap option_fmap option_map snd].
    now rewrite c_str_cut_at_zero. }
  exists (make_text_config (delim_buf_ s)), (make_json_config (delim_buf_ s)),
         (make_text (Some (make_text_config (delim_buf_ s)))),
         (make (Some (cut_at_zero (contents (delim_ s))))).
  split; [split; reflexivity|].
  split; [split; [reflexivity|exact Hs2]|].
  split; [split; [exact Hs1|reflexivity]|].
  split.
  - intros Hne. apply same_tokens_delim. rewrite Hs1.
    now destruct (delim_ s).
  - intros Hne Hz. apply same_tokens_delim. cbn [make delim_].
    rewrite (cut_at_zero_id _ Hz). now destruct (delim_ s).
Qed.

Lemma delimiter_round_trip_witness :
  let s := make (Some [x2c; x20]) in
  exists text structured s1 s2,
    (@to_string compact_json format_text s = Some text
     /\ @to_string compact_json format_json s = Some structured)
    /\ (make_text (Some text) = s1
        /\ @make_json compact_json structured = Some s2)
    /\ (delim_ s1 = Some (contents (delim_ s))
        /\ delim_ s2 = Some (cut_at_zero (contents (delim_ s))))
    /\ (delim_ s <> None -> same_tokens s1 s)
    /\ (delim_ s <> None ->
        Forall (fun b => b <> x00) (contents (delim_ s)) ->
        same_tokens s2 s).
Proof.
  apply (@delimiter_round_trip compact_json (make (Some [x2c; x20]))).
  vm_compute. reflexivity.
Defined.

End DelimitedCodecFacts.

(** ** The linguistic analyzer: stopword files, load rules and cache hits *)

Module StopwordFacts.
Import Int Text TextSpec TextFacts StopwordSpec Examples ExampleData ExampleFacts.

Local Open Scope string_scope.

(** The word of a line and what follows it. *)
Lemma first_whitespace_split : forall line : string,
  exists rest,
    line = substring 0 (first_whitespace line) line ++ rest
    /\ no_whitespace (substring 0 (first_whitespace line) line) = true
    /\ blank_start rest = true.
Proof.
  induction line as [|c line (rest & Hline & Hword & Hrest)].
  - exists "". repeat split.
  - cbn [first_whitespace]. destruct (isspace c) eqn:Hc.
    + exists (String c line). cbn. repeat split. exact Hc.
    + exists rest. cbn [substring no_whitespace]. rewrite Hc, Hword.
      split; [|split; [reflexivity|exact Hrest]].
      change (String c line
              = String c (substring 0 (first_whitespace line) line ++ rest)).
      now rewrite <- Hline.
Qed.

Lemma first_whitespace_zero (line : string) :
  first_whitespace line = 0%nat <-> blank_start line = true.
Proof.
  destruct line as [|c line]; cbn; [easy|].
  destruct (isspace c); easy.
Qed.

(** X8: the format of a stopword file, line by line: a line that is empty
    or opens with a whitespace lists nothing; any other line lists the
    word that runs up to its first whitespace (or to its end), which is not
    empty and holds no whitespace. *)
Theorem stopword_line_format (line : string) :
  match line_word line with
  | Some w =>
      w <> "" /\ no_whitespace w = true
      /\ exists rest, line = w ++ rest /\ blank_start rest = true
  | None => blank_start line = true
  end.
Proof.
  unfold line_word.
  destruct (first_whitespace_split line) as (rest & Hline & Hword & Hrest).
  destruct (Nat.ltb_spec 0 (first_whitespace line)) as [Hpos|Hzero].
  - split; [|split; [exact Hword|now exists rest]].
    intros Hempty. rewrite Hempty in Hline.
    change (line = rest) in Hline. subst rest.
    apply first_whitespace_zero in Hrest. lia.
  - apply first_whitespace_zero. lia.
Qed.

Section Resolution.
Context `{Container} `{FileSystem}.
Hypothesis laws : container_laws.

Lemma get_stopwords_spec (buf : stopwords_t) (locale : string)
    (path : option string) :
  match get_stopwords buf locale path with
  | (log, ok, sw) =>
      log = [(path, locale)]
      /\ match directory_words path locale with
         | None => ok = false /\ sw = buf
         | Some words =>
             ok = true /\ forall w, In w sw <-> In w buf \/ In w words
         end
  end.
Proof.
  unfold get_stopwords, directory_words.
  destruct (read_directory _ _) as [files|]; cbn [fmap option_fmap option_map];
    [|now repeat split].
  split; [reflexivity|]. split; [reflexivity|]. intros w.
  rewrite !(insert_range_In laws). cbn [In]. tauto.
Qed.

Lemma explicit_buffer_In (o : options_t) (w : string) :
  In w (if negb (empty (explicit_stopwords o))
        then insert_range [] (explicit_stopwords o)
        else [])
  <-> In w (explicit_stopwords o).
Proof.
  destruct (explicit_stopwords o) as [|x l] eqn:E; [easy|].
  cbn [empty negb]. rewrite (insert_range_In laws). cbn [In]. tauto.
Qed.

End Resolution.

(** X9: the load rules of [build_stopwords]. When a custom path is set,
    its language directory is loaded and merged with the explicit
    stopwords; when there is neither a path nor an explicit list, the
    default location is loaded; in both cases the build fails if the
    directory cannot be read, explicit stopwords or not. Otherwise (an
    explicit list, even an empty one, and no path) nothing is asked of the
    file system and the stopwords are the explicit ones. *)
Theorem stopword_resolution `{Container} `{FileSystem} (o : options_t) :
  container_laws ->
  match build_stopwords o [] with
  | (log, ok, sw) =>
      match stopword_source o with
      | None =>
          log = [] /\ ok = true
          /\ forall w, In w sw <-> In w (explicit_stopwords o)
      | Some path =>
          log = [(path, locale o)]
          /\ match directory_words path (locale o) with
             | None => ok = false
             | Some words =>
                 ok = true
                 /\ forall w, In w sw
                              <-> In w (explicit_stopwords o) \/ In w words
             end
      end
  end.
Proof.
  intros laws. unfold build_stopwords, stopword_source.
  set (buf := if negb (empty (explicit_stopwords o)) then _ else _).
  assert (Hbuf : forall w, In w buf <-> In w (explicit_stopwords o))
    by (intros w; apply (explicit_buffer_In laws)).
  assert (Hload : forall path,
    match get_stopwords buf (locale o) path with
    | (log, ok, sw) =>
        log = [(path, locale o)]
        /\ match directory_words path (locale o) with
           | None => ok = false
           | Some words =>
               ok = true
               /\ forall w, In w sw
                            <-> In w (explicit_stopwords o) \/ In w words
           end
    end).
  { intros path. pose proof (get_stopwords_spec laws buf (locale o) path) as Hg.
    destruct (get_stopwords buf (locale o) path) as [[log ok] sw].
    destruct Hg as [Hlog Hg]. split; [exact Hlog|].
    destruct (directory_words path (locale o)); [|apply Hg].
    destruct Hg as [Hok Hsw]. split; [exact Hok|].
    intros w. rewrite Hsw, Hbuf. reflexivity. }
  destruct (path_is_set (stopwordsPath o)); [apply Hload|].
  destruct (negb (explicit_stopwords_set o) && empty (explicit_stopwords o));
    [apply Hload|].
  repeat split; apply Hbuf.
Qed.

Lemma stopword_resolution_witness :
  match @build_stopwords back_container one_file_system two_stopwords [] with
  | (log, ok, sw) =>
      log = [(Some "", "en")] /\ ok = true
      /\ forall w, In w sw <-> In w ["of"; "the"] \/ In w ["the"; "a"]
  end.
Proof.
  pose proof (@stopword_resolution back_container one_file_system
                two_stopwords back_container_laws) as Hres.
  destruct (@build_stopwords back_container one_file_system two_stopwords [])
    as [[log ok] sw].
  exact Hres.
Defined.

(** X10: what a cache hit spares. The text constructor returns the cached
    entry without asking anything of the file system. The structured
    constructor looks at the cache only after it has parsed the
    configuration and resolved its stopwords: on a hit it makes the same
    file-system requests as on a miss, discards what it resolved in
    favour of the cached entry, and returns no analyzer if the resolution
    fails, although the entry is cached. *)
Theorem cache_hit_resolves_again `{Container} `{FileSystem} `{JsonCodec}
    (c : gmap string cached_options_t) (args : string)
    (members : list (string * json)) (o : options_t) (e : cached_options_t) :
  c !! args = Some e ->
  json_parse args = Some (JObject members) ->
  parse_options members = Some o ->
  make_text c args = ([], c, Some (analyzer_of e))
  /\ make_json c args
     = ((build_stopwords o []).1.1, c,
        if (build_stopwords o []).1.2 then Some (analyzer_of e) else None).
Proof.
  intros Hhit Hparse Hopts. split.
  - unfold make_text, construct1. now rewrite Hhit.
  - unfold make_json. rewrite Hparse, Hopts.
    destruct (build_stopwords o []) as [[log ok] sw]. cbn [fst snd].
    destruct ok; [|reflexivity].
    unfold construct3, try_emplace_update_key. now rewrite Hhit.
Qed.

Lemma cache_hit_resolves_again_witness :
  exists e,
    cache_after_json !! en_config = Some e
    /\ @make_text back_container one_file_system cache_after_json en_config
       = ([], cache_after_json, Some (analyzer_of e))
    /\ @make_json back_container one_file_system compact_json
         cache_after_json en_config
       = ([], cache_after_json, Some (analyzer_of e)).
Proof.
  assert (He : cache_after_json !! en_config
               = Some (mk_cached
                         (set_explicit_stopwords_set
                            (set_explicit_stopwords
                               (set_locale default_options "en") ["of"])
                            true)
                         en_config ["of"]))
    by (vm_compute; reflexivity).
  eexists. split; [exact He|].
  exact (@cache_hit_resolves_again back_container one_file_system compact_json
           cache_after_json en_config
           [("locale", JString "en"); ("stopwords", JArray [JString "of"])]
           _ _ He eq_refl eq_refl).
Defined.

End StopwordFacts.

(** ** The linguistic analyzer: the stream after its first [reset] *)

Module StreamLife.
Import Int Text TextSpec TextFacts TextStream StreamSpec StreamFacts.
Import StreamLifeSpec Examples ExampleData.

Local Open Scope string_scope.

Section Life.
Context `{Linguistic}.

Lemma set_stemmer_same (st : state_t) : set_stemmer st (stemmer st) = st.
Proof. now destruct st. Qed.

(** In a state that holds everything, [reset] builds nothing. *)
Lemma reset_ready (a : analyzer) (st : state_t) (input : string) :
  core a st -> ready a st -> break_iterator st <> None ->
  reset st input
  = match append_internal (configured_locale (a_options a)) input with
    | None => (false, st)
    | Some data_utf8 =>
        if (int32_max <? Z.of_nat (String.length data_utf8))%Z then (false, st)
        else (true, setText (set_data st (fromUTF8 data_utf8)))
    end.
Proof.
  intros Hc Hr Hb. unfold reset.
  rewrite (ready_ensure_locale a st Hr), (ready_locale a st Hr).
  destruct (core_locale a st Hc (ready_locale a st Hr)) as [Hl _].
  unfold ensure_normalizer.
  destruct (normalizer st) as [n|] eqn:Hn;
    [|now destruct (ready_normalizer a st Hr)].
  cbn [negb]. unfold ensure_transliterator.
  assert (Ht : match no_accent (options st), transliterator st with
               | true, None =>
                   match createTransliterator with
                   | Some t => (set_transliterator st (Some t), true)
                   | None => (set_transliterator st None, false)
                   end
               | _, _ => (st, true)
               end = (st, true)).
  { destruct (no_accent (options st)) eqn:Hna; [|reflexivity].
    rewrite (core_options a st Hc) in Hna.
    pose proof (ready_transliterator a st Hr Hna) as Hne.
    now destruct (transliterator st). }
  rewrite Ht. cbn [negb]. unfold ensure_break_iterator.
  destruct (break_iterator st) as [b|] eqn:Hbi; [|easy]. cbn [negb].
  assert (Hs : ensure_stemmer st = st).
  { unfold ensure_stemmer.
    destruct (no_stem (options st)) eqn:Hns; [reflexivity|].
    rewrite (core_options a st Hc) in Hns.
    pose proof (ready_stemmer a st Hr Hns) as Hst.
    destruct (stemmer st) eqn:E; [reflexivity|].
    rewrite Hl, <- Hst, <- E. apply set_stemmer_same. }
  rewrite Hs, Hl. reflexivity.
Qed.

Lemma process_term_break_iterator (st st' : state_t) text (b : bool) :
  process_term st text = Some (b, st') ->
  break_iterator st' = break_iterator st.
Proof.
  unfold process_term. destruct (normalizer st); [|discriminate].
  destruct (contains _ _); [now intros [= _ <-]|].
  destruct (stemmer st) as [s|]; [destruct (sb_stemmer_stem s _ _)|];
    now intros [= _ <-].
Qed.

Lemma process_term_false (st st' : state_t) text :
  process_term st text = Some (false, st') -> st' = st.
Proof.
  unfold process_term. destruct (normalizer st); [|discriminate].
  destruct (contains _ _); [now intros [= <-]|].
  destruct (stemmer st) as [s|]; [destruct (sb_stemmer_stem s _ _)|];
    discriminate.
Qed.

(** [next] leaves the word iterator in place. *)
Lemma next_loop_break_iterator (boundaries : list (Z * Z)) :
  forall st start b st',
    break_iterator st <> None ->
    next_loop st start boundaries = Some (b, st') ->
    break_iterator st' <> None.
Proof.
  induction boundaries as [|[end' status] rest IH]; intros st start b st' Hb;
    cbn [next_loop].
  - now intros [= _ <-].
  - set (st1 := set_break_iterator st _).
    assert (Hb1 : break_iterator st1 <> None) by easy.
    destruct (status =? UBRK_WORD_NONE)%Z; [now apply IH|].
    destruct (process_term st1 _) as [[[] st2]|] eqn:Hp; [| |discriminate].
    + intros [= _ <-]. apply process_term_break_iterator in Hp.
      cbn. now rewrite Hp.
    + apply IH. apply process_term_break_iterator in Hp. now rewrite Hp.
Qed.

(** A false answer of the scan leaves the iterator at the end. *)
Lemma next_loop_exhausted (boundaries : list (Z * Z)) :
  forall st start st',
    next_loop st start boundaries = Some (false, st') ->
    (boundaries = [] /\ st' = st)
    \/ exists e, break_iterator st' = Some (mk_break_iterator e []).
Proof.
  induction boundaries as [|[end' status] rest IH]; intros st start st';
    cbn [next_loop].
  - intros [= <-]. now left.
  - set (st1 := set_break_iterator st _). intros Hn. right.
    assert (Hrest : next_loop st1 end' rest = Some (false, st')).
    { destruct (status =? UBRK_WORD_NONE)%Z; [exact Hn|].
      destruct (process_term st1 _) as [[[] st2]|] eqn:Hp;
        [discriminate| |discriminate].
      apply process_term_false in Hp. now subst st2. }
    destruct (IH _ _ _ Hrest) as [[-> ->]|He]; [|exact He].
    now exists end'.
Qed.

(** Behind the locale, [reset] creates the word iterator only where the
    word instance of the locale can be created. *)
Lemma reset_norm_word_instance (st : state_t) (input : string) :
  (break_iterator st <> None -> createWordInstance (icu_locale st) = true) ->
  break_iterator (snd (reset_norm st input)) <> None ->
  createWordInstance (icu_locale (snd (reset_norm st input))) = true.
Proof.
  unfold reset_norm, reset_mid, reset_tail, ensure_normalizer,
    ensure_transliterator, ensure_break_iterator, ensure_stemmer, setText.
  intros Hst.
  destruct st as [bi d icu loc nrm o sw stem tr term s e].
  cbn in Hst |- *.
  destruct nrm as [n|]; [|destruct getNFCInstance as [n|]]; cbn;
    try (intros Hb; now apply Hst);
    (destruct (no_accent o); [destruct tr as [t|];
                              [|destruct createTransliterator as [t|]]|]);
    cbn; try (intros Hb; now apply Hst);
    (destruct bi as [b|]; [|destruct (createWordInstance icu) eqn:Hw]);
    cbn; try easy;
    (destruct (no_stem o); [|destruct stem]); cbn;
    (destruct (append_internal loc input) as [u|];
       [destruct (int32_max <? _)%Z|]); cbn;
    intros _; try exact Hw; apply Hst; discriminate.
Qed.

Lemma process_term_icu_locale (st st' : state_t) text (b : bool) :
  process_term st text = Some (b, st') -> icu_locale st' = icu_locale st.
Proof.
  unfold process_term. destruct (normalizer st); [|discriminate].
  destruct (contains _ _); [now intros [= _ <-]|].
  destruct (stemmer st) as [s|]; [destruct (sb_stemmer_stem s _ _)|];
    now intros [= _ <-].
Qed.

Lemma next_loop_icu_locale (boundaries : list (Z * Z)) :
  forall st start b st',
    next_loop st start boundaries = Some (b, st') ->
    icu_locale st' = icu_locale st.
Proof.
  induction boundaries as [|[end' status] rest IH]; intros st start b st';
    cbn [next_loop].
  - now intros [= _ <-].
  - set (st1 := set_break_iterator st _).
    change (icu_locale st) with (icu_locale st1).
    destruct (status =? UBRK_WORD_NONE)%Z; [apply IH|].
    destruct (process_term st1 _) as [[[] st2]|] eqn:Hp; [| |discriminate].
    + intros [= _ <-]. apply process_term_icu_locale in Hp. exact Hp.
    + intros Hn. apply IH in Hn. apply process_term_icu_locale in Hp.
      congruence.
Qed.

Section Reached.
Hypothesis bogus_is_bogus : isBogus bogus_locale = true.

(** The word iterator exists only where the word instance of the locale
    can be created. *)
Lemma reachable_word_instance (a : analyzer) (st : state_t) :
  reachable a st ->
  break_iterator st <> None -> createWordInstance (icu_locale st) = true.
Proof.
  induction 1 as [|st input Hreach IH|st b st' Hreach IH Hnext].
  - easy.
  - destruct (reachable_wf bogus_is_bogus a st Hreach) as [Hc Hr].
    rewrite reset_unfold.
    assert (Hloc : break_iterator (ensure_locale st) <> None ->
                   createWordInstance (icu_locale (ensure_locale st)) = true).
    { unfold ensure_locale. destruct (isBogus (icu_locale st)) eqn:Hb;
        [|exact IH].
      cbn. intros Hbi. specialize (Hr Hbi).
      rewrite (ready_locale a st Hr) in Hb. discriminate. }
    destruct (isBogus (icu_locale (ensure_locale st))); [exact Hloc|].
    now apply reset_norm_word_instance.
  - unfold next in Hnext.
    destruct (break_iterator st) as [bi|] eqn:Hb; [|discriminate].
    apply next_loop_icu_locale in Hnext. rewrite Hnext.
    intros _. apply IH. discriminate.
Qed.

(** Where the word iterator exists, [reset] could create it. *)
Lemma reachable_can_iterate (a : analyzer) (st : state_t) :
  reachable a st -> break_iterator st <> None -> can_iterate a = true.
Proof.
  intros Hreach Hb.
  destruct (reachable_wf bogus_is_bogus a st Hreach) as [Hc Hr].
  specialize (Hr Hb).
  pose proof (reachable_word_instance a st Hreach Hb) as Hw.
  destruct (core_locale a st Hc (ready_locale a st Hr)) as [_ Hicu].
  unfold can_iterate. rewrite <- Hicu, (ready_locale a st Hr), Hw.
  destruct (normalizer st) as [n|] eqn:Hn;
    [|now destruct (ready_normalizer a st Hr)].
  rewrite (core_normalizer a st Hc n Hn). cbn [negb andb].
  destruct (no_accent (a_options a)) eqn:Hna; [|reflexivity].
  pose proof (ready_transliterator a st Hr Hna) as Ht.
  destruct (transliterator st) as [t|] eqn:Htr; [|easy].
  destruct (core_transliterator a st Hc t Htr) as [_ ->]. reflexivity.
Qed.

(** Where [reset] can create the word iterator, it does, whatever the
    input. *)
Lemma can_iterate_reset (a : analyzer) (st : state_t) (input : string) :
  reachable a st -> can_iterate a = true ->
  break_iterator (snd (reset st input)) <> None.
Proof.
  intros Hreach Hcan.
  destruct (reachable_wf bogus_is_bogus a st Hreach) as [Hc Hr].
  unfold can_iterate in Hcan.
  apply andb_true_iff in Hcan as [Hcan Hword].
  apply andb_true_iff in Hcan as [Hcan Htrans].
  apply andb_true_iff in Hcan as [Hbogus Hnorm].
  apply negb_true_iff in Hbogus.
  pose proof (core_ensure_locale a st Hc) as Hc1.
  assert (Hicu : icu_locale (ensure_locale st)
                 = configured_icu_locale (a_options a)).
  { unfold ensure_locale. destruct (isBogus (icu_locale st)) eqn:Hb.
    - cbn. unfold configured_icu_locale, configured_locale.
      now rewrite (core_options a st Hc).
    - now apply (core_locale a st Hc). }
  rewrite reset_unfold, Hicu, Hbogus.
  pose proof (core_options a _ Hc1) as Hopt.
  revert Hicu Hopt. generalize (ensure_locale st). clear Hc1 Hr Hc Hreach st.
  intros st Hicu Hopt.
  unfold reset_norm, reset_mid, reset_tail, ensure_normalizer,
    ensure_transliterator, ensure_break_iterator, ensure_stemmer, setText.
  destruct st as [bi d icu loc nrm o sw stem tr term s e].
  cbn in Hicu, Hopt |- *. subst icu o.
  destruct getNFCInstance as [n0|]; [|discriminate].
  assert (Htr : no_accent (a_options a) = true ->
                exists t, createTransliterator = Some t).
  { intros Hna. rewrite Hna in Htrans. cbn in Htrans.
    destruct createTransliterator as [t|]; [now exists t|discriminate]. }
  destruct nrm as [n|]; cbn;
    (destruct (no_accent (a_options a)) eqn:Hna;
       [destruct tr as [t|]; [|destruct (Htr eq_refl) as [t ->]]|]);
    cbn; (destruct bi as [b|]; [|rewrite Hword]); cbn;
    (destruct (no_stem (a_options a)); [|destruct stem]); cbn;
    (destruct (append_internal loc input) as [u|];
       [destruct (int32_max <? _)%Z|]); cbn; discriminate.
Qed.

End Reached.

End Life.

(** X11: once a [reset] has succeeded (the word iterator exists), a later
    [reset] builds nothing anew: it fails exactly when the input does not
    convert to UTF-8 or is longer than [INT32_MAX] bytes, and a failing
    [reset] leaves the stream as it was, positioned in the previous
    text. *)
Theorem reset_after_first_success `{Linguistic}
    (a : analyzer) (st : state_t) (input : string) :
  isBogus bogus_locale = true ->
  reachable a st ->
  break_iterator st <> None ->
  reset st input
  = match append_internal (configured_locale (a_options a)) input with
    | None => (false, st)
    | Some data_utf8 =>
        if (int32_max <? Z.of_nat (String.length data_utf8))%Z then (false, st)
        else (true, setText (set_data st (fromUTF8 data_utf8)))
    end.
Proof.
  intros Hbogus Hreach Hb.
  destruct (reachable_wf Hbogus a st Hreach) as [Hc Hr].
  apply reset_ready; [exact Hc|now apply Hr|exact Hb].
Qed.

Lemma reset_after_first_success_witness :
  let st := snd (@reset ascii_platform (@text_token_stream ascii_platform english)
                   "The Cats sleep") in
  @reset ascii_platform st "dogs"
  = (true, @setText ascii_platform (@set_data ascii_platform st "dogs")).
Proof.
  cbv zeta.
  rewrite (@reset_after_first_success ascii_platform english _ "dogs");
    [reflexivity|reflexivity|apply reach_reset, reach_new
    |vm_compute; discriminate].
Defined.

(** X12: [next] is defined exactly in the states that hold a word
    iterator; a new stream holds none. [reset] leaves one exactly when the
    locale is not bogus and the normalizer, the transliterator (where
    accents are to be stripped) and the word instance of the locale can be
    created, whether or not it then returns [true]: the iterator is
    created before the input is converted, so that [next] is defined even
    after a [reset] that failed on its input. A successful [reset] always
    leaves the iterator; [next] keeps it, and so does every later
    [reset], failed or not. *)
Theorem word_iterator_is_kept `{Linguistic} (a : analyzer) (st : state_t) :
  isBogus bogus_locale = true ->
  reachable a st ->
  break_iterator (text_token_stream a) = None
  /\ (next st = None <-> break_iterator st = None)
  /\ (forall b st', next st = Some (b, st') -> break_iterator st' <> None)
  /\ (forall input,
        break_iterator (snd (reset st input)) <> None
        <-> can_iterate a = true)
  /\ (forall input,
        fst (reset st input) = true \/ break_iterator st <> None ->
        break_iterator (snd (reset st input)) <> None).
Proof.
  intros Hbogus Hreach.
  destruct (reachable_wf Hbogus a st Hreach) as [Hc Hr].
  split; [reflexivity|]. split; [|split; [|split]].
  - unfold next. destruct (break_iterator st) as [b|] eqn:Hb; [|easy].
    assert (Hrd : ready a st) by (apply Hr; congruence).
    destruct (next_loop_spec a (upcoming b) st (current b) Hc Hrd)
      as (r & -> & _). split; discriminate.
  - unfold next. intros b st'.
    destruct (break_iterator st) as [bi|] eqn:Hb; [|discriminate].
    apply next_loop_break_iterator. congruence.
  - intros input. split.
    + apply (reachable_can_iterate Hbogus a). now apply reach_reset.
    + now apply can_iterate_reset.
  - intros input [Hok|Hb].
    + now apply (wf_reset Hbogus a st input).
    + apply (can_iterate_reset Hbogus a st input Hreach).
      now apply (reachable_can_iterate Hbogus a st).
Qed.

Lemma word_iterator_is_kept_witness :
  let fresh := @text_token_stream strict_platform english in
  let st := snd (@reset strict_platform fresh invalid_input) in
  fst (@reset strict_platform fresh invalid_input) = false
  /\ @can_iterate strict_platform english = true
  /\ @break_iterator strict_platform st <> None
  /\ @next strict_platform st <> None.
Proof.
  cbv zeta.
  destruct (@word_iterator_is_kept strict_platform english
              (@text_token_stream strict_platform english)
              eq_refl (reach_new english))
    as (_ & _ & _ & Hreset & _).
  destruct (@word_iterator_is_kept strict_platform english
              (snd (@reset strict_platform
                      (@text_token_stream strict_platform english)
                      invalid_input))
              eq_refl (reach_reset english _ invalid_input (reach_new english)))
    as (_ & Hnext & _).
  assert (Hcan : @can_iterate strict_platform english = true) by reflexivity.
  split; [reflexivity|]. split; [exact Hcan|].
  split; [apply Hreset; exact Hcan|].
  intros Hnone. apply Hnext in Hnone. revert Hnone.
  apply Hreset. exact Hcan.
Defined.

(** X13: exhaustion is stable: once [next] has returned [false], it
    returns [false] again, and changes nothing, until the next
    [reset]. *)
Theorem next_exhausted_is_stable `{Linguistic} (st st' : state_t) :
  next st = Some (false, st') ->
  next st' = Some (false, st').
Proof.
  unfold next at 1. destruct (break_iterator st) as [b|] eqn:Hb;
    [|discriminate].
  intros Hn. destruct (next_loop_exhausted _ _ _ _ Hn) as [[Hnil ->]|[e He]].
  - unfold next. now rewrite Hb, Hnil.
  - unfold next. now rewrite He.
Qed.

Lemma next_exhausted_is_stable_witness :
  let st := snd (@reset ascii_platform (@text_token_stream ascii_platform english)
                   "the ") in
  let st' := match @next ascii_platform st with
             | Some (_, s) => s
             | None => st
             end in
  @next ascii_platform st' = Some (false, st').
Proof.
  apply (@next_exhausted_is_stable ascii_platform
           (snd (@reset ascii_platform
                   (@text_token_stream ascii_platform english) "the "))).
  vm_compute. reflexivity.
Defined.

End StreamLife.

(** ** The linguistic analyzer: a stream read to its end *)

Module StreamRunFacts.
Import Int Text TextSpec TextFacts TextStream StreamSpec StreamFacts StreamRun Examples ExampleData.

Local Open Scope string_scope.

Section Run.
Context `{Linguistic}.

(** One call of the scan: it stops at the first token of the remaining
    boundaries and leaves the iterator behind it. *)
Lemma next_loop_step (a : analyzer) (boundaries : list (Z * Z)) :
  forall st start,
    core a st -> ready a st ->
    match next_loop st start boundaries with
    | None => False
    | Some (false, _) => spec_tokens a (data st) start boundaries = []
    | Some (true, st') =>
        exists e rest,
          spec_tokens a (data st) start boundaries
          = (term_ st', offs_start st', offs_end st')
            :: spec_tokens a (data st) e rest
          /\ break_iterator st' = Some (mk_break_iterator e rest)
          /\ data st' = data st
          /\ (length rest < length boundaries)%nat
          /\ core a st' /\ ready a st'
    end.
Proof.
  induction boundaries as [|[end' status] rest IH]; intros st start Hc Hr;
    cbn [next_loop spec_tokens]; [reflexivity|].
  set (st1 := set_break_iterator st (Some (mk_break_iterator end' rest))).
  assert (Hc1 : core a st1) by now apply core_set_break_iterator.
  assert (Hr1 : ready a st1) by now apply ready_set_break_iterator.
  assert (Hrest :
    match next_loop st1 end' rest with
    | None => False
    | Some (false, _) => spec_tokens a (data st) end' rest = []
    | Some (true, st') =>
        exists e rest',
          spec_tokens a (data st) end' rest
          = (term_ st', offs_start st', offs_end st')
            :: spec_tokens a (data st) e rest'
          /\ break_iterator st' = Some (mk_break_iterator e rest')
          /\ data st' = data st
          /\ (length rest' < length ((end', status) :: rest))%nat
          /\ core a st' /\ ready a st'
    end).
  { specialize (IH st1 end' Hc1 Hr1). change (data st1) with (data st) in IH.
    destruct (next_loop st1 end' rest) as [[[] st']|]; [|exact IH|exact IH].
    destruct IH as (e & rest' & Hs & Hb & Hd & Hl & Hc' & Hr').
    exists e, rest'. cbn [length].
    split; [exact Hs|]. split; [exact Hb|]. split; [exact Hd|].
    split; [lia|]. split; assumption. }
  destruct (status =? UBRK_WORD_NONE)%Z; [exact Hrest|].
  change (data st) with (data st1) at 1.
  rewrite (process_term_spec a st1 _ Hc1 Hr1).
  change (data st1) with (data st).
  destruct (spec_term a _) as [t|]; [|exact Hrest].
  exists end', rest. cbn [length].
  split; [reflexivity|]. split; [reflexivity|]. split; [reflexivity|].
  split; [lia|].
  split; [now apply core_set_offs, core_set_term
         |now apply ready_set_offs, ready_set_term].
Qed.

(** Read to its end, a stream yields the tokens of what its iterator
    still has to visit. *)
Lemma tokens_spec (a : analyzer) : forall (fuel : nat) st cur boundaries,
  core a st -> ready a st ->
  break_iterator st = Some (mk_break_iterator cur boundaries) ->
  (length boundaries < fuel)%nat ->
  tokens fuel st = Some (spec_tokens a (data st) cur boundaries).
Proof.
  induction fuel as [|fuel IH]; intros st cur boundaries Hc Hr Hb Hfuel;
    [lia|].
  cbn [tokens]. unfold next. rewrite Hb. cbn [current upcoming].
  pose proof (next_loop_step a boundaries st cur Hc Hr) as Hstep.
  destruct (next_loop st cur boundaries) as [[[] st']|]; [| |easy].
  - destruct Hstep as (e & rest & Hs & Hb' & Hd & Hl & Hc' & Hr').
    rewrite (IH st' e rest Hc' Hr' Hb') by lia.
    rewrite Hs, Hd. reflexivity.
  - now rewrite Hstep.
Qed.

(** A successful [reset] leaves the converted input and an iterator at
    the start of its boundaries. *)
Lemma reset_success (st st1 : state_t) (input : string) :
  reset st input = (true, st1) ->
  exists u,
    append_internal (locale_ st1) input = Some u
    /\ data st1 = fromUTF8 u
    /\ break_iterator st1
       = Some (mk_break_iterator 0
                 (word_boundaries (icu_locale st1) (fromUTF8 u))).
Proof.
  unfold reset.
  destruct (isBogus _); [discriminate|].
  destruct (ensure_normalizer _) as [st2 []]; [|discriminate]. cbn [negb].
  destruct (ensure_transliterator _) as [st3 []]; [|discriminate]. cbn [negb].
  destruct (ensure_break_iterator _) as [st4 []]; [|discriminate]. cbn [negb].
  destruct (append_internal _ input) as [u|] eqn:Hu; [|discriminate].
  destruct (int32_max <? _)%Z; [discriminate|].
  intros [= <-]. exists u. cbn. repeat split. exact Hu.
Qed.

End Run.

(** X20: read to its end after a successful [reset], the linguistic
    stream yields exactly the tokens that the configuration determines
    from the converted input and its word boundaries: one token for each
    span with linguistic content whose transformed word is no stopword,
    in the order of the boundaries, each with the offsets of its span, and
    nothing else, whatever the stream was used for before. *)
Theorem stream_yields_the_spans `{Linguistic}
    (a : analyzer) (st st1 : state_t) (input : string) :
  isBogus bogus_locale = true ->
  reachable a st ->
  reset st input = (true, st1) ->
  exists u,
    append_internal (configured_locale (a_options a)) input = Some u
    /\ forall fuel,
         (length (word_boundaries (configured_icu_locale (a_options a))
                    (fromUTF8 u)) < fuel)%nat ->
         tokens fuel st1
         = Some (spec_tokens a (fromUTF8 u) 0
                   (word_boundaries (configured_icu_locale (a_options a))
                      (fromUTF8 u))).
Proof.
  intros Hbogus Hreach Hreset.
  pose proof (reachable_wf Hbogus a st Hreach) as Hwf.
  destruct (wf_reset Hbogus a st input Hwf) as [[Hc Hr] Hbi].
  rewrite Hreset in Hc, Hr, Hbi. cbn [fst snd] in Hc, Hr, Hbi.
  specialize (Hbi eq_refl). specialize (Hr Hbi).
  destruct (core_locale a st1 Hc (ready_locale a st1 Hr)) as [Hl Hicu].
  destruct (reset_success st st1 input Hreset) as (u & Hu & Hd & Hb).
  rewrite Hl in Hu. rewrite Hicu in Hb.
  exists u. split; [exact Hu|]. intros fuel Hfuel.
  rewrite (tokens_spec a fuel st1 0 _ Hc Hr Hb Hfuel), Hd. reflexivity.
Qed.

Lemma stream_yields_the_spans_witness :
  let st := @text_token_stream ascii_platform english in
  let st1 := snd (@reset ascii_platform st "The Cats sleep") in
  @tokens ascii_platform 6 st1
  = Some [(Some "cat", 4, 8); (Some "sleep", 9, 14)].
Proof.
  cbv zeta.
  destruct (@stream_yields_the_spans ascii_platform english
              (@text_token_stream ascii_platform english)
              (snd (@reset ascii_platform
                      (@text_token_stream ascii_platform english)
                      "The Cats sleep"))
              "The Cats sleep" eq_refl (reach_new english) eq_refl)
    as (u & Hu & Htokens).
  injection Hu as <-.
  rewrite Htokens by (vm_compute; lia).
  vm_compute. reflexivity.
Defined.

End StreamRunFacts.

(** ** The stemming analyzer *)

Module StemmingFacts.
Import Int IntFacts Text TextStream Stemming StemmingSpec Examples.

Local Open Scope string_scope.

Section Facts.
Context `{Linguistic}.

Lemma next_eof (s : text_token_stemming_stream) :
  term_eof_ (snd (next s)) = true.
Proof. unfold next. destruct (term_eof_ s) eqn:E; [exact E|reflexivity]. Qed.

Lemma next_n_eof (s : text_token_stemming_stream) :
  term_eof_ s = true -> forall n, next_n n s = s.
Proof.
  intros E. induction n as [|n IH]; [reflexivity|].
  cbn [next_n]. unfold next at 1. rewrite E. exact IH.
Qed.

Lemma reset_result (s : text_token_stemming_stream) (data : string) :
  fst (reset s data)
  = match append_internal (locale_ s) data with
    | Some _ => true
    | None => false
    end
  /\ term_eof_ (snd (reset s data)) = negb (fst (reset s data))
  /\ if fst (reset s data)
     then term_ (snd (reset s data)) <> None
          /\ payload_ (snd (reset s data)) = Some data
          /\ offset_start (snd (reset s data)) = 0
          /\ offset_end (snd (reset s data))
             = wrap32 (Z.of_nat (String.length data))
     else term_ (snd (reset s data)) = None.
Proof.
  unfold reset.
  destruct (append_internal (locale_ s) data) as [buf|]; [|now repeat split].
  destruct (match stemmer_ s with
            | Some st => Some st
            | None => sb_stemmer_new (language (locale_ s))
            end) as [st|]; [destruct (sb_stemmer_stem st _ _)|];
    cbn; repeat split; discriminate.
Qed.

(** The locale of a stream is the one it was built for, and its stemmer,
    once there, is the one of that locale. *)
Lemma reachable_inv (locale : string) (s : text_token_stemming_stream) :
  reachable locale s ->
  locale_ s = locale_of_name locale
  /\ (stemmer_ s = None
      \/ stemmer_ s = sb_stemmer_new (language (locale_of_name locale))).
Proof.
  induction 1 as [|s data _ [Hl Hs]|s _ [Hl Hs]].
  - split; [reflexivity|now left].
  - assert (Hst : (match stemmer_ s with
                   | Some st => Some st
                   | None => sb_stemmer_new (language (locale_ s))
                   end)
                  = sb_stemmer_new (language (locale_of_name locale))).
    { destruct Hs as [->| ->]; rewrite ?Hl; [reflexivity|].
      now destruct (sb_stemmer_new _). }
    unfold reset. rewrite Hst.
    destruct (append_internal (locale_ s) data) as [buf|];
      [|split; [exact Hl|now right]].
    destruct (sb_stemmer_new (language (locale_of_name locale))) as [st|] eqn:E;
      [destruct (sb_stemmer_stem st _ _)|];
      (split; [exact Hl|cbn; rewrite ?E; tauto]).
  - unfold next. destruct (term_eof_ s); split; assumption.
Qed.

End Facts.

(** X14: the stemming stream yields exactly one token per successful
    [reset] and none after a failed one. [reset] succeeds exactly when the
    input converts to UTF-8; the first [next] then returns what [reset]
    returned and every later [next] returns [false], leaving the
    attributes as they are. After a successful [reset] the term is set,
    the payload is the input and the offsets are [0] and the 32-bit size
    of the input; after a failed one the term is null. *)
Theorem one_token_per_reset `{Linguistic}
    (s : text_token_stemming_stream) (data : string) :
  let r := reset s data in
  (fst r = true <-> append_internal (locale_ s) data <> None)
  /\ fst (next (snd r)) = fst r
  /\ (forall n, next (next_n (S n) (snd r))
                = (false, snd (next (snd r))))
  /\ (term_ (snd (next (snd r))) = term_ (snd r)
      /\ payload_ (snd (next (snd r))) = payload_ (snd r)
      /\ offset_start (snd (next (snd r))) = offset_start (snd r)
      /\ offset_end (snd (next (snd r))) = offset_end (snd r))
  /\ (if fst r
      then term_ (snd r) <> None
           /\ payload_ (snd r) = Some data
           /\ offset_start (snd r) = 0
           /\ offset_end (snd r) = wrap32 (Z.of_nat (String.length data))
      else term_ (snd r) = None).
Proof.
  intros r. subst r.
  destruct (reset_result s data) as (Hfst & Heof & Hattr).
  split; [|split; [|split; [|split]]].
  - rewrite Hfst. destruct (append_internal (locale_ s) data);
      split; congruence.
  - unfold next. rewrite Heof. now destruct (fst (reset s data)).
  - intros n. cbn [next_n].
    rewrite next_n_eof by apply next_eof.
    unfold next at 1. now rewrite next_eof.
  - unfold next. now destruct (term_eof_ (snd (reset s data))).
  - exact Hattr.
Qed.

(** X15: what a successful [reset] leaves does not depend on what the
    stream did before: in every state reached from the constructor,
    [reset] succeeds on the inputs on which it succeeds for a new stream
    and then leaves the very same state (stemmer, term, payload and
    offsets). *)
Theorem reset_forgets_history `{Linguistic}
    (locale : string) (s : text_token_stemming_stream) (data : string) :
  reachable locale s ->
  fst (reset s data) = fst (reset (make locale) data)
  /\ (fst (reset s data) = true ->
      snd (reset s data) = snd (reset (make locale) data)).
Proof.
  intros Hreach. destruct (reachable_inv locale s Hreach) as [Hl Hs].
  assert (Hst : (match stemmer_ s with
                 | Some st => Some st
                 | None => sb_stemmer_new (language (locale_ s))
                 end)
                = sb_stemmer_new (language (locale_of_name locale))).
  { destruct Hs as [->| ->]; rewrite ?Hl; [reflexivity|].
    now destruct (sb_stemmer_new _). }
  unfold reset. rewrite Hst, Hl. cbn [make locale_ stemmer_].
  destruct (append_internal (locale_of_name locale) data) as [buf|];
    [|split; [reflexivity|discriminate]].
  destruct (sb_stemmer_new (language (locale_of_name locale))) as [st|];
    [destruct (sb_stemmer_stem st _ _)|]; split; reflexivity.
Qed.

Lemma reset_forgets_history_witness :
  let s := snd (@next ascii_platform
                  (snd (@reset ascii_platform (@make ascii_platform "en") "dogs"))) in
  @term_ ascii_platform (snd (@reset ascii_platform s "cats")) = Some "cat"
  /\ fst (@reset ascii_platform s "cats")
     = fst (@reset ascii_platform (@make ascii_platform "en") "cats")
  /\ (fst (@reset ascii_platform s "cats") = true ->
      snd (@reset ascii_platform s "cats")
      = snd (@reset ascii_platform (@make ascii_platform "en") "cats")).
Proof.
  split; [vm_compute; reflexivity|].
  apply (@reset_forgets_history ascii_platform "en").
  apply reach_next, reach_reset, reach_make.
Defined.

End StemmingFacts.

(** ** The dynamic bitset: storage, single bits and equality *)

Module BitsetFacts.
Import Int IntFacts Bitset BitsetSpec.

(** An offset in bits is its word index and its bit index. *)
Lemma word_bit (i : Z) : i = bits_required * word i + bit i.
Proof. unfold word, bit, bits_required. apply Z.div_mod. lia. Qed.

Lemma bit_range (i : Z) : 0 <= bit i < bits_required.
Proof. unfold bit, bits_required. apply Z.mod_pos_bound. lia. Qed.

Lemma word_range (i n : Z) :
  0 <= i < bits_required * n -> 0 <= word i < n.
Proof.
  intros Hi. pose proof (word_bit i) as Hw. pose proof (bit_range i) as Hb.
  unfold bits_required in *. lia.
Qed.

(** The number of words for [bits] bits: the fewest that hold them. *)
Lemma bit_to_words_fits (bits : Z) :
  0 <= bits < 2 ^ 64 ->
  0 <= bit_to_words bits
  /\ bits_required * (bit_to_words bits - 1) < bits
     <= bits_required * bit_to_words bits.
Proof.
  intros Hb. unfold bit_to_words, EXTRA, bits_required.
  pose proof (Z.div_mod bits 64 ltac:(lia)) as Hdm.
  pose proof (Z.mod_pos_bound bits 64 ltac:(lia)) as Hm.
  assert (Hq : 0 <= bits / 64 < 2 ^ 58).
  { split; [apply Z.div_pos; lia|].
    apply Z.div_lt_upper_bound; lia. }
  destruct (Z.eqb_spec 0 (bits mod 64)) as [Hz|Hnz];
    rewrite wrap64_small by lia; lia.
Qed.

Lemma existsb_replicate_zero (n : nat) :
  existsb (fun w => negb (w =? 0)) (replicate n 0) = false.
Proof. induction n as [|n IH]; [reflexivity|exact IH]. Qed.

Lemma length_allocate (words : Z) (fresh : list Z) :
  length (allocate words fresh) = Z.to_nat words.
Proof.
  unfold allocate. rewrite List.length_firstn, length_app, length_replicate.
  lia.
Qed.

Lemma lookup_zeroed (n : nat) (rest : list Z) (k : nat) :
  (k < n)%nat -> (replicate n 0 ++ rest) !! k = Some 0.
Proof.
  intros Hk. rewrite lookup_app_l by (rewrite length_replicate; lia).
  now apply lookup_replicate_2.
Qed.

(** What [clear] leaves of an allocation that holds the words in use. *)
Lemma clear_allocated (bits words : Z) (d : list Z) :
  0 <= words -> words <= Z.of_nat (length d) ->
  exists b',
    clear {| bits_ := bits; words_ := words; data_ := Some d |} = Some b'
    /\ (bits_ b' = bits /\ words_ b' = words)
    /\ allocated b'
    /\ any b' = Some false
    /\ forall i, 0 <= i < bits_required * words -> at_word b' i = Some 0.
Proof.
  intros Hw Hlen. unfold clear. cbn [data_ words_ bits_].
  destruct (Z.ltb_spec (Z.of_nat (length d)) words) as [?|_]; [lia|].
  eexists. split; [reflexivity|]. split; [now split|].
  assert (Hlen' : words <= Z.of_nat (length (replicate (Z.to_nat words) 0
                                             ++ skipn (Z.to_nat words) d))).
  { rewrite length_app, length_replicate. lia. }
  split; [|split].
  - split; [exact Hw|exact Hlen'].
  - unfold any, range. cbn [data_ words_].
    destruct (Z.ltb_spec
                (Z.of_nat (length (replicate (Z.to_nat words) 0
                                   ++ skipn (Z.to_nat words) d))) words)
      as [?|_]; [lia|].
    cbn [fmap option_fmap option_map]. f_equal.
    rewrite List.firstn_app, length_replicate, Nat.sub_diag.
    rewrite List.firstn_all2 by (rewrite length_replicate; lia).
    cbn [firstn]. rewrite app_nil_r. apply existsb_replicate_zero.
  - intros i Hi. unfold at_word. cbn [data_ mbind option_bind].
    apply lookup_zeroed. pose proof (word_range i words Hi). lia.
Qed.

(** X16: [reset(bits)], hence the constructor for [bits] bits, leaves a
    bitset of that size whose words in use are the fewest that hold the
    bits (the capacity exceeds the size by less than one word), lie
    within the allocation and are all zero: no bit is set, whatever the
    allocator handed out and whatever the bitset held before. The size
    must not exceed [2^64 - 64], beyond which the capacity wraps. *)
Theorem reset_allocates_and_clears
    (b : dynamic_bitset) (bits : Z) (fresh : list Z) :
  allocated b ->
  0 <= bits <= 2 ^ 64 - bits_required ->
  exists b',
    reset b bits fresh = Some b'
    /\ (allocated b' /\ fitted b')
    /\ size b' = bits
    /\ bits <= capacity b' < bits + bits_required
    /\ any b' = Some false
    /\ forall i, 0 <= i < capacity b' -> at_word b' i = Some 0.
Proof.
  intros [Hw Hdata] Hbits.
  assert (Hrange : 0 <= bits < 2 ^ 64) by (unfold bits_required in *; lia).
  destruct (bit_to_words_fits bits Hrange) as [Hpos Hfit].
  assert (Hcap : wrap64 (bits_required * bit_to_words bits)
                 = bits_required * bit_to_words bits)
    by (apply wrap64_small; unfold bits_required in *; lia).
  assert (Hsome : forall d,
            bit_to_words bits <= Z.of_nat (length d) ->
            exists b',
              clear {| bits_ := bits; words_ := bit_to_words bits;
                       data_ := Some d |} = Some b'
              /\ (allocated b' /\ fitted b')
              /\ size b' = bits
              /\ bits <= capacity b' < bits + bits_required
              /\ any b' = Some false
              /\ forall i, 0 <= i < capacity b' -> at_word b' i = Some 0).
  { intros d Hlen.
    destruct (clear_allocated bits (bit_to_words bits) d Hpos Hlen)
      as (b' & Hclear & [Hb Hws] & Halloc & Hany & Hzero).
    exists b'. unfold fitted, size, capacity. rewrite Hb, Hws, Hcap.
    split; [exact Hclear|]. split; [split; [exact Halloc|lia]|].
    split; [reflexivity|]. split; [lia|]. split; [exact Hany|exact Hzero]. }
  unfold reset.
  destruct (Z.ltb_spec (words_ b) (bit_to_words bits)) as [Hgrow|Hkeep].
  - apply Hsome. rewrite length_allocate. lia.
  - destruct (data_ b) as [d|]; [apply Hsome; lia|].
    assert (Hzero : bit_to_words bits = 0) by lia.
    eexists. split; [reflexivity|].
    unfold allocated, fitted, size, capacity, any, range, at_word.
    cbn [bits_ words_ data_]. rewrite Hcap, Hzero in *.
    unfold bits_required in *.
    repeat split; lia.
Qed.

Lemma reset_allocates_and_clears_witness :
  exists b',
    reset empty_bitset 70 [5; 6; 7] = Some b'
    /\ (allocated b' /\ fitted b')
    /\ size b' = 70
    /\ 70 <= capacity b' < 70 + bits_required
    /\ any b' = Some false
    /\ forall i, 0 <= i < capacity b' -> at_word b' i = Some 0.
Proof.
  apply (reset_allocates_and_clears empty_bitset 70 [5; 6; 7]).
  - split; [cbn; lia|reflexivity].
  - unfold bits_required. lia.
Defined.

(** Two offsets with the same word index are the same exactly when
    their bit indices are. *)
Lemma same_word_same_bit (i j : Z) :
  word i = word j -> (i =? j) = (bit i =? bit j).
Proof.
  intros Hw. pose proof (word_bit i) as Hi. pose proof (word_bit j) as Hj.
  rewrite Hw in Hi.
  destruct (Z.eqb_spec i j) as [Heq|Hne];
    destruct (Z.eqb_spec (bit i) (bit j)) as [Hb|Hb]; try reflexivity.
  - subst j. contradiction.
  - lia.
Qed.

Lemma other_word_other_bit (i j : Z) :
  word i <> word j -> (i =? j) = false.
Proof. intros Hw. apply Z.eqb_neq. intros ->. now apply Hw. Qed.

(** A word updated at the offset [i], read at the offset [j]. *)
Lemma update_word_at (b : dynamic_bitset) (i j : Z) (f : Z -> Z) :
  allocated b ->
  0 <= i < bits_required * words_ b ->
  0 <= j < bits_required * words_ b ->
  exists b' wi wj,
    update_word b i f = Some b'
    /\ (bits_ b' = bits_ b /\ words_ b' = words_ b /\ allocated b')
    /\ at_word b i = Some wi /\ at_word b j = Some wj
    /\ at_word b' j = Some (if word i =? word j then f wi else wj).
Proof.
  intros [Hw Hdata] Hi Hj.
  pose proof (word_range i (words_ b) Hi) as Hwi.
  pose proof (word_range j (words_ b) Hj) as Hwj.
  unfold update_word, at_word.
  destruct (data_ b) as [d|] eqn:Hd; [|lia]. cbn [mbind option_bind].
  destruct (lookup_lt_is_Some_2 d (Z.to_nat (word i)) ltac:(lia)) as [wi Hli].
  destruct (lookup_lt_is_Some_2 d (Z.to_nat (word j)) ltac:(lia)) as [wj Hlj].
  rewrite Hli, Hlj. cbn [mbind option_bind].
  eexists _, wi, wj. split; [reflexivity|].
  cbn [bits_ words_ data_ mbind option_bind].
  split; [split; [reflexivity|split; [reflexivity|]]|].
  { split; [exact Hw|]. cbn [data_]. rewrite length_insert. exact Hdata. }
  split; [reflexivity|]. split; [reflexivity|].
  destruct (Z.eqb_spec (word i) (word j)) as [Heq|Hne].
  - rewrite <- Heq. apply list_lookup_insert_eq. apply lookup_lt_Some in Hli. exact Hli.
  - rewrite list_lookup_insert_ne by lia. exact Hlj.
Qed.

(** X17: within the capacity of a bitset, [set(i)] and [unset(i)] stay
    inside the allocation, keep size and words, and change the bit [i]
    only: afterwards [test(j)] is [true] (after [set]) or [false] (after
    [unset]) for [j = i] and what it was for every other [j], provided
    the bit helpers act on the bits of a word as their names say. *)
Theorem set_changes_one_bit `{BitUtils} (b : dynamic_bitset) (i j : Z) :
  bit_utils_laws ->
  allocated b ->
  0 <= i < bits_required * words_ b ->
  0 <= j < bits_required * words_ b ->
  exists b1 b2 t,
    (set b i = Some b1 /\ unset b i = Some b2 /\ test b j = Some t)
    /\ (size b1 = size b /\ words b1 = words b /\ allocated b1)
    /\ (size b2 = size b /\ words b2 = words b /\ allocated b2)
    /\ test b1 j = Some ((i =? j) || t)
    /\ test b2 j = Some (negb (i =? j) && t).
Proof.
  intros [Hset Hunset] Halloc Hi Hj.
  destruct (update_word_at b i j (fun w => set_bit w (bit i)) Halloc Hi Hj)
    as (b1 & wi & wj & Hb1 & Hkeep1 & Hwi & Hwj & Hj1).
  destruct (update_word_at b i j (fun w => unset_bit w (bit i)) Halloc Hi Hj)
    as (b2 & wi' & wj' & Hb2 & Hkeep2 & Hwi' & Hwj' & Hj2).
  assert (wi' = wi) as -> by congruence.
  assert (wj' = wj) as -> by congruence.
  exists b1, b2, (check_bit wj (bit j)).
  unfold set, unset, test, size, words.
  rewrite Hb1, Hb2, Hwj, Hj1, Hj2. cbn [mbind option_bind].
  split; [repeat split|]. split; [exact Hkeep1|]. split; [exact Hkeep2|].
  pose proof (bit_range i) as Hbi. pose proof (bit_range j) as Hbj.
  destruct (Z.eqb_spec (word i) (word j)) as [Heq|Hne].
  - assert (wi = wj) as ->.
    { unfold at_word in Hwi, Hwj. rewrite Heq in Hwi. congruence. }
    rewrite (same_word_same_bit i j Heq), Hset, Hunset by assumption.
    split; reflexivity.
  - rewrite (other_word_other_bit i j Hne). split; reflexivity.
Qed.

Lemma z_bit_utils_laws : @bit_utils_laws z_bit_utils.
Proof.
  split; cbn [set_bit unset_bit check_bit z_bit_utils]; intros w i j Hi Hj.
  - apply Z.setbit_eqb. lia.
  - rewrite Z.clearbit_eqb, andb_comm. reflexivity.
Qed.

Lemma set_changes_one_bit_witness :
  let b := {| bits_ := 70; words_ := 2; data_ := Some [0; 1] |} in
  exists b1 b2 t,
    (@set z_bit_utils b 65 = Some b1 /\ @unset z_bit_utils b 65 = Some b2
     /\ @test z_bit_utils b 64 = Some t)
    /\ (size b1 = size b /\ words b1 = words b /\ allocated b1)
    /\ (size b2 = size b /\ words b2 = words b /\ allocated b2)
    /\ @test z_bit_utils b1 64 = Some ((65 =? 64) || t)
    /\ @test z_bit_utils b2 64 = Some (negb (65 =? 64) && t).
Proof.
  apply (@set_changes_one_bit z_bit_utils
           {| bits_ := 70; words_ := 2; data_ := Some [0; 1] |} 65 64
           z_bit_utils_laws).
  - split; [cbn; lia|vm_compute; discriminate].
  - unfold bits_required. cbn. lia.
  - unfold bits_required. cbn. lia.
Defined.

(** The mask of [sanitize] holds the [k] low bits. *)
Lemma sanitize_mask (k : Z) :
  0 < k < bits_required ->
  lnot64 (wrap64 (Z.shiftl (lnot64 0) k)) = Z.ones k.
Proof.
  unfold bits_required. intros Hk.
  change (lnot64 0) with (2 ^ 64 - 1).
  rewrite Z.shiftl_mul_pow2, Z.ones_equiv by lia.
  assert (Hp : 2 <= 2 ^ k <= 2 ^ 63).
  { split.
    - change 2 with (2 ^ 1) at 1. apply Z.pow_le_mono_r; lia.
    - apply Z.pow_le_mono_r; lia. }
  assert (Hshift : wrap64 ((2 ^ 64 - 1) * 2 ^ k) = 2 ^ 64 - 2 ^ k).
  { unfold wrap64. symmetry. apply (Z.mod_unique _ _ (2 ^ k - 1)); lia. }
  rewrite Hshift. unfold lnot64, wrap64, Z.lnot.
  symmetry. apply (Z.mod_unique _ _ (-1)); lia.
Qed.

(** X18: [sanitize] clears the bits that the last word stores beyond the
    size of the bitset and keeps every other stored bit: afterwards the
    bit of an offset within the capacity is what it was if the offset is
    below the size, and [0] otherwise. *)
Theorem sanitize_clears_the_tail (b : dynamic_bitset) :
  allocated b ->
  fitted b ->
  bits_ b < 2 ^ 64 ->
  exists b',
    sanitize b = Some b'
    /\ (size b' = size b /\ words b' = words b)
    /\ forall i, 0 <= i < bits_required * words_ b ->
         exists v, stored_bit b i = Some v
                   /\ stored_bit b' i = Some ((i <? size b) && v).
Proof.
  intros [Hw Hdata] [Hbits Hfit] Hmax. unfold sanitize, size, words.
  pose proof (Z.div_mod (bits_ b) 64 ltac:(lia)) as Hdm.
  pose proof (Z.mod_pos_bound (bits_ b) 64 ltac:(lia)) as Hm.
  assert (Hstored : forall i, 0 <= i < bits_required * words_ b ->
                      exists w, at_word b i = Some w).
  { intros i Hi. pose proof (word_range i (words_ b) Hi) as Hwi.
    unfold at_word. destruct (data_ b) as [d|]; [|lia].
    cbn [mbind option_bind]. apply lookup_lt_is_Some_2. lia. }
  unfold bits_required in *.
  destruct (Z.eqb_spec (bits_ b mod 64) 0) as [Hzero|Hrest].
  - exists b. split; [reflexivity|]. split; [now split|].
    intros i Hi. destruct (Hstored i Hi) as [w Hw'].
    exists (Z.testbit w (bit i)). unfold stored_bit. rewrite Hw'.
    split; [reflexivity|].
    destruct (Z.ltb_spec i (bits_ b)) as [_|Hge]; [reflexivity|lia].
  - assert (Hwords : 1 <= words_ b) by lia.
    assert (Hlast : bits_ b / 64 = words_ b - 1) by lia.
    rewrite wrap64_small by lia.
    destruct (data_ b) as [d|] eqn:Hd; [|lia]. cbn [mbind option_bind].
    destruct (lookup_lt_is_Some_2 d (Z.to_nat (words_ b - 1)) ltac:(lia))
      as [w Hlw].
    rewrite Hlw. cbn [mbind option_bind].
    eexists. split; [reflexivity|]. cbn [bits_ words_].
    split; [now split|].
    intros i Hi. destruct (Hstored i Hi) as [wi Hwi].
    exists (Z.testbit wi (bit i)). unfold stored_bit. rewrite Hwi.
    split; [reflexivity|].
    pose proof (word_range i (words_ b) Hi) as Hrange.
    pose proof (word_bit i) as Hsplit. pose proof (bit_range i) as Hbit.
    unfold bits_required in *.
    unfold at_word in *. rewrite Hd in Hwi. cbn [data_ mbind option_bind] in *.
    destruct (Z.eq_dec (word i) (words_ b - 1)) as [Heq|Hne].
    + rewrite Heq in *. rewrite list_lookup_insert_eq
        by (apply lookup_lt_Some in Hlw; exact Hlw).
      assert (wi = w) as -> by congruence.
      cbn [fmap option_fmap option_map]. f_equal.
      rewrite Z.land_spec, sanitize_mask by (unfold bits_required; lia).
      rewrite Z.testbit_ones_nonneg by lia.
      rewrite andb_comm. f_equal.
      destruct (Z.ltb_spec (bit i) (bits_ b mod 64)),
               (Z.ltb_spec i (bits_ b)); try reflexivity; lia.
    + rewrite list_lookup_insert_ne by lia. rewrite Hwi.
      cbn [fmap option_fmap option_map]. f_equal.
      destruct (Z.ltb_spec i (bits_ b)) as [_|Hge]; [reflexivity|lia].
Qed.

Lemma sanitize_clears_the_tail_witness :
  let b := {| bits_ := 70; words_ := 2;
              data_ := Some [2 ^ 64 - 1; 2 ^ 64 - 1] |} in
  exists b',
    sanitize b = Some b'
    /\ (size b' = size b /\ words b' = words b)
    /\ forall i, 0 <= i < bits_required * words_ b ->
         exists v, stored_bit b i = Some v
                   /\ stored_bit b' i = Some ((i <? size b) && v).
Proof.
  apply (sanitize_clears_the_tail
           {| bits_ := 70; words_ := 2;
              data_ := Some [2 ^ 64 - 1; 2 ^ 64 - 1] |}).
  - split; [cbn; lia|vm_compute; discriminate].
  - split; unfold bits_required; cbn; lia.
  - cbn. lia.
Defined.

(** The constructor allocates exactly the words in use. *)
Lemma make_data (bits : Z) (fresh : list Z) (b : dynamic_bitset) :
  0 < bits < 2 ^ 64 ->
  make bits fresh = Some b ->
  bits_ b = bits
  /\ exists d, data_ b = Some d
               /\ Z.of_nat (length d) = bit_to_words bits.
Proof.
  intros Hbits. destruct (bit_to_words_fits bits ltac:(lia)) as [Hpos Hfit].
  unfold bits_required in *.
  unfold make, reset, clear. cbn [words_ data_ bits_ empty_bitset].
  destruct (Z.ltb_spec 0 (bit_to_words bits)) as [_|?]; [|lia].
  rewrite length_allocate.
  destruct (Z.ltb_spec (Z.of_nat (Z.to_nat (bit_to_words bits)))
                       (bit_to_words bits)) as [?|_]; [lia|].
  intros [= <-]. cbn [bits_ data_]. split; [reflexivity|].
  eexists. split; [reflexivity|].
  rewrite length_app, length_replicate, List.length_skipn, length_allocate.
  lia.
Qed.

(** X19: [operator==] compares [size()] bytes, the size being a number
    of bits: on two bitsets of the same size of more than 8 bits, each as
    its constructor built it, the comparison reads past the words
    array, whatever the bitsets hold. *)
Theorem equality_reads_past_the_words
    (bits : Z) (fresh1 fresh2 : list Z) (a b : dynamic_bitset) :
  8 < bits < 2 ^ 64 ->
  make bits fresh1 = Some a ->
  make bits fresh2 = Some b ->
  size a = size b
  /\ sizeof_word * words a < size a
  /\ equal a b = None.
Proof.
  intros Hbits Ha Hb.
  destruct (make_data bits fresh1 a ltac:(lia) Ha) as (Hsa & da & Hda & Hla).
  destruct (make_data bits fresh2 b ltac:(lia) Hb) as (Hsb & db & Hdb & Hlb).
  destruct (bit_to_words_fits bits ltac:(lia)) as [Hpos Hfit].
  assert (Hwa : words_ a = bit_to_words bits).
  { revert Ha. unfold make, reset, clear. cbn [words_ data_ bits_].
    destruct (if _ <? _ then _ else _); [destruct (_ <? _)|];
      now intros [= <-]. }
  unfold bits_required, sizeof_word, size, words in *.
  split; [congruence|]. split; [lia|].
  unfold equal, size. rewrite Hsa, Hsb, Z.eqb_refl, Hda, Hdb.
  cbn [negb mbind option_bind]. unfold read_bytes, sizeof_word.
  destruct (Z.ltb_spec (8 * Z.of_nat (length da)) bits) as [_|?]; [|lia].
  reflexivity.
Qed.

Lemma equality_reads_past_the_words_witness :
  exists a b,
    make 64 [] = Some a /\ make 64 [1] = Some b
    /\ size a = size b
    /\ sizeof_word * words a < size a
    /\ equal a b = None.
Proof.
  eexists _, _. split; [reflexivity|]. split; [reflexivity|].
  apply (equality_reads_past_the_words 64 [] [1]); [lia|reflexivity|reflexivity].
Defined.

End BitsetFacts.
